(** * cloudwatchlogs: buffering, limits, provisioning and flushing

    A shallow embedding of the log-batching engine.  The repository holds
    several generations of the engine side by side:

    - the functional API of [src/unnamed/part_003] ([setup], [addLog],
      [flush], class [Logger]);
    - the functional API of [src/unnamed/part_002], first document (the same
      functions, with the resource registry and the per-event overhead);
    - the class [CloudWatchLogger] (second document of [src/pg/index.ts]).

    Definitions shared verbatim by the generations are given once; where the
    generations differ each one has its own module, named after its file. *)

From Stdlib Require Import ZArith List Bool String Ascii Lia QArith Qround.
From Stdlib Require Import Sorting.Sorted Sorting.Permutation.
Import ListNotations.

Open Scope Z_scope.

(* ================================================================== *)
(** ** JavaScript strings and Node's [Buffer] *)

(** A JavaScript string is a sequence of UTF-16 code units. *)
Definition JsString := list Z.

Module Buffer.

Definition is_high_surrogate (u : Z) : bool := (0xD800 <=? u) && (u <=? 0xDBFF).
Definition is_low_surrogate (u : Z) : bool := (0xDC00 <=? u) && (u <=? 0xDFFF).

(** The code points of a string: surrogate pairs are combined, a lone
    surrogate becomes U+FFFD (what [Buffer.from(str)] does before it
    encodes). *)
Fixpoint code_points (s : JsString) : list Z :=
  match s with
  | [] => []
  | u :: s' =>
      if is_high_surrogate u then
        match s' with
        | v :: s'' =>
            if is_low_surrogate v
            then (0x10000 + (u - 0xD800) * 0x400 + (v - 0xDC00)) :: code_points s''
            else 0xFFFD :: code_points s'
        | [] => [0xFFFD]
        end
      else if is_low_surrogate u then 0xFFFD :: code_points s'
      else u :: code_points s'
  end.

(** UTF-8 bytes of one code point. *)
Definition utf8_of_code_point (c : Z) : list Z :=
  if c <? 0x80 then [c]
  else if c <? 0x800 then
    [Z.lor 0xC0 (Z.shiftr c 6); Z.lor 0x80 (Z.land c 0x3F)]
  else if c <? 0x10000 then
    [Z.lor 0xE0 (Z.shiftr c 12);
     Z.lor 0x80 (Z.land (Z.shiftr c 6) 0x3F);
     Z.lor 0x80 (Z.land c 0x3F)]
  else
    [Z.lor 0xF0 (Z.shiftr c 18);
     Z.lor 0x80 (Z.land (Z.shiftr c 12) 0x3F);
     Z.lor 0x80 (Z.land (Z.shiftr c 6) 0x3F);
     Z.lor 0x80 (Z.land c 0x3F)].

(** [Buffer.from(str)] (default encoding "utf8"). *)
Definition from (s : JsString) : list Z :=
  flat_map utf8_of_code_point (code_points s).

(** [Buffer.byteLength(str, "utf-8")]. *)
Definition byteLength (s : JsString) : Z := Z.of_nat (List.length (from s)).

(** [buf.slice(0, n)] and [buf.subarray(0, n)]: the first [n] bytes. *)
Definition subarray0 (n : Z) (buf : list Z) : list Z := firstn (Z.to_nat n) buf.

(** State of the UTF-8 decoder (Encoding Standard, "UTF-8 decoder"). *)
Record DecoderState := mkDecoder {
  code_point : Z;
  bytes_needed : Z;
  bytes_seen : Z;
  lower_boundary : Z;
  upper_boundary : Z
}.

Definition initial : DecoderState := mkDecoder 0 0 0 0x80 0xBF.

Definition in_range (lo hi b : Z) : bool := (lo <=? b) && (b <=? hi).

(** A byte met while no sequence is open: the code points emitted and the
    next state. *)
Definition lead_byte (b : Z) : list Z * DecoderState :=
  if in_range 0x00 0x7F b then ([b], initial)
  else if in_range 0xC2 0xDF b then
    ([], mkDecoder (Z.land b 0x1F) 1 0 0x80 0xBF)
  else if in_range 0xE0 0xEF b then
    ([], mkDecoder (Z.land b 0xF) 2 0
           (if b =? 0xE0 then 0xA0 else 0x80)
           (if b =? 0xED then 0x9F else 0xBF))
  else if in_range 0xF0 0xF4 b then
    ([], mkDecoder (Z.land b 0x7) 3 0
           (if b =? 0xF0 then 0x90 else 0x80)
           (if b =? 0xF4 then 0x8F else 0xBF))
  else ([0xFFFD], initial).

(** One byte through the decoder; a malformed sequence yields U+FFFD and
    the offending byte is read again as a lead byte. *)
Definition decode_byte (st : DecoderState) (b : Z) : list Z * DecoderState :=
  if bytes_needed st =? 0 then lead_byte b
  else if negb (in_range (lower_boundary st) (upper_boundary st) b) then
    let (out, st') := lead_byte b in (0xFFFD :: out, st')
  else
    let cp := Z.lor (Z.shiftl (code_point st) 6) (Z.land b 0x3F) in
    let seen := bytes_seen st + 1 in
    if seen =? bytes_needed st then ([cp], initial)
    else ([], mkDecoder cp (bytes_needed st) seen 0x80 0xBF).

Fixpoint decode_from (st : DecoderState) (bytes : list Z) : list Z :=
  match bytes with
  | [] => if bytes_needed st =? 0 then [] else [0xFFFD]
  | b :: rest =>
      let (out, st') := decode_byte st b in out ++ decode_from st' rest
  end.

Definition utf16_of_code_point (c : Z) : list Z :=
  if c <? 0x10000 then [c]
  else [0xD800 + (c - 0x10000) / 0x400; 0xDC00 + (c - 0x10000) mod 0x400].

(** [buf.toString()] (default encoding "utf8"). *)
Definition toString (buf : list Z) : JsString :=
  flat_map utf16_of_code_point (decode_from initial buf).

End Buffer.

(* ================================================================== *)
(** ** Log events *)

(** [interface Log { timestamp: number; message: string }]. *)
Record Log := mkLog { timestamp : Z; message : JsString }.

(** The limits, identical in every generation
    (part_003:19-23, part_002:26-31, src/pg/index.ts:77-82). *)
Definition CLOUDWATCH_FIXED_EVENT_PREFIX : Z := 26.
Definition CLOUDWATCH_MAX_EVENT_SIZE : Z := 2 ^ 18 - CLOUDWATCH_FIXED_EVENT_PREFIX.
Definition CLOUDWTACH_MAX_BUFFER_LENGTH : Z := 10000.
Definition CLOUDWATCH_MAX_BUFFER_SIZE : Z := 2 ^ 20.

(** [Buffer.from(message).subarray(0, CLOUDWATCH_MAX_EVENT_SIZE).toString()],
    the clipping expression of [addLog] (part_002:370-372, with [slice]),
    of [log] and of the retry loop (src/pg/index.ts:320-322, 281-283). *)
Definition clip_message (m : JsString) : JsString :=
  Buffer.toString (Buffer.subarray0 CLOUDWATCH_MAX_EVENT_SIZE (Buffer.from m)).

(* ================================================================== *)
(** ** Ordering a buffer *)

(** [value.sort((a, b) => a.timestamp - b.timestamp)].  [Array.prototype.sort]
    is a stable sort (ECMAScript 2019) and the comparator is a total
    preorder on integer timestamps, so the result is the stable ascending
    arrangement; it is computed here by insertion, a new element going in
    front of the first element that is not smaller. *)
Fixpoint insert_by_timestamp (x : Log) (l : list Log) : list Log :=
  match l with
  | [] => [x]
  | y :: l' =>
      if timestamp x <=? timestamp y then x :: l
      else y :: insert_by_timestamp x l'
  end.

Fixpoint sort_by_timestamp (l : list Log) : list Log :=
  match l with
  | [] => []
  | x :: l' => insert_by_timestamp x (sort_by_timestamp l')
  end.

(* ================================================================== *)
(** ** Buffer keys *)

(** The separator of the template literal [`${logGroupName}{::}${logStreamName}`]. *)
Definition SEP : string := "{::}"%string.

Definition key_of (logGroupName logStreamName : string) : string :=
  String.append logGroupName (String.append SEP logStreamName).

(** [String.prototype.includes]. *)
Fixpoint includes (sep s : string) : bool :=
  String.prefix sep s ||
  match s with
  | EmptyString => false
  | String _ s' => includes sep s'
  end.

(** [String.prototype.split] for a non-empty separator, left to right:
    [skip] counts the characters of a matched separator still to pass over;
    the result is the piece under construction and the pieces after it. *)
Fixpoint split_from (sep : string) (skip : nat) (s : string) : string * list string :=
  match s with
  | EmptyString => (EmptyString, [])
  | String c s' =>
      match skip with
      | S k => split_from sep k s'
      | O =>
          if String.prefix sep s then
            let (p, ps) := split_from sep (String.length sep - 1) s' in
            (EmptyString, p :: ps)
          else
            let (p, ps) := split_from sep 0 s' in (String c p, ps)
      end
  end.

Definition split (sep s : string) : list string :=
  let (p, ps) := split_from sep 0 s in p :: ps.

(** [const [streamGroup, streamName] = key.split("{::}")]: the first two
    pieces (a key always holds the separator, so both exist). *)
Definition split_key (key : string) : string * string :=
  let parts := split SEP key in (nth 0 parts EmptyString, nth 1 parts EmptyString).

(* ================================================================== *)
(** ** The buffer map *)

(** A JavaScript [Map] with string keys: entries in insertion order, keys
    unique. *)
Definition JsMap (V : Type) := list (string * V).

Section JsMapOps.
Context {V : Type}.

Fixpoint map_get (k : string) (m : JsMap V) : option V :=
  match m with
  | [] => None
  | (k', v) :: m' => if String.eqb k k' then Some v else map_get k m'
  end.

Definition map_has (k : string) (m : JsMap V) : bool :=
  match map_get k m with Some _ => true | None => false end.

(** [m.set(k, v)]: an existing key keeps its place. *)
Fixpoint map_set (k : string) (v : V) (m : JsMap V) : JsMap V :=
  match m with
  | [] => [(k, v)]
  | (k', v') :: m' =>
      if String.eqb k k' then (k', v) :: m' else (k', v') :: map_set k v m'
  end.

Definition keys (m : JsMap V) : list string := List.map fst m.

Definition well_formed (m : JsMap V) : Prop := NoDup (keys m).
End JsMapOps.

(** [bufferedLogs]. *)
Definition Buffers := JsMap (list Log).

(** [pushLog] (part_003:107-114, part_002:117-124, src/pg/index.ts:148-160). *)
Definition pushLog (logGroupName logStreamName : string) (log : Log)
    (bufferedLogs : Buffers) : Buffers :=
  let key := key_of logGroupName logStreamName in
  let b1 := if map_has key bufferedLogs then bufferedLogs
            else map_set key [] bufferedLogs in
  match map_get key b1 with
  | Some logs => map_set key (logs ++ [log]) b1
  | None => b1
  end.

(** An element of the array [getOrderedLogs] returns. *)
Definition Entry : Type := string * string * list Log.

Definition entry_logs (e : Entry) : list Log := snd e.

(** [getOrderedLogs] (part_003:144-162, part_002:158-176,
    src/pg/index.ts:219-238): one pass over the entries; each key is reset
    to a fresh empty array and its former array is sorted and pushed. *)
Definition getOrderedLogs (bufferedLogs : Buffers) : list Entry * Buffers :=
  fold_left
    (fun (acc : list Entry * Buffers) (kv : string * list Log) =>
       let (all, cur) := acc in
       let (key, value) := kv in
       let (streamGroup, streamName) := split_key key in
       (all ++ [(streamGroup, streamName, sort_by_timestamp value)],
        map_set key [] cur))
    bufferedLogs ([], bufferedLogs).

(* ================================================================== *)
(** ** Errors, the remote sink and the engine state *)

(** What a thrown value is an instance of. *)
Inductive ErrorClass :=
| PlainError                        (* new Error(...) *)
| ResourceAlreadyExistsException
| InvalidParameterException
| OtherServiceException             (* any other exception class of the SDK *)
| NotAnError.                       (* a thrown value that is no Error *)

(** A thrown value: its class, [name], [message] and [cause]. *)
#[warnings="-register-all"]
Inductive Thrown :=
| mkThrown (cls : ErrorClass) (name : string) (msg : string) (cause : option Thrown).

Definition thrown_class (e : Thrown) : ErrorClass := let (c, _, _, _) := e in c.
Definition thrown_name (e : Thrown) : string := let (_, n, _, _) := e in n.
Definition thrown_message (e : Thrown) : string := let (_, _, m, _) := e in m.
Definition thrown_cause (e : Thrown) : option Thrown := let (_, _, _, c) := e in c.

(** [new Error(message)] and [new Error(message, { cause })]. *)
Definition new_Error (msg : string) (cause : option Thrown) : Thrown :=
  mkThrown PlainError "Error" msg cause.

Definition instanceof (e : Thrown) (c : ErrorClass) : bool :=
  match thrown_class e, c with
  | PlainError, PlainError => true
  | ResourceAlreadyExistsException, ResourceAlreadyExistsException => true
  | InvalidParameterException, InvalidParameterException => true
  | OtherServiceException, OtherServiceException => true
  | NotAnError, NotAnError => true
  | _, _ => false
  end.

(** [error instanceof Error]: every class but [NotAnError]. *)
Definition instanceof_Error (e : Thrown) : bool :=
  match thrown_class e with NotAnError => false | _ => true end.

(** [isResourceAlreadyExistsException] (part_003:25-37, part_002:33-45,
    src/pg/index.ts:85-97). *)
Definition isResourceAlreadyExistsException (error : Thrown) : bool :=
  if instanceof error ResourceAlreadyExistsException then true
  else if instanceof_Error error
       then String.eqb (thrown_name error) "ResourceAlreadyExistsException"
       else false.

(** The commands handed to [client.send].  [PutSelfDiagnostic] stands for
    the [PutLogEventsCommand] that reports an engine error to the reserved
    destination "cloudwatch_logger"/"errors": one event whose message is the
    JSON text of the report ([message] and the error it is about). *)
Inductive Command :=
| CreateLogGroupCommand (logGroupName : string)
| CreateLogStreamCommand (logGroupName logStreamName : string)
| PutLogEventsCommand (logGroupName logStreamName : string) (logEvents : list Log)
| PutSelfDiagnostic (report : string) (about : Thrown).

(** How an awaited [client.send] settles. *)
Inductive Response :=
| Resolved (httpStatusCode : Z)
| Rejected (error : Thrown).

(** The remote sink: its answer to a command, given the commands it was
    sent before (oldest first). *)
Definition Remote := list Command -> Command -> Response.

(** What the process writes: the console calls of the engine, and the
    report of a promise rejection that nobody awaits or catches.  On such a
    rejection Node (its default, --unhandled-rejections=throw) prints the
    error and ends the process with exit code 1.  The rejection settles
    while the engine goes on, so the run is followed further here; of what
    comes after an [UnhandledRejection] the process performs only as much
    as it gets to before it ends. *)
Inductive Output :=
| ConsoleError (e : Thrown)          (* console.error(error) *)
| ConsoleInfo (text : JsString)      (* console.info of a message, parsed
                                        as JSON when it parses *)
| UnhandledRejection (e : Thrown).   (* the process ends on it *)

(** The state the flush path works on. *)
Record Engine := mkEngine {
  logGroups : JsMap (list string);        (* the resource registry *)
  bufferedLogs : Buffers;
  sent : list Command;                    (* commands given to client.send, oldest first *)
  console_out : list Output;
  flushes : list (list Entry);            (* snapshots handed to an un-awaited _flush *)
  immediates : list (string * string * Log)  (* setImmediate(pushLog, ...) not yet run *)
}.

Definition with_logGroups (g : JsMap (list string)) (w : Engine) : Engine :=
  mkEngine g (bufferedLogs w) (sent w) (console_out w) (flushes w) (immediates w).
Definition with_bufferedLogs (b : Buffers) (w : Engine) : Engine :=
  mkEngine (logGroups w) b (sent w) (console_out w) (flushes w) (immediates w).
Definition with_sent (c : list Command) (w : Engine) : Engine :=
  mkEngine (logGroups w) (bufferedLogs w) c (console_out w) (flushes w) (immediates w).
Definition with_console (o : list Output) (w : Engine) : Engine :=
  mkEngine (logGroups w) (bufferedLogs w) (sent w) o (flushes w) (immediates w).
Definition with_flushes (f : list (list Entry)) (w : Engine) : Engine :=
  mkEngine (logGroups w) (bufferedLogs w) (sent w) (console_out w) f (immediates w).
Definition with_immediates (i : list (string * string * Log)) (w : Engine) : Engine :=
  mkEngine (logGroups w) (bufferedLogs w) (sent w) (console_out w) (flushes w) i.

(** How a call ends: it returns, it throws, or the model ran out of loop
    iterations. *)
Inductive Outcome (A : Type) :=
| Returned (a : A)
| Threw (e : Thrown)
| OutOfFuel.
Arguments Returned {A} a.
Arguments Threw {A} e.
Arguments OutOfFuel {A}.

(** An async function, awaited to completion on the single task queue. *)
Definition M (A : Type) := Engine -> Outcome A * Engine.

Definition ret {A} (a : A) : M A := fun w => (Returned a, w).
Definition throw {A} (e : Thrown) : M A := fun w => (Threw e, w).
Definition bind {A B} (m : M A) (k : A -> M B) : M B :=
  fun w =>
    match m w with
    | (Returned a, w') => k a w'
    | (Threw e, w') => (Threw e, w')
    | (OutOfFuel, w') => (OutOfFuel, w')
    end.

(** [try { body } catch (error) { handler }]. *)
Definition try_catch {A} (body : M A) (handler : Thrown -> M A) : M A :=
  fun w =>
    match body w with
    | (Threw e, w') => handler e w'
    | r => r
    end.

Notation "x <- m ;; k" := (bind m (fun x => k))
  (at level 61, m at next level, right associativity).
Notation "m ;;; k" := (bind m (fun _ => k))
  (at level 61, right associativity).

Definition modify (f : Engine -> Engine) : M unit := fun w => (Returned tt, f w).

(** [await client.send(command)]. *)
Definition send (remote : Remote) (command : Command) : M Z :=
  fun w =>
    let w' := with_sent (sent w ++ [command]) w in
    match remote (sent w) command with
    | Resolved code => (Returned code, w')
    | Rejected e => (Threw e, w')
    end.

(** [client.send(command)] that nobody awaits: the command goes out and
    the caller goes on at once.  Nobody looks at the settlement: when the
    sink rejects the command, the rejection is unhandled and the process
    is ending from there on. *)
Definition send_detached (remote : Remote) (command : Command) : M unit :=
  modify (fun w =>
            let w' := with_sent (sent w ++ [command]) w in
            match remote (sent w) command with
            | Resolved _ => w'
            | Rejected e =>
                with_console (console_out w' ++ [UnhandledRejection e]) w'
            end).

Definition console_error (e : Thrown) : M unit :=
  modify (fun w => with_console (console_out w ++ [ConsoleError e]) w).

(** [logGroups.get(name)?.push(stream)]. *)
Definition registry_push (logGroupName logStreamName : string)
    (g : JsMap (list string)) : JsMap (list string) :=
  match map_get logGroupName g with
  | Some streams => map_set logGroupName (streams ++ [logStreamName]) g
  | None => g
  end.

(** [logGroup?.includes(logStreamName)] on [logGroups.get(logGroupName)]. *)
Definition registry_includes (logGroupName logStreamName : string)
    (g : JsMap (list string)) : bool :=
  match map_get logGroupName g with
  | Some streams => existsb (String.eqb logStreamName) streams
  | None => false
  end.

(** [flush()] whose promise is dropped: [getOrderedLogs] runs at once, the
    snapshot is handed to [_flush], which goes on in the background. *)
Definition flush_detached (w : Engine) : Engine :=
  let (entries, b') := getOrderedLogs (bufferedLogs w) in
  with_flushes (flushes w ++ [entries]) (with_bufferedLogs b' w).

(* ================================================================== *)
(** ** Configuration and the flush timer *)

(** [CloudWatchLogsClientConfig & { flushInterval: number }]; the field may
    be missing at run time ([config.flushInterval ?? 1000]). *)
Record ClientConfig := mkClientConfig {
  region : string;
  config_flushInterval : option Z
}.

(** A repeating timer of the runtime, as [setInterval] was asked for it. *)
Record Timer := mkTimer { timer_id : nat; timer_delay : Z }.

(** The object [flushInterval] with the runtime's timer table. *)
Record FlushInterval := mkFlushInterval {
  value : Z;                   (* #value *)
  interval : option nat;       (* #interval, the handle of the timer *)
  timers : list Timer;         (* the repeating timers now installed *)
  next_timer : nat             (* the next fresh handle *)
}.

Definition initial_FlushInterval : FlushInterval := mkFlushInterval 1000 None [] 0.

(** [setInterval(callback, delay)]: installs a repeating timer whatever the
    delay (Node runs a delay below 1 as 1 ms) and returns its handle. *)
Definition setInterval (delay : Z) (f : FlushInterval) : nat * FlushInterval :=
  (next_timer f,
   mkFlushInterval (value f) (interval f)
     (timers f ++ [mkTimer (next_timer f) delay]) (S (next_timer f))).

Definition clearInterval (h : nat) (f : FlushInterval) : FlushInterval :=
  mkFlushInterval (value f) (interval f)
    (filter (fun t => negb (Nat.eqb (timer_id t) h)) (timers f)) (next_timer f).

(** [set value(value)] (part_003:67-74, part_002:75-82). *)
Definition set_value (v : Z) (f : FlushInterval) : FlushInterval :=
  let f1 := match interval f with
            | Some h => clearInterval h f
            | None => f
            end in
  let (h, f2) := setInterval v f1 in
  mkFlushInterval v (Some h) (timers f2) (next_timer f2).

(** [#intervalCallback] (part_003:76-83, part_002:84-93): the first
    non-empty buffer triggers one un-awaited [flush()]. *)
Definition intervalCallback (w : Engine) : Engine :=
  if existsb (fun kv => negb (Nat.eqb (List.length (snd kv)) 0)) (bufferedLogs w)
  then flush_detached w else w.

(** The module-level variables [setup] works on. *)
Record Runtime := mkRuntime {
  client : option ClientConfig;     (* let client: CloudWatchLogsClient | undefined *)
  flushInterval : FlushInterval
}.

Definition initial_Runtime : Runtime := mkRuntime None initial_FlushInterval.

(** [setup] (part_003:86-98, part_002:96-108). *)
Definition setup (config : ClientConfig) (rt : Runtime) : Runtime :=
  match client rt with
  | Some _ => rt
  | None =>
      mkRuntime (Some config)
        (set_value (match config_flushInterval config with
                    | Some v => v
                    | None => 1000
                    end) (flushInterval rt))
  end.

(* ================================================================== *)
(** ** JavaScript numbers used as element counts *)

(** [ToIntegerOrInfinity] on a finite number: truncation towards zero. *)
Definition ToIntegerOrInfinity (q : Q) : Z := Z.quot (Qnum q) (Zpos (Qden q)).

(** [const partial = logs.splice(0, count)]: the removed elements and what
    is left in [logs]; the count is made an integer and clamped to the
    length. *)
Definition splice0 (count : Q) (logs : list Log) : list Log * list Log :=
  let n := Z.to_nat (ToIntegerOrInfinity count) in (firstn n logs, skipn n logs).

(* ================================================================== *)
(** ** The functional API of part_003 *)

Module Part003.

(** [reachedBufferLimits] of part_003:116-138: the sizes are the bare
    message byte lengths. *)
Definition reachedBufferLimits (bufferedLogs : Buffers)
    (logGroup logStream : string) (newLog : Log) : bool :=
  match map_get (key_of logGroup logStream) bufferedLogs with
  | None => false
  | Some logs =>
      if Z.of_nat (List.length logs) + 1 >=? CLOUDWTACH_MAX_BUFFER_LENGTH then true
      else
        let size :=
          fold_left (fun accumulator log =>
                       accumulator + Buffer.byteLength (message log)) logs 0 in
        let messageSize := Buffer.byteLength (message newLog) in
        size + messageSize >=? CLOUDWATCH_MAX_BUFFER_SIZE
  end.

(** [logEventExceedsSize] of part_003:140-142. *)
Definition logEventExceedsSize (log : Log) : bool :=
  Buffer.byteLength (message log) >=? CLOUDWATCH_MAX_EVENT_SIZE.


(** The registry update of part_003:214-219: the stream is added to the
    streams of its group, a group not yet in the registry gets its first
    stream. *)
Definition registry_add (logGroupName logStreamName : string)
    (g : JsMap (list string)) : JsMap (list string) :=
  match map_get logGroupName g with
  | None => map_set logGroupName [logStreamName] g
  | Some logGroup => map_set logGroupName (logGroup ++ [logStreamName]) g
  end.

Section WithRemote.
Variable remote : Remote.
(** The module variable [client], read by every remote operation. *)
Variable client : option ClientConfig.
(** [Date.now()], as read in a given state. *)
Variable Date_now : Engine -> Z.
(** [JSON.stringify] of the report [{ message, error: String(error) }]. *)
Variable JSON_stringify : string -> Thrown -> JsString.

(** [createLogGroup] of part_003:180-193 (the throttle only spaces the
    calls in time): the command is sent on every call. *)
Definition createLogGroup (logGroupName : string) : M unit :=
  match client with
  | None => throw (new_Error "CloudWatchLogs `client` is not initialized." None)
  | Some _ =>
      try_catch
        (send remote (CreateLogGroupCommand logGroupName) ;;; ret tt)
        (fun error =>
           if isResourceAlreadyExistsException error then ret tt
           else throw (new_Error "Create Log Group Failed" (Some error)))
  end.

(** [createLogStream] of part_003:198-228: the registry is written after a
    creation that succeeded, and only then. *)
Definition createLogStream (logGroupName logStreamName : string) : M unit :=
  match client with
  | None => throw (new_Error "CloudWatchLogs `client` is not initialized." None)
  | Some _ =>
      try_catch
        (createLogGroup logGroupName ;;;
         send remote (CreateLogStreamCommand logGroupName logStreamName) ;;;
         modify (fun w => with_logGroups
                            (registry_add logGroupName logStreamName (logGroups w)) w))
        (fun error =>
           if isResourceAlreadyExistsException error then ret tt
           else throw (new_Error "Create Log Stream Failed" (Some error)))
  end.

(** [putEventLogs] of part_003:230-258. *)
Definition putEventLogs (logGroupName logStreamName : string)
    (logEvents : list Log) : M unit :=
  match logEvents with
  | [] => ret tt
  | _ =>
      match client with
      | None => throw (new_Error "CloudWatchLogs client is not initialized." None)
      | Some _ =>
          try_catch
            ((fun w =>
                if registry_includes logGroupName logStreamName (logGroups w)
                then ret tt w
                else createLogStream logGroupName logStreamName w) ;;;
             send remote (PutLogEventsCommand logGroupName logStreamName logEvents) ;;;
             ret tt)
            (fun error => throw (new_Error "Put Log Events Failed" (Some error)))
      end
  end.

(** The loop of [_flush], part_003:274-276: the entries are delivered in
    turn; a delivery that throws ends the loop. *)
Fixpoint deliver_in_turn (entries : list Entry) : M unit :=
  match entries with
  | [] => ret tt
  | (groupName, streamName, logs) :: rest =>
      putEventLogs groupName streamName logs ;;;
      deliver_in_turn rest
  end.

(** [flush] of part_003:264-268 over a given [_flush]. *)
Definition flush_with (_flush : list Entry -> M unit) : M unit :=
  fun w =>
    let (entries, b') := getOrderedLogs (bufferedLogs w) in
    _flush entries (with_bufferedLogs b' w).

(** [addErrorLog] of part_003:164-175, [errorLog] already serialised. *)
Definition addErrorLog (flush : M unit) (groupName streamName : string)
    (errorLog : JsString) : M unit :=
  fun w =>
    flush (with_bufferedLogs
             (pushLog groupName streamName (mkLog (Date_now w) errorLog)
                      (bufferedLogs w)) w).

(** [_flush] of part_003:270-284: one [try] around the whole loop.  [fuel]
    bounds how deep the error reports may nest. *)
Fixpoint _flush (fuel : nat) (entries : list Entry) : M unit :=
  try_catch
    (deliver_in_turn entries)
    (fun error =>
       console_error error ;;;
       addErrorLog
         (match fuel with
          | O => fun w => (OutOfFuel, w)
          | S fuel' => flush_with (_flush fuel')
          end)
         "cloudwatch_logger" "errors"
         (JSON_stringify "flushing error" error)).

(** [flush] of part_003:264-268, awaited. *)
Definition flush (fuel : nat) : M unit := flush_with (_flush fuel).
End WithRemote.

End Part003.

(* ================================================================== *)
(** ** The functional API of part_002 *)

Module Part002.

(** [reachedBufferLimits] of part_002:126-152. *)
Definition reachedBufferLimits (bufferedLogs : Buffers)
    (logGroup logStream : string) (newLog : Log) : bool :=
  match map_get (key_of logGroup logStream) bufferedLogs with
  | None => false
  | Some logs =>
      if Z.of_nat (List.length logs) + 1 >=? CLOUDWTACH_MAX_BUFFER_LENGTH then true
      else
        let size :=
          fold_left (fun accumulator log =>
                       accumulator + Buffer.byteLength (message log)
                       + CLOUDWATCH_FIXED_EVENT_PREFIX) logs 0 in
        let messageSize :=
          Buffer.byteLength (message newLog) + CLOUDWATCH_FIXED_EVENT_PREFIX in
        size + messageSize >=? CLOUDWATCH_MAX_BUFFER_SIZE
  end.

(** [logEventExceedsSize] of part_002:154-156. *)
Definition logEventExceedsSize (log : Log) : bool :=
  Buffer.byteLength (message log) >=? CLOUDWATCH_MAX_EVENT_SIZE.

Section WithRemote.
Variable remote : Remote.
(** The module variable [client], read by every remote operation. *)
Variable client : option ClientConfig.

(** [createLogGroup] of part_002:195-221 (the [debug] calls print only
    under DUCK_LOGGER_DEBUG and are left out). *)
Definition createLogGroup (logGroupName : string) : M unit :=
  match client with
  | None => throw (new_Error "CloudWatchLogs `client` is not initialized." None)
  | Some _ =>
      fun w =>
        if map_has logGroupName (logGroups w) then ret tt w
        else
          try_catch
            (send remote (CreateLogGroupCommand logGroupName) ;;;
             modify (fun w => with_logGroups (map_set logGroupName [] (logGroups w)) w))
            (fun error =>
               if isResourceAlreadyExistsException error then
                 modify (fun w => with_logGroups (map_set logGroupName [] (logGroups w)) w)
               else throw (new_Error "Create Log Group Failed" (Some error)))
            w
  end.

(** [createLogStream] of part_002:226-260. *)
Definition createLogStream (logGroupName logStreamName : string) : M unit :=
  match client with
  | None => throw (new_Error "CloudWatchLogs `client` is not initialized." None)
  | Some _ =>
      try_catch
        (createLogGroup logGroupName ;;;
         fun w =>
           if registry_includes logGroupName logStreamName (logGroups w) then ret tt w
           else
             (send remote (CreateLogStreamCommand logGroupName logStreamName) ;;;
              modify (fun w => with_logGroups
                                 (registry_push logGroupName logStreamName (logGroups w)) w))
             w)
        (fun error =>
           if isResourceAlreadyExistsException error then
             modify (fun w => with_logGroups
                                (registry_push logGroupName logStreamName (logGroups w)) w)
           else throw (new_Error "Create Log Stream Failed" (Some error)))
  end.

(** [putEventLogs] of part_002:262-290 (the throttle only spaces the
    calls in time). *)
Definition putEventLogs (logGroupName logStreamName : string)
    (logEvents : list Log) : M unit :=
  match logEvents with
  | [] => ret tt
  | _ =>
      match client with
      | None => throw (new_Error "CloudWatchLogs client is not initialized." None)
      | Some _ =>
          try_catch
            (createLogStream logGroupName logStreamName ;;;
             send remote (PutLogEventsCommand logGroupName logStreamName logEvents) ;;;
             ret tt)
            (fun error => throw (new_Error "Put Log Events Failed" (Some error)))
      end
  end.

(** The loop [while (logs.length) { ... }] of part_002:334-337; [fuel]
    bounds the number of iterations. *)
Fixpoint retry_loop (fuel : nat) (half : Q) (groupName streamName : string)
    (logs : list Log) : M unit :=
  match logs with
  | [] => ret tt
  | _ :: _ =>
      match fuel with
      | O => fun w => (OutOfFuel, w)
      | S fuel' =>
          let (partial, rest) := splice0 half logs in
          putEventLogs groupName streamName partial ;;;
          retry_loop fuel' half groupName streamName rest
      end
  end.

(** The retry of [_flush], part_002:328-337, entered after the first
    delivery has failed and the failure has been reported. *)
Definition retry_split (fuel : nat) (groupName streamName : string)
    (logs : list Log) : M unit :=
  match logs with
  | [] => ret tt
  | _ :: _ =>
      let half := Z.of_nat (List.length logs) # 2 in
      retry_loop fuel half groupName streamName logs
  end.
End WithRemote.

(** [setImmediate(pushLog, logGroupName, logStreamName, log_)]. *)
Definition setImmediate_pushLog (g s : string) (log_ : Log) (w : Engine) : Engine :=
  with_immediates (immediates w ++ [(g, s, log_)]) w.

(** The runtime running the queued immediates, oldest first. *)
Definition run_immediates (w : Engine) : Engine :=
  with_immediates []
    (fold_left (fun w (i : string * string * Log) =>
                  let '(g, s, l) := i in
                  with_bufferedLogs (pushLog g s l (bufferedLogs w)) w)
               (immediates w) w).

(** [addLog] of part_002:357-383; [clipMessages] is the exported flag. *)
Definition addLog (clipMessages : bool) (logGroupName logStreamName : string)
    (log : Log) (w : Engine) : option Thrown * Engine :=
  let w1 := if reachedBufferLimits (bufferedLogs w) logGroupName logStreamName log
            then flush_detached w else w in
  if logEventExceedsSize log then
    if clipMessages then
      let log_ := mkLog (timestamp log) (clip_message (message log)) in
      (None, setImmediate_pushLog logGroupName logStreamName log_ w1)
    else (Some (new_Error "Log event exceeds size limit: 256Kb" None), w1)
  else (None, setImmediate_pushLog logGroupName logStreamName log w1).


Section Flush.
Variable remote : Remote.
Variable client : option ClientConfig.
(** [Date.now()], as read in a given state. *)
Variable Date_now : Engine -> Z.
(** [JSON.stringify] of the report object of [_flush]: its [message], the
    error it is about and, for the first report, the entry that failed
    ([groupName], [streamName], [logsCount], [logsRawTotalSize]). *)
Variable JSON_stringify : string -> Thrown -> option Entry -> JsString.

(** [flush] of part_002:293-301 over a given [_flush]: the buffers are
    drained at once and the snapshot is delivered. *)
Definition flush_with (_flush : list Entry -> M unit) : M unit :=
  fun w =>
    let (entries, b') := getOrderedLogs (bufferedLogs w) in
    _flush entries (with_bufferedLogs b' w).

(** [addErrorLog] of part_002:179-190, [errorLog] already serialised: the
    report is pushed as an event of its own and [flush] is awaited. *)
Definition addErrorLog (flush : M unit) (groupName streamName : string)
    (errorLog : JsString) : M unit :=
  fun w =>
    flush (with_bufferedLogs
             (pushLog groupName streamName (mkLog (Date_now w) errorLog)
                      (bufferedLogs w)) w).

(** [_flush] of part_002:303-350.  [fuel] bounds how deep the error
    reports may nest ([addErrorLog] flushes again, which may fail and
    report again) and the turns of the retry loop. *)
Fixpoint _flush (fuel : nat) (entries : list Entry) {struct fuel} : M unit :=
  let flush : M unit :=
    match fuel with
    | O => fun w => (OutOfFuel, w)
    | S fuel' => flush_with (_flush fuel')
    end in
  (fix each (entries : list Entry) : M unit :=
     match entries with
     | [] => ret tt
     | (groupName, streamName, logs) :: rest =>
         try_catch
           (try_catch
              (putEventLogs remote client groupName streamName logs)
              (fun error =>
                 console_error error ;;;
                 addErrorLog flush "cloudwatch_logger" "errors"
                   (JSON_stringify "flushing error (will retry)" error
                      (Some (groupName, streamName, logs))) ;;;
                 retry_split remote client fuel groupName streamName logs))
           (fun error =>
              console_error error ;;;
              addErrorLog flush "cloudwatch_logger" "errors"
                (JSON_stringify "flushing error" error None)) ;;;
         each rest
     end) entries.

(** [flush] of part_002:293-301, awaited. *)
Definition flush (fuel : nat) : M unit := flush_with (_flush fuel).
End Flush.

(** [class Logger] of part_002:389-443; [jsonReplacer] only shapes the
    JSON text and is left to the caller of [Logger_log]. *)
Record Logger := mkLogger { streamGroup : string; streamName : string }.

(** The constructor, part_002:395-408: the destination's buffer is set to
    a fresh empty array. *)
Definition new_Logger (streamGroup streamName : string) (w : Engine) : Logger * Engine :=
  (mkLogger streamGroup streamName,
   with_bufferedLogs (map_set (key_of streamGroup streamName) [] (bufferedLogs w)) w).

(** [Logger.log] of part_002:410-424, behind [debug], [info], [warn] and
    [error]; [now] is what [Date.now()] gave and [json] what
    [JSON.stringify(obj, this.jsonReplacer)] gave for the level and data. *)
Definition Logger_log (clipMessages : bool) (logger : Logger) (now : Z)
    (json : JsString) (w : Engine) : Engine :=
  let (result, w1) :=
    addLog clipMessages (streamGroup logger) (streamName logger) (mkLog now json) w in
  match result with
  | Some e => if instanceof_Error e
              then with_console (console_out w1 ++ [ConsoleError e]) w1
              else w1
  | None => w1
  end.

End Part002.

(* ================================================================== *)
(** ** The class [CloudWatchLogger] (src/pg/index.ts, second document) *)

Module CloudWatchLogger.

(** [Config["overSizedMessageAction"]]. *)
Inductive OverSizedMessageAction := ActClip | ActError | ActConsole.

(** [interface Config]; its [flushInterval] carries the comment
    "When set to 0 it will be disabled." (src/pg/index.ts:56-59). *)
Record Config := mkConfig {
  cfg_flushInterval : Z;
  cfg_overSizedMessageAction : OverSizedMessageAction
}.

(** [logEventExceedsSize] of src/pg/index.ts:99-102. *)
Definition logEventExceedsSize (log : Log) : bool :=
  Buffer.byteLength (message log) >? CLOUDWATCH_MAX_EVENT_SIZE.

(** [set flushInterval(value)] of src/pg/index.ts:126-136. *)
Definition set_flushInterval (v : Z) (f : FlushInterval) : FlushInterval :=
  let f1 := match interval f with
            | Some h => clearInterval h f
            | None => f
            end in
  let f2 := mkFlushInterval v (interval f1) (timers f1) (next_timer f1) in
  let (h, f3) := setInterval (value f2) f2 in
  mkFlushInterval (value f3) (Some h) (timers f3) (next_timer f3).

(** The scheduling part of the constructor (src/pg/index.ts:109-110,
    141-146): [_flushInterval = 0], no timer, then the setter. *)
Definition construct_flushInterval (config : Config) : FlushInterval :=
  set_flushInterval (cfg_flushInterval config) (mkFlushInterval 0 None [] 0).

(** [reachedBufferLimits] of src/pg/index.ts:162-217. *)
Definition reachedBufferLimits (bufferedLogs : Buffers)
    (logGroup logStream : string) (newLog : Log) : bool :=
  match map_get (key_of logGroup logStream) bufferedLogs with
  | None => false
  | Some logs =>
      if Z.of_nat (List.length logs) + 1 >=? CLOUDWTACH_MAX_BUFFER_LENGTH then true
      else
        let bufferSize :=
          fold_left (fun accumulator log =>
                       accumulator + Buffer.byteLength (message log)
                       + CLOUDWATCH_FIXED_EVENT_PREFIX) logs 0 in
        let messageSize :=
          Buffer.byteLength (message newLog) + CLOUDWATCH_FIXED_EVENT_PREFIX in
        let totalSize := bufferSize + messageSize in
        totalSize >=? CLOUDWATCH_MAX_BUFFER_SIZE
  end.

(** [record.message = Buffer.from(record.message).subarray(0, MAX).toString()]. *)
Definition clip_record (record : Log) : Log :=
  mkLog (timestamp record) (clip_message (message record)).

Section WithRemote.
Variable remote : Remote.

(** [logError] of src/pg/index.ts:350-372: the report is sent and never
    awaited, and its promise gets no [catch]; the [try] around the call
    only sees what [send] throws before it returns its promise. *)
Definition logError (report : string) (about : Thrown) : M unit :=
  send_detached remote (PutSelfDiagnostic report about).

(** [createLogGroup] of src/pg/index.ts:374-396. *)
Definition createLogGroup (logGroupName : string) : M unit :=
  fun w =>
    if map_has logGroupName (logGroups w) then ret tt w
    else
      try_catch
        (send remote (CreateLogGroupCommand logGroupName) ;;;
         modify (fun w => with_logGroups (map_set logGroupName [] (logGroups w)) w))
        (fun error =>
           if isResourceAlreadyExistsException error then
             modify (fun w => with_logGroups (map_set logGroupName [] (logGroups w)) w)
           else throw (new_Error "Create Log Group Failed" (Some error)))
        w.

(** [createLogStream] of src/pg/index.ts:398-428. *)
Definition createLogStream (logGroupName logStreamName : string) : M unit :=
  try_catch
    (createLogGroup logGroupName ;;;
     fun w =>
       if registry_includes logGroupName logStreamName (logGroups w) then ret tt w
       else
         (send remote (CreateLogStreamCommand logGroupName logStreamName) ;;;
          modify (fun w => with_logGroups
                             (registry_push logGroupName logStreamName (logGroups w)) w))
         w)
    (fun error =>
       if isResourceAlreadyExistsException error then
         modify (fun w => with_logGroups
                            (registry_push logGroupName logStreamName (logGroups w)) w)
       else throw (new_Error "Create Log Stream Failed" (Some error))).

(** [putEventLogs] of src/pg/index.ts:430-465. *)
Definition putEventLogs (logGroupName logStreamName : string)
    (logEvents : list Log) : M unit :=
  match logEvents with
  | [] => ret tt
  | _ :: _ =>
      try_catch
        (createLogStream logGroupName logStreamName ;;;
         httpStatusCode <-
           send remote (PutLogEventsCommand logGroupName logStreamName logEvents) ;;
         if negb (httpStatusCode =? 200) then
           send remote (PutLogEventsCommand logGroupName logStreamName logEvents) ;;;
           ret tt
         else ret tt)
        (fun error => throw (new_Error "Put Log Events Failed" (Some error)))
  end.

(** The loop [while (logs.length) { ... }] of src/pg/index.ts:276-288;
    [error] is the value the first delivery threw, [fuel] bounds the
    number of iterations. *)
Fixpoint retry_loop (fuel : nat) (half : Z) (error : Thrown)
    (groupName streamName : string) (logs : list Log) : M unit :=
  match logs with
  | [] => ret tt
  | _ :: _ =>
      match fuel with
      | O => fun w => (OutOfFuel, w)
      | S fuel' =>
          let (partial, rest) := splice0 (inject_Z half) logs in
          let partial' :=
            if instanceof error InvalidParameterException
            then List.map clip_record partial
            else partial in
          putEventLogs groupName streamName partial' ;;;
          retry_loop fuel' half error groupName streamName rest
      end
  end.

(** One turn of the [for] loop of [_flush] (src/pg/index.ts:250-300). *)
Definition flush_entry (fuel : nat) (entry : Entry) : M unit :=
  let '(groupName, streamName, logs) := entry in
  try_catch
    (try_catch
       (putEventLogs groupName streamName logs)
       (fun error =>
          console_error error ;;;
          logError "flushing error (will retry)" error ;;;
          match logs with
          | [] => ret tt
          | _ :: _ =>
              let half := Qceiling (Z.of_nat (List.length logs) # 2) in
              retry_loop fuel half error groupName streamName logs
          end))
    (fun error =>
       console_error error ;;;
       logError "flushing error" error).

(** [_flush] of src/pg/index.ts:247-301. *)
Fixpoint _flush (fuel : nat) (entries : list Entry) : M unit :=
  match entries with
  | [] => ret tt
  | entry :: rest => flush_entry fuel entry ;;; _flush fuel rest
  end.

(** [flush] of src/pg/index.ts:241-245, awaited. *)
Definition flush (fuel : nat) : M unit :=
  fun w =>
    let (entries, b') := getOrderedLogs (bufferedLogs w) in
    _flush fuel entries (with_bufferedLogs b' w).
End WithRemote.

(** [log] of src/pg/index.ts:306-348: the value returned ([undefined] is
    [None]) and the state it leaves. *)
Definition log (overSizedMessageAction : OverSizedMessageAction)
    (logGroupName logStreamName : string) (log : Log) (w : Engine)
    : option Thrown * Engine :=
  let w1 := if reachedBufferLimits (bufferedLogs w) logGroupName logStreamName log
            then flush_detached w else w in
  let push log_ :=
    with_bufferedLogs (pushLog logGroupName logStreamName log_ (bufferedLogs w1)) w1 in
  if logEventExceedsSize log then
    match overSizedMessageAction with
    | ActClip =>
        let log_ := mkLog (timestamp log) (clip_message (message log)) in
        (None, push log_)
    | ActError => (Some (new_Error "Log event exceeds size limit: 256Kb" None), w1)
    | ActConsole =>
        (None, with_console (console_out w1 ++ [ConsoleInfo (message log)]) w1)
    end
  else (None, push log).

End CloudWatchLogger.

(* ================================================================== *)
(** * Vocabulary of the statements *)

Definition ascii_text (s : JsString) : Prop := Forall (fun u => 0 <= u < 0x80) s.

Definition ascending (l : list Log) : Prop :=
  Sorted (fun a b => timestamp a <= timestamp b) l.

(** Events with the same timestamp keep the order they had in [l]. *)
Definition same_order_on_ties (l l' : list Log) : Prop :=
  forall t, filter (fun e => timestamp e =? t) l'
          = filter (fun e => timestamp e =? t) l.

(** What the drain makes of one buffer, and what it leaves in its place. *)
Definition drained (kv : string * list Log) : Entry :=
  (fst (split_key (fst kv)), snd (split_key (fst kv)), sort_by_timestamp (snd kv)).

Definition emptied (kv : string * list Log) : string * list Log := (fst kv, []).

(** C1 as stated: only non-empty buffers are returned. *)
Definition returns_only_non_empty (b : Buffers) : Prop :=
  forall e, In e (fst (getOrderedLogs b)) -> entry_logs e <> [].

(** How an entry of the drain relates to the buffer it was made from. *)
Definition drained_from (kv : string * list Log) (e : Entry) : Prop :=
  fst e = split_key (fst kv) /\
  ascending (entry_logs e) /\
  same_order_on_ties (snd kv) (entry_logs e) /\
  Permutation (snd kv) (entry_logs e).

(** The byte total of a buffer with the per-event overhead. *)
Definition size_with_overhead (logs : list Log) : Z :=
  fold_right (fun log acc => Buffer.byteLength (message log)
                             + CLOUDWATCH_FIXED_EVENT_PREFIX + acc) 0 logs.

(** The byte total of the bare messages. *)
Definition size_of_messages (logs : list Log) : Z :=
  fold_right (fun log acc => Buffer.byteLength (message log) + acc) 0 logs.

(** What the claim says of a destination with an existing buffer. *)
Definition limit_reached (logs : list Log) (newLog : Log) : Prop :=
  Z.of_nat (List.length logs) + 1 >= 10000 \/
  size_with_overhead logs + (Buffer.byteLength (message newLog) + 26) >= 2 ^ 20.

(** Handles are handed out in increasing order. *)
Definition coherent (f : FlushInterval) : Prop :=
  Forall (fun t => (timer_id t < next_timer f)%nat) (timers f).

(** C6 as stated: the error raised for a failed creation carries the
    name of the group, so the name can be read off it. *)
Definition raises_with_resource_name (remote : Remote) (config : ClientConfig) : Prop :=
  exists resource_of : Thrown -> string,
    forall name w e,
      fst (Part002.createLogGroup remote (Some config) name w) = Threw e ->
      resource_of e = name.

Definition empty_Engine : Engine := mkEngine [] [] [] [] [] [].

(** A sink that refuses everything for want of permission. *)
Definition access_denied : Remote :=
  fun _ _ => Rejected (mkThrown OtherServiceException "AccessDeniedException"
                                "not authorized" None).

(** The state [log] and [addLog] go on with once the limit check has had
    its way: the buffers drained into a background flush when the
    destination's buffer is full, untouched otherwise. *)
Definition after_limit_check (g s : string) (log : Log) (w : Engine) : Engine :=
  if CloudWatchLogger.reachedBufferLimits (bufferedLogs w) g s log
  then flush_detached w else w.

(** 262117 times "a", then "e" with an acute accent. *)
Definition split_message : JsString := repeat 97 (Z.to_nat 262117) ++ [233].

(** [w'] is [w] after the commands [d] were sent; buffers, console and
    background work are as they were (the registry may have grown). *)
Definition sent_more (w w' : Engine) (d : list Command) : Prop :=
  bufferedLogs w' = bufferedLogs w /\ console_out w' = console_out w /\
  flushes w' = flushes w /\ immediates w' = immediates w /\
  sent w' = sent w ++ d.

(** The commands one delivery of [logEvents] to a destination may send. *)
Definition delivery_command (g s : string) (logEvents : list Log) (c : Command) : Prop :=
  c = CreateLogGroupCommand g \/ c = CreateLogStreamCommand g s \/
  c = PutLogEventsCommand g s logEvents.

(** A delivery ends normally or with the wrapping error. *)
Definition delivery_outcome (r : Outcome unit) : Prop :=
  r = Returned tt \/ exists cause, r = Threw (new_Error "Put Log Events Failed" (Some cause)).

(** [m] only sends commands that satisfy [P], leaves buffers, console and
    background work alone, and comes to an end. *)
Definition Sends {A} (P : Command -> Prop) (m : M A) : Prop :=
  forall w, exists d,
    sent_more w (snd (m w)) d /\ Forall P d /\ fst (m w) <> OutOfFuel.

(** Every delivery attempt fails: the sink rejects every put-batch. *)
Definition every_delivery_fails (remote : Remote) : Prop :=
  forall history g s logEvents,
    exists e, remote history (PutLogEventsCommand g s logEvents) = Rejected e.

(** A sink that creates groups and streams and rejects every batch. *)
Definition rejecting_batches : Remote :=
  fun _ c =>
    match c with
    | PutLogEventsCommand _ _ _ =>
        Rejected (mkThrown OtherServiceException "ServiceUnavailableException"
                           "unavailable" None)
    | _ => Resolved 200
    end.

Definition four_events : list Log :=
  [mkLog 1 [97]; mkLog 2 [98]; mkLog 3 [99]; mkLog 4 [100]].

(** Halving down to single-event batches: every event of a batch that
    cannot be delivered ends up in a delivery attempt of its own. *)
Definition halves_down_to_single_events (remote : Remote) (fuel : nat)
    (g s : string) (logs : list Log) : Prop :=
  forall e, In e logs ->
    In (PutLogEventsCommand g s [e])
       (sent (snd (CloudWatchLogger.flush_entry remote fuel (g, s, logs) empty_Engine))).

(** [m] sends only commands that satisfy [P]; it need not come to an end. *)
Definition Emits {A} (P : Command -> Prop) (m : M A) : Prop :=
  forall w, exists d, sent (snd (m w)) = sent w ++ d /\ Forall P d.

(** A command that carries a batch carries events of [logs], as they are. *)
Definition carries_events_of (logs : list Log) (c : Command) : Prop :=
  forall g s logEvents, c = PutLogEventsCommand g s logEvents -> incl logEvents logs.

Definition is_batch (c : Command) : bool :=
  match c with PutLogEventsCommand _ _ _ => true | _ => false end.

(** A sink that rejects the first batch it is sent as an invalid parameter
    and accepts everything else. *)
Definition invalid_parameter_once : Remote :=
  fun history c =>
    match c with
    | PutLogEventsCommand _ _ _ =>
        if existsb is_batch history then Resolved 200
        else Rejected (mkThrown InvalidParameterException "InvalidParameterException"
                                "Log event too large" None)
    | _ => Resolved 200
    end.

(** A sink that accepts everything. *)
Definition accepting : Remote := fun _ _ => Resolved 200.

(** The events buffered for a destination, none when it has no buffer. *)
Definition buffer_of (b : Buffers) (g s : string) : list Log :=
  match map_get (key_of g s) b with
  | Some logs => logs
  | None => []
  end.

(** A name that does not hold the separator. *)
Definition separator_free (name : string) : Prop := includes SEP name = false.

(** A batch the sink takes: fewer than 10000 events, less than 2^20 bytes
    with the per-event overhead. *)
Definition within_batch_limits (logs : list Log) : Prop :=
  Z.of_nat (List.length logs) < CLOUDWTACH_MAX_BUFFER_LENGTH /\
  size_with_overhead logs < CLOUDWATCH_MAX_BUFFER_SIZE.

(** The flush interval after the values [vs] were assigned in turn. *)
Definition assign_all (vs : list Z) (f : FlushInterval) : FlushInterval :=
  fold_left (fun f v => set_value v f) vs f.

(** [m] leaves the buffers, the background flushes and the queued pushes
    as they are. *)
Definition Keeps {A} (m : M A) : Prop :=
  forall w, bufferedLogs (snd (m w)) = bufferedLogs w /\
            flushes (snd (m w)) = flushes w /\
            immediates (snd (m w)) = immediates w.

(** Every buffer of the map is empty. *)
Definition all_empty (b : Buffers) : Prop := forall k v, In (k, v) b -> v = [].

(** A sink that accepts every command with status 200. *)
Definition accepts_everything (remote : Remote) : Prop :=
  forall history c, remote history c = Resolved 200.

(** The batches among the commands sent. *)
Definition batches (cs : list Command) : list Command := filter is_batch cs.

(** The batch that delivers an entry. *)
Definition batch_of_entry (e : Entry) : Command :=
  PutLogEventsCommand (fst (fst e)) (snd (fst e)) (snd e).

(** The entries that carry events. *)
Definition with_events (es : list Entry) : list Entry :=
  filter (fun e => negb (Nat.eqb (List.length (snd e)) 0)) es.

(** Some entry carries events. *)
Definition some_events (entries : list Entry) : Prop :=
  exists g s logs, In (g, s, logs) entries /\ logs <> [].

(** A sink that creates every group and stream it is asked for. *)
Definition accepts_creations (remote : Remote) : Prop :=
  forall history c, is_batch c = false -> remote history c = Resolved 200.

(** A sink that fails once: it creates what it is asked for, rejects the
    first batch it is sent with [e], and accepts every batch after that. *)
Definition fails_first_batch_only (e : Thrown) (remote : Remote) : Prop :=
  accepts_creations remote /\
  (forall history c, is_batch c = true -> batches history = [] ->
                     remote history c = Rejected e) /\
  (forall history c, batches history <> [] -> remote history c = Resolved 200).

Definition fails_once (e : Thrown) : Remote :=
  fun history c =>
    if is_batch c
    then if existsb is_batch history then Resolved 200 else Rejected e
    else Resolved 200.

(** A sink that answers every batch with the status [code]. *)
Definition batch_status (code : Z) : Remote :=
  fun _ c => if is_batch c then Resolved code else Resolved 200.

(** The parts of a batch that carry events. *)
Definition non_empty_parts (parts : list (list Log)) : list (list Log) :=
  filter (fun p => negb (Nat.eqb (List.length p) 0)) parts.


(** A sink that says "already exists" to every creation and accepts the
    batches. *)
Definition already_provisioned : Remote :=
  fun _ c =>
    match c with
    | PutLogEventsCommand _ _ _ => Resolved 200
    | _ => Rejected (mkThrown ResourceAlreadyExistsException
                              "ResourceAlreadyExistsException" "exists" None)
    end.

(** A sink where every group and stream exists already: it answers every
    creation with an already-exists error and accepts every batch. *)
Definition answers_already_exists (remote : Remote) : Prop :=
  forall history c,
    if is_batch c then remote history c = Resolved 200
    else exists e, remote history c = Rejected e /\
                   isResourceAlreadyExistsException e = true.

(** What one delivery to an existing stream costs in part_003. *)
Definition creations_and_batch (e : Entry) : list Command :=
  let '(g, s, logs) := e in
  [CreateLogGroupCommand g; CreateLogStreamCommand g s; PutLogEventsCommand g s logs].

(** A sink that rejects the batches for one destination with [e] and
    accepts everything else. *)
Definition refusing (g s : string) (e : Thrown) : Remote :=
  fun _ c =>
    match c with
    | PutLogEventsCommand g' s' _ =>
        if (String.eqb g g' && String.eqb s s')%bool then Rejected e else Resolved 200
    | _ => Resolved 200
    end.

(** Events logged with [addLog] one after the other before the queued
    pushes run. *)
Definition addLog_all (clipMessages : bool) (g s : string) (logs : list Log)
    (w : Engine) : Engine :=
  fold_left (fun w log => snd (Part002.addLog clipMessages g s log w)) logs w.

(** A sink that accepts the error reports. *)
Definition accepts_reports (remote : Remote) : Prop :=
  forall history report about, exists code,
    remote history (PutSelfDiagnostic report about) = Resolved code.

(** [m] prints [console.error] lines and nothing else: no promise
    rejection is left unhandled. *)
Definition Prints_errors_only {A} (m : M A) : Prop :=
  forall w, exists errors,
    console_out (snd (m w)) = console_out w ++ List.map ConsoleError errors.

(** The entry was attempted: a command of its delivery is among [d]. *)
Definition attempted (d : list Command) (e : Entry) : Prop :=
  exists c, In c d /\ delivery_command (fst (fst e)) (snd (fst e)) (snd e) c.

(** A sink that rejects the error reports. *)
Definition rejects_reports (remote : Remote) : Prop :=
  forall history report about, exists e,
    remote history (PutSelfDiagnostic report about) = Rejected e.

(** [m] only adds to what was printed. *)
Definition Prints_more {A} (m : M A) : Prop :=
  forall w, exists o, console_out (snd (m w)) = console_out w ++ o.

(* ================================================================== *)
(** * Properties *)

(** ** Byte lengths of ASCII text *)

Lemma from_ascii (s : JsString) : ascii_text s -> Buffer.from s = s.
Proof.
  unfold Buffer.from.
  induction 1 as [|u s Hu _ IH]; [reflexivity|].
  cbn [Buffer.code_points].
  assert (Hh : Buffer.is_high_surrogate u = false)
    by (unfold Buffer.is_high_surrogate; lia).
  assert (Hl : Buffer.is_low_surrogate u = false)
    by (unfold Buffer.is_low_surrogate; lia).
  rewrite Hh, Hl. cbn [flat_map]. rewrite IH.
  unfold Buffer.utf8_of_code_point.
  destruct (Z.ltb_spec u 0x80); [reflexivity | lia].
Qed.

Lemma byteLength_ascii (s : JsString) :
  ascii_text s -> Buffer.byteLength s = Z.of_nat (List.length s).
Proof. intros H. unfold Buffer.byteLength. now rewrite from_ascii. Qed.

Lemma ascii_repeat (u : Z) (n : nat) : 0 <= u < 0x80 -> ascii_text (repeat u n).
Proof. intros H. induction n; constructor; assumption. Qed.

Lemma byteLength_repeat (u : Z) (n : nat) :
  0 <= u < 0x80 -> Buffer.byteLength (repeat u n) = Z.of_nat n.
Proof.
  intros H. rewrite byteLength_ascii by now apply ascii_repeat.
  now rewrite repeat_length.
Qed.

Lemma byteLength_nonneg (s : JsString) : 0 <= Buffer.byteLength s.
Proof. unfold Buffer.byteLength. lia. Qed.

(** ** The stable ascending order *)

Lemma insert_by_timestamp_perm (x : Log) (l : list Log) :
  Permutation (x :: l) (insert_by_timestamp x l).
Proof.
  induction l as [|y l IH]; cbn; [reflexivity|].
  destruct (timestamp x <=? timestamp y); [reflexivity|].
  rewrite perm_swap. now constructor.
Qed.

Lemma sort_by_timestamp_perm (l : list Log) :
  Permutation l (sort_by_timestamp l).
Proof.
  induction l as [|x l IH]; cbn; [constructor|].
  rewrite <- insert_by_timestamp_perm. now constructor.
Qed.

Lemma insert_by_timestamp_ascending (x : Log) (l : list Log) :
  ascending l -> ascending (insert_by_timestamp x l).
Proof.
  unfold ascending. induction 1 as [|y l Hs IH Hhd]; cbn.
  - repeat constructor.
  - destruct (Z.leb_spec (timestamp x) (timestamp y)) as [Hle|Hgt].
    + constructor; [now constructor | now constructor].
    + constructor; [exact IH|].
      destruct l as [|z l]; cbn.
      * constructor. lia.
      * destruct (timestamp x <=? timestamp z); constructor; try lia.
        now inversion Hhd.
Qed.

Lemma sort_by_timestamp_ascending (l : list Log) :
  ascending (sort_by_timestamp l).
Proof.
  induction l as [|x l IH]; cbn; [constructor|].
  now apply insert_by_timestamp_ascending.
Qed.

Lemma insert_by_timestamp_ties (x : Log) (l : list Log) (t : Z) :
  filter (fun e => timestamp e =? t) (insert_by_timestamp x l)
  = filter (fun e => timestamp e =? t) (x :: l).
Proof.
  induction l as [|y l IH]; [reflexivity|].
  cbn [insert_by_timestamp].
  destruct (Z.leb_spec (timestamp x) (timestamp y)) as [Hle|Hgt]; [reflexivity|].
  cbn [filter] in *. rewrite IH.
  destruct (Z.eqb_spec (timestamp y) t), (Z.eqb_spec (timestamp x) t);
    try reflexivity; lia.
Qed.

Lemma sort_by_timestamp_ties (l : list Log) :
  same_order_on_ties l (sort_by_timestamp l).
Proof.
  intros t. induction l as [|x l IH]; [reflexivity|].
  cbn [sort_by_timestamp]. rewrite insert_by_timestamp_ties.
  cbn [filter]. now rewrite IH.
Qed.

Lemma sort_by_timestamp_nil_iff (l : list Log) :
  sort_by_timestamp l = [] <-> l = [].
Proof.
  split; [|now intros ->].
  intros H. apply Permutation_nil. rewrite <- H. symmetry.
  apply sort_by_timestamp_perm.
Qed.
(** ** Keys *)

Lemma split_from_skip (sep x s : string) :
  split_from sep (String.length x) (String.append x s) = split_from sep 0 s.
Proof. induction x as [|c x IH]; [reflexivity | exact IH]. Qed.

Lemma split_from_no_separator (s : string) :
  includes SEP s = false -> split_from SEP 0 s = (s, []).
Proof.
  induction s as [|c s IH]; [reflexivity|].
  intros H. cbn [includes] in H. apply orb_false_elim in H as [Hp Hi].
  cbn [split_from]. rewrite Hp, (IH Hi). reflexivity.
Qed.

Lemma prefix_SEP_straddle (c : ascii) (g s : string) :
  String.prefix SEP (String c g) = false ->
  String.prefix SEP (String c (String.append g (String.append SEP s))) = false.
Proof.
  unfold SEP.
  destruct g as [|a [|b [|d g]]]; cbn -[ascii_dec];
    repeat (match goal with
            | |- context [ascii_dec ?x ?y] => destruct (ascii_dec x y); subst
            end; try reflexivity; try discriminate; try congruence).
  intros H. destruct g; discriminate H.
Qed.

Lemma split_from_key (g s : string) :
  includes SEP g = false -> includes SEP s = false ->
  split_from SEP 0 (key_of g s) = (g, [s]).
Proof.
  intros Hg Hs. unfold key_of.
  induction g as [|c g IH].
  - pose proof (split_from_no_separator s Hs) as E. unfold SEP in *.
    cbn. replace (String.prefix "" s) with true by (now destruct s).
    now rewrite E.
  - cbn [includes] in Hg. apply orb_false_elim in Hg as [Hp Hi].
    cbn [String.append split_from].
    rewrite (prefix_SEP_straddle c g s Hp), (IH Hi). reflexivity.
Qed.

(** A key built from names free of the separator gives the names back. *)
Lemma split_key_key_of (g s : string) :
  includes SEP g = false -> includes SEP s = false ->
  split_key (key_of g s) = (g, s).
Proof.
  intros Hg Hs. unfold split_key, split.
  now rewrite (split_from_key g s Hg Hs).
Qed.

(** ** The buffer map *)

Lemma map_set_head {V} (k : string) (v v0 : V) (m : JsMap V) :
  map_set k v ((k, v0) :: m) = (k, v) :: m.
Proof. cbn. now rewrite String.eqb_refl. Qed.

Lemma map_set_app_fresh {V} (k : string) (v : V) (m1 m2 : JsMap V) :
  ~ In k (keys m1) -> map_set k v (m1 ++ m2) = m1 ++ map_set k v m2.
Proof.
  induction m1 as [|[k1 v1] m1 IH]; cbn; intros Hk; [reflexivity|].
  destruct (String.eqb_spec k k1) as [->|_]; [tauto|].
  rewrite IH; tauto.
Qed.

Lemma getOrderedLogs_fold (l pre : Buffers) (all : list Entry) :
  well_formed (pre ++ l) ->
  fold_left
    (fun (acc : list Entry * Buffers) (kv : string * list Log) =>
       let (all, cur) := acc in
       let (key, value) := kv in
       let (streamGroup, streamName) := split_key key in
       (all ++ [(streamGroup, streamName, sort_by_timestamp value)],
        map_set key [] cur))
    l (all, pre ++ l)
  = (all ++ List.map drained l, pre ++ List.map emptied l).
Proof.
  revert pre all. induction l as [|[k v] l IH]; intros pre all Hwf.
  - cbn. now rewrite !app_nil_r.
  - cbn [fold_left]. unfold well_formed, keys in Hwf.
    rewrite map_app in Hwf. cbn [List.map fst] in Hwf.
    pose proof (NoDup_remove_2 _ _ _ Hwf) as Hfresh.
    rewrite map_set_app_fresh
      by (unfold keys; intros Hin; apply Hfresh, in_or_app; now left).
    rewrite map_set_head.
    destruct (split_key k) as [g s] eqn:Ek.
    change (pre ++ (k, []) :: l) with (pre ++ [(k, @nil Log)] ++ l).
    rewrite app_assoc, IH.
    + cbn [List.map]. unfold drained at 2, emptied at 2. cbn [fst snd]. rewrite Ek.
      cbn [fst snd]. now rewrite <- !app_assoc.
    + unfold well_formed, keys. rewrite !map_app. cbn [List.map fst].
      now rewrite <- app_assoc.
Qed.

Lemma getOrderedLogs_eq (b : Buffers) :
  well_formed b ->
  getOrderedLogs b = (List.map drained b, List.map emptied b).
Proof.
  intros Hwf. unfold getOrderedLogs.
  exact (getOrderedLogs_fold b [] [] Hwf).
Qed.

Lemma well_formed_emptied (b : Buffers) :
  well_formed b -> well_formed (List.map emptied b).
Proof.
  unfold well_formed, keys. rewrite map_map. cbn. now intros H.
Qed.

(** ** C1: the drain *)

Lemma drained_drained_from (kv : string * list Log) : drained_from kv (drained kv).
Proof.
  unfold drained_from, drained, entry_logs. cbn [fst snd].
  split; [now destruct (split_key (fst kv))|].
  split; [apply sort_by_timestamp_ascending|].
  split; [apply sort_by_timestamp_ties | apply sort_by_timestamp_perm].
Qed.

(** C1 (as amended): on every buffer map, [getOrderedLogs] returns one
    entry per buffer, in map order and empty buffers included; each entry
    carries the names split from the key (the group and stream themselves
    when they are free of the separator) and the buffer's events in
    ascending timestamp order, ties in insertion order, none lost and none
    added; in the same step every buffer is replaced by an empty one, so a
    drain that follows at once returns no event at all. *)
Theorem getOrderedLogs_drains (b : Buffers) :
  well_formed b ->
  let all := fst (getOrderedLogs b) in
  let b' := snd (getOrderedLogs b) in
  Forall2 drained_from b all /\
  (forall g s v, In (key_of g s, v) b ->
                 includes SEP g = false -> includes SEP s = false ->
                 In (g, s, sort_by_timestamp v) all) /\
  keys b' = keys b /\
  (forall k v, In (k, v) b' -> v = []) /\
  (forall e, In e (fst (getOrderedLogs b')) -> entry_logs e = []).
Proof.
  intros Hwf. cbv zeta. rewrite (getOrderedLogs_eq b Hwf). cbn [fst snd].
  rewrite (getOrderedLogs_eq _ (well_formed_emptied b Hwf)). cbn [fst].
  repeat split.
  - clear Hwf. induction b as [|kv b IH]; constructor;
      [apply drained_drained_from | exact IH].
  - intros g s v Hin Hg Hs.
    apply in_map_iff. exists (key_of g s, v). split; [|exact Hin].
    unfold drained. cbn [fst snd]. now rewrite (split_key_key_of g s Hg Hs).
  - unfold keys. rewrite map_map. reflexivity.
  - intros k v Hin. apply in_map_iff in Hin as [kv [E _]].
    unfold emptied in E. now inversion E.
  - intros e Hin. apply in_map_iff in Hin as [kv [<- Hin]].
    apply in_map_iff in Hin as [kv0 [<- _]]. reflexivity.
Qed.

Lemma getOrderedLogs_drains_witness :
  let b := [(key_of "g" "s", [mkLog 300 [97]; mkLog 100 [98]; mkLog 200 [99]]);
            (key_of "g" "idle", [])] in
  well_formed b /\
  fst (getOrderedLogs b)
  = [("g"%string, "s"%string, [mkLog 100 [98]; mkLog 200 [99]; mkLog 300 [97]]);
     ("g"%string, "idle"%string, [])] /\
  Forall2 drained_from b (fst (getOrderedLogs b)).
Proof.
  cbv zeta.
  assert (Hwf : well_formed
                  [(key_of "g" "s", [mkLog 300 [97]; mkLog 100 [98]; mkLog 200 [99]]);
                   (key_of "g" "idle", [])]).
  { unfold well_formed. cbn. repeat constructor; cbn; intuition discriminate. }
  split; [exact Hwf|]. split; [reflexivity|].
  exact (proj1 (getOrderedLogs_drains _ Hwf)).
Defined.

(** C1 as stated fails: a stream with nothing buffered (the [Logger]
    constructor registers an empty buffer for its stream, and every drain
    leaves all buffers empty) is returned too, with an empty events list. *)
Lemma getOrderedLogs_returns_empty_buffer :
  fst (getOrderedLogs [(key_of "g" "s", [])]) = [("g"%string, "s"%string, [])] /\
  ~ returns_only_non_empty [(key_of "g" "s", [])].
Proof.
  split; [reflexivity|].
  intros H. apply (H ("g"%string, "s"%string, [])); [now left | reflexivity].
Qed.

(** ** C7: the single-event size predicate *)

Lemma MAX_EVENT_SIZE_value : CLOUDWATCH_MAX_EVENT_SIZE = 262118.
Proof. reflexivity. Qed.

Lemma Part002_logEventExceedsSize_iff (log : Log) :
  Part002.logEventExceedsSize log = true
  <-> Buffer.byteLength (message log) >= CLOUDWATCH_MAX_EVENT_SIZE.
Proof. unfold Part002.logEventExceedsSize. lia. Qed.

(** The class has the strict comparison. *)
Lemma CloudWatchLogger_logEventExceedsSize_iff (log : Log) :
  CloudWatchLogger.logEventExceedsSize log = true
  <-> Buffer.byteLength (message log) > 262118.
Proof.
  unfold CloudWatchLogger.logEventExceedsSize. rewrite MAX_EVENT_SIZE_value. lia.
Qed.

(** C7 (code at the failing input): for an event whose message is exactly
    262118 bytes long, which does not exceed the maximum single-event size
    of 2^18 - 26 = 262118 bytes, [logEventExceedsSize] of part_002:154-156
    answers true. *)
Theorem logEventExceedsSize_at_the_limit :
  let log := mkLog 0 (repeat 97 (Z.to_nat 262118)) in
  Buffer.byteLength (message log) = 262118 /\
  ~ Buffer.byteLength (message log) > 2 ^ 18 - 26 /\
  Part002.logEventExceedsSize log = true /\
  CloudWatchLogger.logEventExceedsSize log = false.
Proof.
  cbv zeta. cbn [message].
  assert (E : Buffer.byteLength (repeat 97 (Z.to_nat 262118)) = 262118).
  { rewrite byteLength_repeat by lia. lia. }
  unfold Part002.logEventExceedsSize, CloudWatchLogger.logEventExceedsSize.
  cbn [message]. rewrite E, MAX_EVENT_SIZE_value. repeat split; lia.
Qed.

(** ** C5: the buffer-limit predicate *)

Lemma fold_left_size_with_overhead (logs : list Log) (a : Z) :
  fold_left (fun accumulator log =>
               accumulator + Buffer.byteLength (message log)
               + CLOUDWATCH_FIXED_EVENT_PREFIX) logs a
  = a + size_with_overhead logs.
Proof.
  revert a. unfold size_with_overhead, size_of_messages.
  induction logs as [|l logs IH]; intros a; cbn [fold_left fold_right]; [lia|].
  rewrite IH. lia.
Qed.

Lemma fold_left_size_of_messages (logs : list Log) (a : Z) :
  fold_left (fun accumulator log =>
               accumulator + Buffer.byteLength (message log)) logs a
  = a + size_of_messages logs.
Proof.
  revert a. unfold size_with_overhead, size_of_messages.
  induction logs as [|l logs IH]; intros a; cbn [fold_left fold_right]; [lia|].
  rewrite IH. lia.
Qed.

(** The later generations count the overhead and meet the claim. *)
Lemma Part002_reachedBufferLimits_iff (b : Buffers) (g s : string)
    (logs : list Log) (newLog : Log) :
  map_get (key_of g s) b = Some logs ->
  (Part002.reachedBufferLimits b g s newLog = true <-> limit_reached logs newLog).
Proof.
  intros E. unfold Part002.reachedBufferLimits, limit_reached. rewrite E.
  rewrite fold_left_size_with_overhead.
  unfold CLOUDWTACH_MAX_BUFFER_LENGTH, CLOUDWATCH_MAX_BUFFER_SIZE,
    CLOUDWATCH_FIXED_EVENT_PREFIX.
  destruct (Z.geb_spec (Z.of_nat (List.length logs) + 1) 10000); [intuition lia|].
  rewrite Z.geb_le. lia.
Qed.

Lemma CloudWatchLogger_reachedBufferLimits_eq (b : Buffers) (g s : string) (newLog : Log) :
  CloudWatchLogger.reachedBufferLimits b g s newLog
  = Part002.reachedBufferLimits b g s newLog.
Proof. reflexivity. Qed.

Lemma Part003_reachedBufferLimits_iff (b : Buffers) (g s : string)
    (logs : list Log) (newLog : Log) :
  map_get (key_of g s) b = Some logs ->
  (Part003.reachedBufferLimits b g s newLog = true <->
   Z.of_nat (List.length logs) + 1 >= 10000 \/
   size_of_messages logs + Buffer.byteLength (message newLog) >= 2 ^ 20).
Proof.
  intros E. unfold Part003.reachedBufferLimits. rewrite E.
  rewrite fold_left_size_of_messages.
  unfold CLOUDWTACH_MAX_BUFFER_LENGTH, CLOUDWATCH_MAX_BUFFER_SIZE.
  destruct (Z.geb_spec (Z.of_nat (List.length logs) + 1) 10000); [intuition lia|].
  rewrite Z.geb_le. lia.
Qed.

(** C5 (code at the failing input): a buffer of four events of 262117 bytes
    and a candidate of 100 bytes total 4 * 262143 + 126 = 1048698 bytes with
    the overhead, which reaches 2^20 = 1048576; [reachedBufferLimits] of
    part_003:116-138 adds the bare message lengths, 1048568, and answers
    false.  The version of part_002 answers true. *)
Theorem reachedBufferLimits_ignores_overhead :
  let big := mkLog 0 (repeat 97 (Z.to_nat 262117)) in
  let logs := [big; big; big; big] in
  let b := [(key_of "g" "s", logs)] in
  let newLog := mkLog 1 (repeat 98 100) in
  limit_reached logs newLog /\
  Part003.reachedBufferLimits b "g" "s" newLog = false /\
  Part002.reachedBufferLimits b "g" "s" newLog = true.
Proof.
  cbv zeta.
  assert (E : Buffer.byteLength (repeat 97 (Z.to_nat 262117)) = 262117).
  { rewrite byteLength_repeat by lia. lia. }
  assert (E' : Buffer.byteLength (repeat 98 100) = 100).
  { now rewrite byteLength_repeat by lia. }
  split; [|split].
  - right. cbn [size_with_overhead fold_right message]. rewrite E, E'.
    unfold CLOUDWATCH_FIXED_EVENT_PREFIX. lia.
  - unfold Part003.reachedBufferLimits.
    cbn [map_get]. rewrite String.eqb_refl.
    cbn [List.length fold_left message]. rewrite E, E'. reflexivity.
  - unfold Part002.reachedBufferLimits.
    cbn [map_get]. rewrite String.eqb_refl.
    cbn [List.length fold_left message]. rewrite E, E'. reflexivity.
Qed.

(** ** C8 and C9: configuration and the flush timer *)

Lemma set_value_timers (v : Z) (f : FlushInterval) :
  timers (set_value v f)
  = match interval f with
    | Some h => filter (fun t => negb (Nat.eqb (timer_id t) h)) (timers f)
    | None => timers f
    end ++ [mkTimer (next_timer f) v]
  /\ interval (set_value v f) = Some (next_timer f)
  /\ value (set_value v f) = v
  /\ next_timer (set_value v f) = S (next_timer f).
Proof. unfold set_value. destruct (interval f); cbn; auto. Qed.

(** The class setter installs the same timers. *)
Lemma set_flushInterval_eq (v : Z) (f : FlushInterval) :
  CloudWatchLogger.set_flushInterval v f = set_value v f.
Proof.
  unfold CloudWatchLogger.set_flushInterval, set_value.
  destruct (interval f); reflexivity.
Qed.

Lemma set_value_coherent (v : Z) (f : FlushInterval) :
  coherent f -> coherent (set_value v f).
Proof.
  unfold coherent. intros H.
  destruct (set_value_timers v f) as (Et & _ & _ & En). rewrite Et, En.
  apply Forall_app. split.
  - assert (H' : Forall (fun t => (timer_id t < S (next_timer f))%nat) (timers f)).
    { eapply Forall_impl; [|exact H]. cbn. intros; lia. }
    destruct (interval f); [|exact H'].
    apply Forall_forall. intros t Ht. apply filter_In in Ht as [Ht _].
    exact (proj1 (Forall_forall _ _) H' t Ht).
  - repeat constructor.
Qed.

(** Every assignment cancels the timer of the previous one and installs a
    timer with the delay asked for. *)
Lemma set_value_replaces_timer (v : Z) (f : FlushInterval) :
  In (mkTimer (next_timer f) v) (timers (set_value v f)) /\
  (forall h, interval f = Some h ->
     forall t, In t (timers (set_value v f)) -> timer_id t <> h \/ t = mkTimer (next_timer f) v) /\
  (forall h d, interval f = Some h -> (h < next_timer f)%nat ->
     ~ In (mkTimer h d) (timers (set_value v f))).
Proof.
  destruct (set_value_timers v f) as (Et & _ & _ & _). rewrite Et.
  split; [apply in_or_app; right; now left|]. split.
  - intros h Eh t Ht. rewrite Eh in Ht. apply in_app_or in Ht as [Ht|[<-|[]]].
    + left. apply filter_In in Ht as [_ Hne].
      apply negb_true_iff, Nat.eqb_neq in Hne. exact Hne.
    + now right.
  - intros h d Eh Hlt Hin. rewrite Eh in Hin.
    apply in_app_or in Hin as [Hin|[E|[]]].
    + apply filter_In in Hin as [_ Hne]. cbn in Hne.
      now rewrite Nat.eqb_refl in Hne.
    + inversion E. lia.
Qed.

(** C9 (code at the failing input): assigning 0 installs a repeating timer
    like any other value; after [setup] with [flushInterval: 0] the timer
    table holds one timer, of delay 0, and when it fires with a non-empty
    buffer the buffers are flushed. *)
Theorem flush_interval_zero_installs_timer :
  (forall f, In (mkTimer (next_timer f) 0) (timers (set_value 0 f))) /\
  timers (flushInterval (setup (mkClientConfig "me-south-1" (Some 0)) initial_Runtime))
  = [mkTimer 0 0] /\
  timers (CloudWatchLogger.construct_flushInterval
            (CloudWatchLogger.mkConfig 0 CloudWatchLogger.ActClip))
  = [mkTimer 0 0] /\
  flushes (intervalCallback
             (mkEngine [] [(key_of "g" "s", [mkLog 1 [97]])] [] [] [] []))
  = [[("g"%string, "s"%string, [mkLog 1 [97]])]].
Proof.
  split; [|repeat split; reflexivity].
  intros f. destruct (set_value_timers 0 f) as (Et & _). rewrite Et.
  apply in_or_app. right. now left.
Qed.

(** C8: when a client already exists, [setup] changes nothing: the client,
    the flush interval, its timer and the rest of the state are what they
    were, and the call returns normally. *)
Theorem setup_again_is_noop (config : ClientConfig) (rt : Runtime) :
  client rt <> None -> setup config rt = rt.
Proof.
  intros H. unfold setup. destruct (client rt); [reflexivity | contradiction].
Qed.

Lemma setup_again_is_noop_witness :
  let first := mkClientConfig "me-south-1" (Some 250) in
  let second := mkClientConfig "eu-west-1" (Some 5000) in
  let rt := setup first initial_Runtime in
  client rt <> None /\
  setup second rt = rt /\
  value (flushInterval (setup second rt)) = 250.
Proof.
  cbv zeta.
  assert (H : client (setup (mkClientConfig "me-south-1" (Some 250)) initial_Runtime)
              <> None) by (cbn; discriminate).
  split; [exact H|]. split.
  - exact (setup_again_is_noop _ _ H).
  - rewrite (setup_again_is_noop _ _ H). reflexivity.
Defined.

(** The first call is the one that counts. *)
Lemma setup_first_call_wins (first second : ClientConfig) (rt : Runtime) :
  setup second (setup first rt) = setup first rt.
Proof.
  unfold setup at 2 3. destruct (client rt) eqn:E.
  - unfold setup. now rewrite E.
  - reflexivity.
Qed.

(** ** C6: creating a log group *)

Lemma createLogGroup_without_client (remote : Remote) (name : string) (w : Engine) :
  Part002.createLogGroup remote None name w
  = (Threw (new_Error "CloudWatchLogs `client` is not initialized." None), w).
Proof. reflexivity. Qed.

Lemma createLogGroup_known (remote : Remote) (config : ClientConfig)
    (name : string) (w : Engine) :
  map_has name (logGroups w) = true ->
  Part002.createLogGroup remote (Some config) name w = (Returned tt, w).
Proof.
  intros H. unfold Part002.createLogGroup. now rewrite H.
Qed.

Lemma createLogGroup_unknown (remote : Remote) (config : ClientConfig)
    (name : string) (w : Engine) :
  map_has name (logGroups w) = false ->
  let w1 := with_sent (sent w ++ [CreateLogGroupCommand name]) w in
  Part002.createLogGroup remote (Some config) name w =
  match remote (sent w) (CreateLogGroupCommand name) with
  | Resolved _ =>
      (Returned tt, with_logGroups (map_set name [] (logGroups w)) w1)
  | Rejected error =>
      if isResourceAlreadyExistsException error
      then (Returned tt, with_logGroups (map_set name [] (logGroups w)) w1)
      else (Threw (new_Error "Create Log Group Failed" (Some error)), w1)
  end.
Proof.
  intros H. cbv zeta. unfold Part002.createLogGroup.
  rewrite H. unfold try_catch, bind, send.
  destruct (remote (sent w) (CreateLogGroupCommand name)) as [code|error].
  - reflexivity.
  - destruct (isResourceAlreadyExistsException error); reflexivity.
Qed.

(** C6 as stated fails: the error raised for group "alpha" and the one
    raised for group "beta" are the same value; the name is not attached. *)
Lemma createLogGroup_error_has_no_name :
  ~ raises_with_resource_name access_denied (mkClientConfig "me-south-1" None).
Proof.
  intros [resource_of H].
  pose proof (H "alpha"%string empty_Engine _ eq_refl) as Ha.
  pose proof (H "beta"%string empty_Engine _ eq_refl) as Hb.
  rewrite Ha in Hb. discriminate Hb.
Qed.

(** C6 (as amended): with the client initialised, [createLogGroup] returns
    at once, sending nothing and changing nothing, when the name is in the
    registry; otherwise it sends exactly one create-group command, and then:
    on success, or on an already-exists rejection, it returns normally with
    the name entered in the registry; on any other rejection it raises a new
    error "Create Log Group Failed" whose cause is the rejection, the
    registry unchanged. *)
Theorem createLogGroup_contract (remote : Remote) (config : ClientConfig)
    (name : string) (w : Engine) :
  let r := Part002.createLogGroup remote (Some config) name w in
  (map_has name (logGroups w) = true -> r = (Returned tt, w)) /\
  (map_has name (logGroups w) = false ->
   sent (snd r) = sent w ++ [CreateLogGroupCommand name] /\
   match remote (sent w) (CreateLogGroupCommand name) with
   | Resolved _ =>
       fst r = Returned tt /\ logGroups (snd r) = map_set name [] (logGroups w)
   | Rejected error =>
       if isResourceAlreadyExistsException error
       then fst r = Returned tt /\ logGroups (snd r) = map_set name [] (logGroups w)
       else fst r = Threw (new_Error "Create Log Group Failed" (Some error))
            /\ logGroups (snd r) = logGroups w
   end).
Proof.
  cbv zeta. split.
  - apply createLogGroup_known.
  - intros H. rewrite (createLogGroup_unknown remote config name w H).
    destruct (remote (sent w) (CreateLogGroupCommand name)) as [code|error].
    + cbn. auto.
    + destruct (isResourceAlreadyExistsException error); cbn; auto.
Qed.

Lemma createLogGroup_contract_witness :
  let w := with_logGroups [("known"%string, ["s"%string])] empty_Engine in
  let config := mkClientConfig "me-south-1" None in
  map_has "known" (logGroups w) = true /\
  Part002.createLogGroup access_denied (Some config) "known" w = (Returned tt, w) /\
  map_has "fresh" (logGroups w) = false /\
  sent (snd (Part002.createLogGroup access_denied (Some config) "fresh" w))
  = [CreateLogGroupCommand "fresh"].
Proof.
  cbv zeta.
  pose proof (createLogGroup_contract access_denied (mkClientConfig "me-south-1" None)
                "known" (with_logGroups [("known"%string, ["s"%string])] empty_Engine))
    as [Hk _].
  pose proof (createLogGroup_contract access_denied (mkClientConfig "me-south-1" None)
                "fresh" (with_logGroups [("known"%string, ["s"%string])] empty_Engine))
    as [_ Hf].
  split; [reflexivity|]. split; [exact (Hk eq_refl)|].
  split; [reflexivity|]. exact (proj1 (Hf eq_refl)).
Defined.

(** ** C3: the oversized-message policy *)

Lemma code_points_ascii_app (s t : JsString) :
  ascii_text s -> Buffer.code_points (s ++ t) = s ++ Buffer.code_points t.
Proof.
  induction 1 as [|u s Hu _ IH]; [reflexivity|].
  cbn [app Buffer.code_points].
  assert (Hh : Buffer.is_high_surrogate u = false)
    by (unfold Buffer.is_high_surrogate; lia).
  assert (Hl : Buffer.is_low_surrogate u = false)
    by (unfold Buffer.is_low_surrogate; lia).
  now rewrite Hh, Hl, IH.
Qed.

Lemma flat_map_utf8_ascii (s : list Z) :
  ascii_text s -> flat_map Buffer.utf8_of_code_point s = s.
Proof.
  induction 1 as [|u s Hu _ IH]; [reflexivity|].
  cbn [flat_map]. rewrite IH. unfold Buffer.utf8_of_code_point.
  destruct (Z.ltb_spec u 0x80); [reflexivity | lia].
Qed.

Lemma from_ascii_app (s t : JsString) :
  ascii_text s -> Buffer.from (s ++ t) = s ++ Buffer.from t.
Proof.
  intros H. unfold Buffer.from.
  now rewrite code_points_ascii_app, flat_map_app, flat_map_utf8_ascii.
Qed.

Lemma decode_ascii_app (s t : list Z) :
  ascii_text s ->
  Buffer.decode_from Buffer.initial (s ++ t) = s ++ Buffer.decode_from Buffer.initial t.
Proof.
  induction 1 as [|u s Hu _ IH]; [reflexivity|].
  cbn [app Buffer.decode_from]. unfold Buffer.decode_byte.
  cbn [Buffer.bytes_needed Buffer.initial Z.eqb].
  unfold Buffer.lead_byte.
  assert (Hr : Buffer.in_range 0x00 0x7F u = true)
    by (unfold Buffer.in_range; lia).
  rewrite Hr. cbn [app]. now rewrite IH.
Qed.

Lemma flat_map_utf16_ascii (s : list Z) :
  ascii_text s -> flat_map Buffer.utf16_of_code_point s = s.
Proof.
  induction 1 as [|u s Hu _ IH]; [reflexivity|].
  cbn [flat_map]. rewrite IH. unfold Buffer.utf16_of_code_point.
  destruct (Z.ltb_spec u 0x10000); [reflexivity | lia].
Qed.

Lemma toString_ascii_app (s t : list Z) :
  ascii_text s -> Buffer.toString (s ++ t) = s ++ Buffer.toString t.
Proof.
  intros H. unfold Buffer.toString.
  now rewrite decode_ascii_app, flat_map_app, flat_map_utf16_ascii.
Qed.

Lemma ascii_text_firstn (n : nat) (s : JsString) :
  ascii_text s -> ascii_text (firstn n s).
Proof.
  unfold ascii_text. intros H. revert n.
  induction H as [|u s Hu _ IH]; intros [|n]; cbn; constructor; auto.
Qed.

(** Clipping ASCII text: the first 262118 characters, 262118 bytes. *)
Lemma clip_message_ascii (s : JsString) :
  ascii_text s ->
  clip_message s = firstn (Z.to_nat CLOUDWATCH_MAX_EVENT_SIZE) s.
Proof.
  intros H. unfold clip_message, Buffer.subarray0. rewrite (from_ascii s H).
  rewrite <- (app_nil_r (firstn _ s)) at 1.
  rewrite toString_ascii_app by now apply ascii_text_firstn.
  cbn. now rewrite app_nil_r.
Qed.

Lemma clip_message_ascii_length (s : JsString) :
  ascii_text s ->
  Buffer.byteLength s > CLOUDWATCH_MAX_EVENT_SIZE ->
  Buffer.byteLength (clip_message s) = CLOUDWATCH_MAX_EVENT_SIZE.
Proof.
  intros H Hlen. rewrite (clip_message_ascii s H).
  rewrite byteLength_ascii in * by (try apply ascii_text_firstn; assumption).
  rewrite length_firstn. rewrite MAX_EVENT_SIZE_value in *. lia.
Qed.

(** Clipping in the middle of a two-byte character: the lead byte left
    behind is decoded as U+FFFD, three bytes long. *)
Lemma clip_message_split_character (s rest : JsString) :
  ascii_text s ->
  Z.of_nat (List.length s) = CLOUDWATCH_MAX_EVENT_SIZE - 1 ->
  clip_message (s ++ 233 :: rest) = s ++ [0xFFFD].
Proof.
  intros H Hlen. unfold clip_message, Buffer.subarray0.
  rewrite (from_ascii_app s _ H).
  change (Buffer.from (233 :: rest)) with (0xC3 :: 0xA9 :: Buffer.from rest).
  replace (Z.to_nat CLOUDWATCH_MAX_EVENT_SIZE) with (List.length s + 1)%nat by lia.
  rewrite firstn_app_2. cbn [firstn].
  rewrite (toString_ascii_app s _ H). reflexivity.
Qed.

Lemma byteLength_ascii_app (s t : JsString) :
  ascii_text s ->
  Buffer.byteLength (s ++ t) = Z.of_nat (List.length s) + Buffer.byteLength t.
Proof.
  intros H. unfold Buffer.byteLength. rewrite (from_ascii_app s t H).
  rewrite length_app. lia.
Qed.

(** What [log] does with an oversized event under each policy. *)
Lemma log_oversized (action : CloudWatchLogger.OverSizedMessageAction)
    (g s : string) (log : Log) (w : Engine) :
  CloudWatchLogger.logEventExceedsSize log = true ->
  let w1 := after_limit_check g s log w in
  CloudWatchLogger.log action g s log w =
  match action with
  | CloudWatchLogger.ActClip =>
      (None,
       with_bufferedLogs
         (pushLog g s (mkLog (timestamp log) (clip_message (message log)))
                  (bufferedLogs w1)) w1)
  | CloudWatchLogger.ActError =>
      (Some (new_Error "Log event exceeds size limit: 256Kb" None), w1)
  | CloudWatchLogger.ActConsole =>
      (None, with_console (console_out w1 ++ [ConsoleInfo (message log)]) w1)
  end.
Proof.
  intros H. cbv zeta. unfold CloudWatchLogger.log, after_limit_check.
  rewrite H. destruct action; reflexivity.
Qed.

Lemma log_clip_split_character (s : JsString) (ts : Z) :
  ascii_text s ->
  Z.of_nat (List.length s) = CLOUDWATCH_MAX_EVENT_SIZE - 1 ->
  let log := mkLog ts (s ++ [233]) in
  let clipped := mkLog ts (s ++ [0xFFFD]) in
  Buffer.byteLength (message log) = CLOUDWATCH_MAX_EVENT_SIZE + 1 /\
  Buffer.byteLength (message clipped) = CLOUDWATCH_MAX_EVENT_SIZE + 2 /\
  CloudWatchLogger.logEventExceedsSize clipped = true /\
  CloudWatchLogger.log CloudWatchLogger.ActClip "g" "s" log empty_Engine
  = (None, with_bufferedLogs [(key_of "g" "s", [clipped])] empty_Engine) /\
  Part002.run_immediates (snd (Part002.addLog true "g" "s" log empty_Engine))
  = with_bufferedLogs [(key_of "g" "s", [clipped])] empty_Engine.
Proof.
  intros H Hlen. cbv zeta. cbn [message].
  assert (E1 : Buffer.byteLength (s ++ [233]) = CLOUDWATCH_MAX_EVENT_SIZE + 1).
  { rewrite (byteLength_ascii_app s _ H), Hlen.
    change (Buffer.byteLength [233]) with 2. lia. }
  assert (E2 : Buffer.byteLength (s ++ [0xFFFD]) = CLOUDWATCH_MAX_EVENT_SIZE + 2).
  { rewrite (byteLength_ascii_app s _ H), Hlen.
    change (Buffer.byteLength [0xFFFD]) with 3. lia. }
  split; [exact E1|]. split; [exact E2|]. split; [|split].
  - unfold CloudWatchLogger.logEventExceedsSize. cbn [message]. rewrite E2. lia.
  - rewrite log_oversized
      by (unfold CloudWatchLogger.logEventExceedsSize; cbn [message]; rewrite E1; lia).
    cbn [message timestamp]. rewrite (clip_message_split_character s [] H Hlen).
    reflexivity.
  - unfold Part002.addLog, Part002.logEventExceedsSize. cbn [message timestamp].
    replace (Buffer.byteLength (s ++ [233]) >=? CLOUDWATCH_MAX_EVENT_SIZE) with true
      by (rewrite E1; lia).
    rewrite (clip_message_split_character s [] H Hlen). reflexivity.
Qed.

(** C3 (code at the failing input): under the clip policy an event whose
    262119-byte message has a two-byte character across the 262118-byte mark
    is buffered with a message of 262120 bytes (262117 times "a", then
    U+FFFD), which is not the maximum of 262118 and still exceeds it; so it
    is in [log] of the class and in [addLog] of part_002 once the queued
    push has run. *)
Theorem clip_overshoots_the_limit :
  let log := mkLog 7 split_message in
  let clipped := mkLog 7 (repeat 97 (Z.to_nat 262117) ++ [0xFFFD]) in
  Buffer.byteLength (message log) = 262119 /\
  Buffer.byteLength (message clipped) = 262120 /\
  CloudWatchLogger.logEventExceedsSize clipped = true /\
  CloudWatchLogger.log CloudWatchLogger.ActClip "g" "s" log empty_Engine
  = (None, with_bufferedLogs [(key_of "g" "s", [clipped])] empty_Engine) /\
  Part002.run_immediates (snd (Part002.addLog true "g" "s" log empty_Engine))
  = with_bufferedLogs [(key_of "g" "s", [clipped])] empty_Engine.
Proof.
  assert (Ha : ascii_text (repeat 97 (Z.to_nat 262117))) by (apply ascii_repeat; lia).
  assert (Hl : Z.of_nat (List.length (repeat 97 (Z.to_nat 262117)))
               = CLOUDWATCH_MAX_EVENT_SIZE - 1).
  { rewrite repeat_length, MAX_EVENT_SIZE_value. lia. }
  exact (log_clip_split_character _ 7 Ha Hl).
Qed.

(** ** The flush path of the class *)

Lemma sent_more_refl (w : Engine) : sent_more w w [].
Proof. unfold sent_more. now rewrite app_nil_r. Qed.

Lemma sent_more_trans (w w1 w2 : Engine) (d1 d2 : list Command) :
  sent_more w w1 d1 -> sent_more w1 w2 d2 -> sent_more w w2 (d1 ++ d2).
Proof.
  unfold sent_more. intros (A1 & A2 & A3 & A4 & A5) (B1 & B2 & B3 & B4 & B5).
  rewrite B1, B2, B3, B4, B5, A5, app_assoc. auto.
Qed.

Lemma sent_more_logGroups (w w' : Engine) (d : list Command) (g : JsMap (list string)) :
  sent_more w w' d -> sent_more w (with_logGroups g w') d.
Proof. unfold sent_more. cbn. auto. Qed.

Lemma sent_more_send (w : Engine) (c : Command) :
  sent_more w (with_sent (sent w ++ [c]) w) [c].
Proof. unfold sent_more. cbn. auto. Qed.

Lemma Sends_ret {A} (P : Command -> Prop) (a : A) : Sends P (ret a).
Proof.
  intros w. exists []. cbn. split; [apply sent_more_refl|].
  split; [constructor | discriminate].
Qed.

Lemma Sends_throw {A} (P : Command -> Prop) (e : Thrown) : Sends P (@throw A e).
Proof.
  intros w. exists []. cbn. split; [apply sent_more_refl|].
  split; [constructor | discriminate].
Qed.

Lemma Sends_registry (P : Command -> Prop) (f : JsMap (list string) -> JsMap (list string)) :
  Sends P (modify (fun w => with_logGroups (f (logGroups w)) w)).
Proof.
  intros w. exists []. cbn. split; [apply sent_more_logGroups, sent_more_refl|].
  split; [constructor | discriminate].
Qed.

Lemma Sends_send (P : Command -> Prop) (remote : Remote) (c : Command) :
  P c -> Sends P (send remote c).
Proof.
  intros Hc w. exists [c]. unfold send.
  destruct (remote (sent w) c); cbn;
    (split; [apply sent_more_send|]; split; [now repeat constructor | discriminate]).
Qed.

Lemma Sends_bind {A B} (P : Command -> Prop) (m : M A) (k : A -> M B) :
  Sends P m -> (forall a, Sends P (k a)) -> Sends P (bind m k).
Proof.
  intros Hm Hk w. destruct (Hm w) as (d1 & H1 & F1 & N1). unfold bind.
  destruct (m w) as [[a|e|] w1]; cbn [fst snd] in *.
  - destruct (Hk a w1) as (d2 & H2 & F2 & N2). exists (d1 ++ d2).
    split; [eapply sent_more_trans; eassumption|].
    split; [now apply Forall_app | exact N2].
  - exists d1. cbn. split; [exact H1|]. split; [exact F1 | discriminate].
  - contradiction.
Qed.

Lemma Sends_try_catch {A} (P : Command -> Prop) (m : M A) (h : Thrown -> M A) :
  Sends P m -> (forall e, Sends P (h e)) -> Sends P (try_catch m h).
Proof.
  intros Hm Hh w. destruct (Hm w) as (d1 & H1 & F1 & N1). unfold try_catch.
  destruct (m w) as [[a|e|] w1]; cbn [fst snd] in *.
  - exists d1. cbn. split; [exact H1|]. split; [exact F1 | discriminate].
  - destruct (Hh e w1) as (d2 & H2 & F2 & N2). exists (d1 ++ d2).
    split; [eapply sent_more_trans; eassumption|].
    split; [now apply Forall_app | exact N2].
  - contradiction.
Qed.

Lemma Sends_reading {A} (P : Command -> Prop) (f : Engine -> M A) :
  (forall w0, Sends P (f w0)) -> Sends P (fun w => f w w).
Proof. intros H w. exact (H w w). Qed.

Lemma Sends_weaken {A} (P Q : Command -> Prop) (m : M A) :
  (forall c, P c -> Q c) -> Sends P m -> Sends Q m.
Proof.
  intros HPQ Hm w. destruct (Hm w) as (d & H & F & N). exists d.
  split; [exact H|]. split; [|exact N]. eapply Forall_impl; eassumption.
Qed.

Section FlushPath.
Variable remote : Remote.

Lemma createLogGroup_Sends (g s : string) (logEvents : list Log) :
  Sends (delivery_command g s logEvents) (CloudWatchLogger.createLogGroup remote g).
Proof.
  unfold CloudWatchLogger.createLogGroup.
  apply (Sends_reading _ (fun w0 w =>
           if map_has g (logGroups w0) then ret tt w else _ w)).
  intros w0. destruct (map_has g (logGroups w0)).
  - apply Sends_ret.
  - apply Sends_try_catch.
    + apply Sends_bind; [apply Sends_send; now left|].
      intros _. apply (Sends_registry _ (map_set g [])).
    + intros e. destruct (isResourceAlreadyExistsException e).
      * apply (Sends_registry _ (map_set g [])).
      * apply Sends_throw.
Qed.

Lemma createLogStream_Sends (g s : string) (logEvents : list Log) :
  Sends (delivery_command g s logEvents) (CloudWatchLogger.createLogStream remote g s).
Proof.
  unfold CloudWatchLogger.createLogStream.
  apply Sends_try_catch.
  - apply Sends_bind; [apply createLogGroup_Sends|]. intros _.
    apply (Sends_reading _ (fun w0 w =>
             if registry_includes g s (logGroups w0) then ret tt w else _ w)).
    intros w0. destruct (registry_includes g s (logGroups w0)).
    + apply Sends_ret.
    + apply Sends_bind; [apply Sends_send; right; now left|].
      intros _. apply (Sends_registry _ (registry_push g s)).
  - intros e. destruct (isResourceAlreadyExistsException e).
    + apply (Sends_registry _ (registry_push g s)).
    + apply Sends_throw.
Qed.

Lemma putEventLogs_Sends (g s : string) (logEvents : list Log) :
  Sends (delivery_command g s logEvents)
        (CloudWatchLogger.putEventLogs remote g s logEvents).
Proof.
  unfold CloudWatchLogger.putEventLogs. destruct logEvents as [|l logEvents].
  - apply Sends_ret.
  - apply Sends_try_catch.
    + apply Sends_bind; [apply createLogStream_Sends|]. intros _.
      apply Sends_bind; [apply Sends_send; right; now right|]. intros code.
      destruct (negb (code =? 200)).
      * apply Sends_bind; [apply Sends_send; right; now right|]. intros _.
        apply Sends_ret.
      * apply Sends_ret.
    + intros e. apply Sends_throw.
Qed.

(** Whatever a delivery throws is the wrapping error, a plain [Error]. *)
Lemma putEventLogs_outcome (g s : string) (logEvents : list Log) (w : Engine) :
  delivery_outcome (fst (CloudWatchLogger.putEventLogs remote g s logEvents w)).
Proof.
  unfold delivery_outcome.
  destruct logEvents as [|l logEvents]; [now left|].
  pose proof (putEventLogs_Sends g s (l :: logEvents) w) as (d & _ & _ & N).
  unfold CloudWatchLogger.putEventLogs, try_catch, throw in *.
  destruct (bind _ _ w) as [[[]|e|] w1]; cbn [fst] in *.
  - now left.
  - right. now exists e.
  - contradiction.
Qed.
End FlushPath.

(** ** The retry of the class after a failed delivery *)

Lemma Qceiling_half (n : Z) : Qceiling (n # 2) = (n + 1) / 2.
Proof.
  unfold Qceiling, Qfloor. cbn [Qopp Qnum Qden].
  pose proof (Z.div_mod (- n) 2 ltac:(lia)) as H1.
  pose proof (Z.mod_pos_bound (- n) 2 ltac:(lia)) as H2.
  pose proof (Z.div_mod (n + 1) 2 ltac:(lia)) as H3.
  pose proof (Z.mod_pos_bound (n + 1) 2 ltac:(lia)) as H4.
  lia.
Qed.

Lemma splice0_integer (count : Z) (logs : list Log) :
  splice0 (inject_Z count) logs
  = (firstn (Z.to_nat count) logs, skipn (Z.to_nat count) logs).
Proof.
  unfold splice0, ToIntegerOrInfinity, inject_Z. cbn [Qnum Qden].
  now rewrite Z.quot_1_r.
Qed.

Section EveryDeliveryFails.
Variable remote : Remote.
Hypothesis Hfail : every_delivery_fails remote.

Lemma putEventLogs_fails (g s : string) (logEvents : list Log) (w : Engine) :
  logEvents <> [] ->
  exists cause d,
    fst (CloudWatchLogger.putEventLogs remote g s logEvents w)
    = Threw (new_Error "Put Log Events Failed" (Some cause)) /\
    sent_more w (snd (CloudWatchLogger.putEventLogs remote g s logEvents w)) d /\
    Forall (delivery_command g s logEvents) d.
Proof.
  intros Hne.
  destruct (putEventLogs_Sends remote g s logEvents w) as (d & Hd & Fd & _).
  assert (exists cause,
             fst (CloudWatchLogger.putEventLogs remote g s logEvents w)
             = Threw (new_Error "Put Log Events Failed" (Some cause))) as [cause Hc].
  { destruct logEvents as [|l logEvents]; [contradiction|].
    pose proof (createLogStream_Sends remote g s (l :: logEvents) w) as (d0 & _ & _ & N).
    unfold CloudWatchLogger.putEventLogs, try_catch, throw.
    unfold bind at 1.
    destruct (CloudWatchLogger.createLogStream remote g s w) as [[[]|e|] w1];
      cbn [fst] in *.
    - unfold bind at 1. unfold send.
      destruct (Hfail (sent w1) g s (l :: logEvents)) as [e He]. rewrite He.
      now exists e.
    - now exists e.
    - contradiction. }
  exists cause, d. auto.
Qed.
End EveryDeliveryFails.

Lemma firstn_nonempty {A} (n : nat) (l : list A) :
  (1 <= n)%nat -> l <> [] -> firstn n l <> [].
Proof. destruct n, l; cbn; intros; try lia; congruence. Qed.

Lemma rejecting_batches_fails : every_delivery_fails rejecting_batches.
Proof. intros history g s logEvents. eexists. reflexivity. Qed.

(** The retry of the class on four events and a sink that rejects every
    batch: the commands sent are the two creations, the whole batch, a
    report, the first two events, a report; no event is ever attempted on
    its own and the last two are not attempted again. *)
Lemma flush_entry_never_reaches_single_events :
  let rejection := mkThrown OtherServiceException "ServiceUnavailableException"
                            "unavailable" None in
  let failure := new_Error "Put Log Events Failed" (Some rejection) in
  CloudWatchLogger.flush_entry rejecting_batches 4
    ("g"%string, "s"%string, four_events) empty_Engine
  = (Returned tt,
     mkEngine [("g"%string, ["s"%string])] []
       [CreateLogGroupCommand "g";
        CreateLogStreamCommand "g" "s";
        PutLogEventsCommand "g" "s" four_events;
        PutSelfDiagnostic "flushing error (will retry)" failure;
        PutLogEventsCommand "g" "s" [mkLog 1 [97]; mkLog 2 [98]];
        PutSelfDiagnostic "flushing error" failure]
       [ConsoleError failure; ConsoleError failure] [] []) /\
  ~ halves_down_to_single_events rejecting_batches 4 "g" "s" four_events.
Proof.
  cbv zeta.
  assert (E : CloudWatchLogger.flush_entry rejecting_batches 4
                ("g"%string, "s"%string, four_events) empty_Engine
              = (Returned tt,
                 mkEngine [("g"%string, ["s"%string])] []
                   [CreateLogGroupCommand "g";
                    CreateLogStreamCommand "g" "s";
                    PutLogEventsCommand "g" "s" four_events;
                    PutSelfDiagnostic "flushing error (will retry)"
                      (new_Error "Put Log Events Failed"
                         (Some (mkThrown OtherServiceException
                                  "ServiceUnavailableException" "unavailable" None)));
                    PutLogEventsCommand "g" "s" [mkLog 1 [97]; mkLog 2 [98]];
                    PutSelfDiagnostic "flushing error"
                      (new_Error "Put Log Events Failed"
                         (Some (mkThrown OtherServiceException
                                  "ServiceUnavailableException" "unavailable" None)))]
                   [ConsoleError
                      (new_Error "Put Log Events Failed"
                         (Some (mkThrown OtherServiceException
                                  "ServiceUnavailableException" "unavailable" None)));
                    ConsoleError
                      (new_Error "Put Log Events Failed"
                         (Some (mkThrown OtherServiceException
                                  "ServiceUnavailableException" "unavailable" None)))]
                   [] [])) by (vm_compute; reflexivity).
  split; [exact E|].
  intros H. specialize (H (mkLog 1 [97]) (or_introl eq_refl)).
  rewrite E in H. cbn [snd sent] in H.
  repeat (destruct H as [H|H]; [discriminate H|]). exact H.
Qed.

(** The loop of part_002 takes [logs.length / 2] as it is; with one event
    that is 0.5, [splice] removes nothing and the loop never ends. *)
Lemma Part002_retry_split_single_event_never_ends (remote : Remote)
    (client : option ClientConfig) (fuel : nat) (g s : string) (e : Log) (w : Engine) :
  Part002.retry_split remote client fuel g s [e] w = (OutOfFuel, w).
Proof.
  unfold Part002.retry_split. cbn [List.length Z.of_nat Pos.of_succ_nat].
  induction fuel as [|fuel IH]; [reflexivity|].
  cbn [Part002.retry_loop]. unfold splice0, ToIntegerOrInfinity. cbn [Qnum Qden].
  change (Z.to_nat (Z.quot 1 2)) with 0%nat. cbn [firstn skipn].
  unfold bind. cbn [Part002.putEventLogs ret]. exact IH.
Qed.

(** ** C4: clipping in the retry *)

Lemma Sends_Emits {A} (P : Command -> Prop) (m : M A) : Sends P m -> Emits P m.
Proof.
  intros H w. destruct (H w) as (d & (_ & _ & _ & _ & E) & F & _). now exists d.
Qed.

Lemma Emits_quiet {A} (P : Command -> Prop) (r : Outcome A) :
  Emits P (fun w => (r, w)).
Proof. intros w. exists []. cbn. now rewrite app_nil_r. Qed.

Lemma Emits_bind {A B} (P : Command -> Prop) (m : M A) (k : A -> M B) :
  Emits P m -> (forall a, Emits P (k a)) -> Emits P (bind m k).
Proof.
  intros Hm Hk w. destruct (Hm w) as (d1 & E1 & F1). unfold bind.
  destruct (m w) as [[a|e|] w1]; cbn [fst snd] in *.
  - destruct (Hk a w1) as (d2 & E2 & F2). exists (d1 ++ d2).
    rewrite E2, E1, app_assoc. split; [reflexivity | now apply Forall_app].
  - now exists d1.
  - now exists d1.
Qed.

(** [try]/[catch] where the body is known to throw only values in [Q]. *)
Lemma Emits_try_catch {A} (P : Command -> Prop) (Q : Thrown -> Prop)
    (m : M A) (h : Thrown -> M A) :
  Emits P m -> (forall w e, fst (m w) = Threw e -> Q e) ->
  (forall e, Q e -> Emits P (h e)) -> Emits P (try_catch m h).
Proof.
  intros Hm HQ Hh w. destruct (Hm w) as (d1 & E1 & F1). unfold try_catch.
  pose proof (HQ w) as HQw.
  destruct (m w) as [[a|e|] w1]; cbn [fst snd] in *.
  - now exists d1.
  - destruct (Hh e (HQw e eq_refl) w1) as (d2 & E2 & F2). exists (d1 ++ d2).
    rewrite E2, E1, app_assoc. split; [reflexivity | now apply Forall_app].
  - now exists d1.
Qed.

Lemma delivery_carries (g s : string) (logEvents logs : list Log) (c : Command) :
  incl logEvents logs -> delivery_command g s logEvents c -> carries_events_of logs c.
Proof.
  intros Hincl [-> | [-> | ->]] g' s' evs E; inversion E; subst; assumption.
Qed.

Lemma diagnostic_carries (remote : Remote) (logs : list Log) (report : string)
    (about : Thrown) :
  Emits (carries_events_of logs) (CloudWatchLogger.logError remote report about).
Proof.
  intros w. exists [PutSelfDiagnostic report about].
  unfold CloudWatchLogger.logError, send_detached, modify. cbn [snd].
  split.
  - now destruct (remote (sent w) (PutSelfDiagnostic report about)).
  - repeat constructor. intros g s evs E. discriminate E.
Qed.

Lemma console_error_Emits (P : Command -> Prop) (e : Thrown) : Emits P (console_error e).
Proof. intros w. exists []. cbn. now rewrite app_nil_r. Qed.

Lemma incl_firstn {A} (n : nat) (l : list A) : incl (firstn n l) l.
Proof.
  intros x H. rewrite <- (firstn_skipn n l). apply in_or_app. now left.
Qed.

Lemma incl_skipn {A} (n : nat) (l : list A) : incl (skipn n l) l.
Proof.
  intros x H. rewrite <- (firstn_skipn n l). apply in_or_app. now right.
Qed.

Section RetryNeverClips.
Variable remote : Remote.

Lemma putEventLogs_carries (g s : string) (logEvents logs : list Log) :
  incl logEvents logs ->
  Emits (carries_events_of logs) (CloudWatchLogger.putEventLogs remote g s logEvents).
Proof.
  intros Hincl. apply Sends_Emits.
  apply (Sends_weaken (delivery_command g s logEvents)).
  - intros c. now apply delivery_carries.
  - apply putEventLogs_Sends.
Qed.

Lemma retry_loop_carries (fuel : nat) (half : Z) (error : Thrown) (g s : string)
    (cur logs : list Log) :
  instanceof error InvalidParameterException = false ->
  incl cur logs ->
  Emits (carries_events_of logs)
        (CloudWatchLogger.retry_loop remote fuel half error g s cur).
Proof.
  intros Hcls. revert cur. induction fuel as [|fuel IH]; intros cur Hincl.
  - destruct cur; apply Emits_quiet.
  - destruct cur as [|l cur]; [apply Emits_quiet|].
    cbn [CloudWatchLogger.retry_loop]. rewrite splice0_integer, Hcls.
    apply Emits_bind.
    + apply putEventLogs_carries.
      eapply incl_tran; [apply incl_firstn | exact Hincl].
    + intros _. apply IH. eapply incl_tran; [apply incl_skipn | exact Hincl].
Qed.

Lemma flush_entry_carries (fuel : nat) (g s : string) (logs : list Log) :
  Emits (carries_events_of logs)
        (CloudWatchLogger.flush_entry remote fuel (g, s, logs)).
Proof.
  unfold CloudWatchLogger.flush_entry.
  apply (Emits_try_catch _ (fun _ => True)); [|auto|].
  - apply (Emits_try_catch _ (fun e => instanceof e InvalidParameterException = false)).
    + apply putEventLogs_carries, incl_refl.
    + intros w e E.
      destruct (putEventLogs_outcome remote g s logs w) as [R|[cause R]];
        rewrite R in E; inversion E. reflexivity.
    + intros e He.
      apply Emits_bind; [apply console_error_Emits|]. intros _.
      apply Emits_bind; [apply diagnostic_carries|]. intros _.
      destruct logs as [|l logs]; [apply Emits_quiet|].
      apply retry_loop_carries; [exact He | apply incl_refl].
  - intros e _.
    apply Emits_bind; [apply console_error_Emits | intros _; apply diagnostic_carries].
Qed.
End RetryNeverClips.


(** ** The stable ascending arrangement is unique *)

Lemma ascending_head_least (x : Log) (l : list Log) :
  ascending (x :: l) -> forall y, In y l -> timestamp x <= timestamp y.
Proof.
  unfold ascending. intros H.
  apply Sorted_StronglySorted in H; [|intros a b c; lia].
  inversion H as [|? ? _ Hall]; subst.
  intros y Hy. exact (proj1 (Forall_forall _ _) Hall y Hy).
Qed.

Lemma ascending_tail (x : Log) (l : list Log) : ascending (x :: l) -> ascending l.
Proof. unfold ascending. intros H. now inversion H. Qed.

Lemma filter_head_in (t : Z) (x : Log) (l l' : list Log) :
  filter (fun e => timestamp e =? t) l' = filter (fun e => timestamp e =? t) (x :: l) ->
  timestamp x = t -> In x l'.
Proof.
  intros E Hx. cbn [filter] in E. rewrite (proj2 (Z.eqb_eq _ _) Hx) in E.
  assert (Hin : In x (filter (fun e => timestamp e =? t) l')) by (rewrite E; now left).
  now apply filter_In in Hin.
Qed.

(** Two ascending lists that agree on the order of the events of every
    timestamp are the same list: whatever stable sort the runtime uses, it
    returns [sort_by_timestamp]. *)
Lemma stable_ascending_unique (l1 l2 : list Log) :
  ascending l1 -> ascending l2 -> same_order_on_ties l1 l2 -> l1 = l2.
Proof.
  revert l2. induction l1 as [|x l1 IH]; intros l2 A1 A2 T.
  - destruct l2 as [|y l2]; [reflexivity|].
    specialize (T (timestamp y)). cbn in T. rewrite Z.eqb_refl in T. discriminate T.
  - destruct l2 as [|y l2].
    + specialize (T (timestamp x)). cbn in T. rewrite Z.eqb_refl in T. discriminate T.
    + assert (Hxy : timestamp x = timestamp y).
      { pose proof (T (timestamp x)) as Tx. pose proof (T (timestamp y)) as Ty.
        assert (Hx : In x (y :: l2)) by (eapply filter_head_in; [exact Tx | reflexivity]).
        assert (Hy : In y (x :: l1))
          by (eapply filter_head_in; [symmetry; exact Ty | reflexivity]).
        destruct Hx as [->|Hx]; [reflexivity|].
        destruct Hy as [->|Hy]; [reflexivity|].
        pose proof (ascending_head_least _ _ A2 x Hx).
        pose proof (ascending_head_least _ _ A1 y Hy). lia. }
      assert (E : x = y).
      { specialize (T (timestamp x)). cbn [filter] in T.
        rewrite Z.eqb_refl, <- Hxy, Z.eqb_refl in T. now inversion T. }
      subst y. f_equal.
      apply IH; [now apply ascending_tail in A1 | now apply ascending_tail in A2 |].
      intros t. specialize (T t). cbn [filter] in T.
      destruct (timestamp x =? t); [now inversion T | exact T].
Qed.

Lemma stable_sort_is_sort_by_timestamp (l sorted : list Log) :
  ascending sorted -> same_order_on_ties l sorted -> sorted = sort_by_timestamp l.
Proof.
  intros A T. symmetry.
  apply stable_ascending_unique; [apply sort_by_timestamp_ascending | exact A |].
  intros t. rewrite (T t). symmetry. apply sort_by_timestamp_ties.
Qed.

(** ** The retry of part_002 *)

Section Part002FlushPath.
Variable remote : Remote.
Variable client : option ClientConfig.

Lemma Part002_createLogGroup_Sends (g s : string) (logEvents : list Log) :
  Sends (delivery_command g s logEvents) (Part002.createLogGroup remote client g).
Proof.
  unfold Part002.createLogGroup. destruct client; [|apply Sends_throw].
  apply (Sends_reading _ (fun w0 w =>
           if map_has g (logGroups w0) then ret tt w else _ w)).
  intros w0. destruct (map_has g (logGroups w0)).
  - apply Sends_ret.
  - apply Sends_try_catch.
    + apply Sends_bind; [apply Sends_send; now left|].
      intros _. apply (Sends_registry _ (map_set g [])).
    + intros e. destruct (isResourceAlreadyExistsException e).
      * apply (Sends_registry _ (map_set g [])).
      * apply Sends_throw.
Qed.

Lemma Part002_createLogStream_Sends (g s : string) (logEvents : list Log) :
  Sends (delivery_command g s logEvents) (Part002.createLogStream remote client g s).
Proof.
  unfold Part002.createLogStream. destruct client eqn:Ec; [|apply Sends_throw].
  apply Sends_try_catch.
  - apply Sends_bind.
    + rewrite <- Ec. apply Part002_createLogGroup_Sends.
    + intros _.
      apply (Sends_reading _ (fun w0 w =>
               if registry_includes g s (logGroups w0) then ret tt w else _ w)).
      intros w0. destruct (registry_includes g s (logGroups w0)).
      * apply Sends_ret.
      * apply Sends_bind; [apply Sends_send; right; now left|].
        intros _. apply (Sends_registry _ (registry_push g s)).
  - intros e. destruct (isResourceAlreadyExistsException e).
    + apply (Sends_registry _ (registry_push g s)).
    + apply Sends_throw.
Qed.

Lemma Part002_putEventLogs_Sends (g s : string) (logEvents : list Log) :
  Sends (delivery_command g s logEvents)
        (Part002.putEventLogs remote client g s logEvents).
Proof.
  unfold Part002.putEventLogs. destruct logEvents as [|l logEvents].
  - apply Sends_ret.
  - destruct client eqn:Ec; [|apply Sends_throw].
    apply Sends_try_catch.
    + apply Sends_bind.
      * rewrite <- Ec. apply Part002_createLogStream_Sends.
      * intros _. apply Sends_bind; [apply Sends_send; right; now right|].
        intros _. apply Sends_ret.
    + intros e. apply Sends_throw.
Qed.
End Part002FlushPath.

Lemma Part002_putEventLogs_fails (remote : Remote) (config : ClientConfig)
    (g s : string) (logEvents : list Log) (w : Engine) :
  every_delivery_fails remote -> logEvents <> [] ->
  exists cause d,
    fst (Part002.putEventLogs remote (Some config) g s logEvents w)
    = Threw (new_Error "Put Log Events Failed" (Some cause)) /\
    sent_more w (snd (Part002.putEventLogs remote (Some config) g s logEvents w)) d /\
    Forall (delivery_command g s logEvents) d.
Proof.
  intros Hfail Hne.
  destruct (Part002_putEventLogs_Sends remote (Some config) g s logEvents w)
    as (d & Hd & Fd & _).
  assert (exists cause,
             fst (Part002.putEventLogs remote (Some config) g s logEvents w)
             = Threw (new_Error "Put Log Events Failed" (Some cause))) as [cause Hc].
  { destruct logEvents as [|l logEvents]; [contradiction|].
    pose proof (Part002_createLogStream_Sends remote (Some config) g s (l :: logEvents) w)
      as (d0 & _ & _ & N).
    unfold Part002.putEventLogs, try_catch, throw.
    unfold bind at 1.
    destruct (Part002.createLogStream remote (Some config) g s w) as [[[]|e|] w1];
      cbn [fst] in *.
    - unfold bind at 1. unfold send.
      destruct (Hfail (sent w1) g s (l :: logEvents)) as [e He]. rewrite He.
      now exists e.
    - now exists e.
    - contradiction. }
  exists cause, d. auto.
Qed.

(** With two events or more and a sink that rejects every batch, the retry
    of part_002 attempts the first floor(n/2) events and ends there, the
    failure thrown on to the outer [catch]. *)
Lemma Part002_retry_split_first_chunk (remote : Remote) (config : ClientConfig)
    (fuel : nat) (g s : string) (logs : list Log) (w : Engine) :
  every_delivery_fails remote -> (2 <= List.length logs)%nat -> (1 <= fuel)%nat ->
  let r := Part002.retry_split remote (Some config) fuel g s logs w in
  exists cause d,
    fst r = Threw (new_Error "Put Log Events Failed" (Some cause)) /\
    sent_more w (snd r) d /\
    Forall (delivery_command g s (firstn (List.length logs / 2) logs)) d.
Proof.
  intros Hfail Hlen Hfuel. cbv zeta.
  destruct logs as [|l logs]; [cbn in Hlen; lia|].
  destruct fuel as [|fuel]; [lia|].
  unfold Part002.retry_split. cbn [Part002.retry_loop].
  unfold splice0, ToIntegerOrInfinity. cbn [Qnum Qden].
  set (n := List.length (l :: logs)) in *.
  assert (Hh : Z.to_nat (Z.quot (Z.of_nat n) 2) = (n / 2)%nat).
  { rewrite Z.quot_div_nonneg by lia.
    change 2 with (Z.of_nat 2). rewrite <- Nat2Z.inj_div. apply Nat2Z.id. }
  rewrite Hh.
  assert (Hne : firstn (n / 2) (l :: logs) <> []).
  { apply firstn_nonempty; [|discriminate].
    change 1%nat with (2 / 2)%nat. apply Nat.Div0.div_le_mono. exact Hlen. }
  destruct (Part002_putEventLogs_fails remote config g s _ w Hfail Hne)
    as (cause & d & E & S & F).
  exists cause, d. unfold bind.
  destruct (Part002.putEventLogs remote (Some config) g s
              (firstn (n / 2) (l :: logs)) w) as [r1 w1].
  cbn [fst snd] in *. subst r1. cbn. auto.
Qed.

(** What [addLog] of part_002 does with an oversized event: clipped and
    queued for the buffer when [clipMessages] is set, refused with an error
    and not queued otherwise. *)
Lemma addLog_oversized (clipMessages : bool) (g s : string) (log : Log) (w : Engine) :
  Part002.logEventExceedsSize log = true ->
  let w1 := if Part002.reachedBufferLimits (bufferedLogs w) g s log
            then flush_detached w else w in
  Part002.addLog clipMessages g s log w =
  if clipMessages
  then (None,
        with_immediates
          (immediates w1 ++ [(g, s, mkLog (timestamp log) (clip_message (message log)))])
          w1)
  else (Some (new_Error "Log event exceeds size limit: 256Kb" None), w1).
Proof.
  intros H. cbv zeta. unfold Part002.addLog. rewrite H.
  destruct clipMessages; reflexivity.
Qed.

(** ** The decoder on known byte sequences *)

Example toString_two_bytes : Buffer.toString [0xC3; 0xA9] = [0xE9].
Proof. reflexivity. Qed.

Example toString_three_bytes : Buffer.toString [0xE2; 0x82; 0xAC] = [0x20AC].
Proof. reflexivity. Qed.

Example toString_four_bytes :
  Buffer.toString [0xF0; 0x9F; 0x98; 0x80] = [0xD83D; 0xDE00].
Proof. reflexivity. Qed.

Example from_surrogate_pair :
  Buffer.from [0xD83D; 0xDE00] = [0xF0; 0x9F; 0x98; 0x80].
Proof. reflexivity. Qed.

Example from_lone_surrogate : Buffer.from [0xD83D] = [0xEF; 0xBF; 0xBD].
Proof. reflexivity. Qed.

Example toString_cut_after_lead : Buffer.toString [0x61; 0xC3] = [0x61; 0xFFFD].
Proof. reflexivity. Qed.

Example toString_cut_in_three_bytes : Buffer.toString [0xE2; 0x82] = [0xFFFD].
Proof. reflexivity. Qed.

Example toString_stray_continuation :
  Buffer.toString [0x80; 0x61] = [0xFFFD; 0x61].
Proof. reflexivity. Qed.

(** ** The scenario of three events *)

(** Three events logged to stream "s1" with timestamps 300, 100, 200, then
    one awaited flush: one batch, in timestamp order. *)
Example scenario_three_events :
  let e300 := mkLog 300 [97] in
  let e100 := mkLog 100 [98] in
  let e200 := mkLog 200 [99] in
  let log := CloudWatchLogger.log CloudWatchLogger.ActClip "g" "s1" in
  let w3 := snd (log e200 (snd (log e100 (snd (log e300 empty_Engine))))) in
  bufferedLogs w3 = [(key_of "g" "s1", [e300; e100; e200])] /\
  CloudWatchLogger.flush accepting 2 w3
  = (Returned tt,
     mkEngine [("g"%string, ["s1"%string])] [(key_of "g" "s1", [])]
       [CreateLogGroupCommand "g";
        CreateLogStreamCommand "g" "s1";
        PutLogEventsCommand "g" "s1" [e100; e200; e300]]
       [] [] []).
Proof. split; reflexivity. Qed.

(** ** The retry loop of the class comes to an end *)

Lemma retry_loop_terminates (remote : Remote) (fuel : nat) (half : Z)
    (error : Thrown) (g s : string) (cur : list Log) (w : Engine) :
  (1 <= Z.to_nat half)%nat ->
  (List.length cur <= fuel * Z.to_nat half)%nat ->
  fst (CloudWatchLogger.retry_loop remote fuel half error g s cur w) <> OutOfFuel.
Proof.
  intros Hh. revert cur w. induction fuel as [|fuel IH]; intros cur w Hlen.
  - destruct cur; [discriminate | cbn in Hlen; lia].
  - destruct cur as [|l cur]; [discriminate|].
    cbn [CloudWatchLogger.retry_loop]. rewrite splice0_integer.
    set (partial := if instanceof error InvalidParameterException then _ else _).
    destruct (putEventLogs_Sends remote g s partial w) as (d & _ & _ & N).
    unfold bind.
    destruct (CloudWatchLogger.putEventLogs remote g s partial w) as [[[]|e|] w1];
      cbn [fst] in *; [|discriminate|contradiction].
    apply IH. rewrite length_skipn. cbn [Nat.mul] in Hlen. lia.
Qed.

(** Whatever the sink answers, two turns of the loop are enough. *)
Lemma flush_entry_terminates (remote : Remote) (fuel : nat) (entry : Entry) (w : Engine) :
  (2 <= fuel)%nat ->
  fst (CloudWatchLogger.flush_entry remote fuel entry w) <> OutOfFuel.
Proof.
  intros Hfuel. destruct entry as [[g s] logs]. unfold CloudWatchLogger.flush_entry.
  unfold try_catch at 1.
  match goal with
  | |- fst (match ?body with _ => _ end) <> _ =>
      assert (N : fst body <> OutOfFuel); [|destruct body as [[[]|e|] w1]]
  end.
  - unfold try_catch.
    destruct (putEventLogs_Sends remote g s logs w) as (d & _ & _ & N).
    destruct (CloudWatchLogger.putEventLogs remote g s logs w) as [[[]|e|] w1];
      cbn [fst] in *; [discriminate| |contradiction].
    unfold bind, console_error, CloudWatchLogger.logError, send_detached, modify.
    destruct logs as [|l logs]; [discriminate|].
    apply retry_loop_terminates.
    + rewrite Qceiling_half. cbn [List.length].
      assert (1 <= (Z.of_nat (S (List.length logs)) + 1) / 2)
        by (apply Z.div_le_lower_bound; lia).
      lia.
    + rewrite Qceiling_half.
      set (n := List.length (l :: logs)).
      assert (Z.of_nat n <= 2 * ((Z.of_nat n + 1) / 2)).
      { pose proof (Z.div_mod (Z.of_nat n + 1) 2 ltac:(lia)).
        pose proof (Z.mod_pos_bound (Z.of_nat n + 1) 2 ltac:(lia)). lia. }
      assert (0 <= (Z.of_nat n + 1) / 2) by (apply Z.div_pos; lia).
      nia.
  - discriminate.
  - discriminate.
  - cbn [fst] in N. contradiction.
Qed.

(** The retry of part_002 on the four events: the first two are attempted,
    the failure is thrown on, the last two are not attempted. *)
Example Part002_retry_split_four_events :
  Part002.retry_split rejecting_batches (Some (mkClientConfig "me-south-1" None)) 4
    "g" "s" four_events empty_Engine
  = (Threw (new_Error "Put Log Events Failed"
              (Some (mkThrown OtherServiceException "ServiceUnavailableException"
                              "unavailable" None))),
     mkEngine [("g"%string, ["s"%string])] []
       [CreateLogGroupCommand "g";
        CreateLogStreamCommand "g" "s";
        PutLogEventsCommand "g" "s" [mkLog 1 [97]; mkLog 2 [98]]]
       [] [] []).
Proof. reflexivity. Qed.

(* ================================================================== *)
(** * Further properties of the code *)

(** ** Looking up after [set] *)

Lemma map_get_set_same {V} (k : string) (v : V) (m : JsMap V) :
  map_get k (map_set k v m) = Some v.
Proof.
  induction m as [|[k1 v1] m IH]; cbn.
  - now rewrite String.eqb_refl.
  - destruct (String.eqb_spec k k1) as [->|Hne]; cbn.
    + now rewrite String.eqb_refl.
    + destruct (String.eqb_spec k k1); [contradiction | exact IH].
Qed.

Lemma map_get_set_other {V} (k k' : string) (v : V) (m : JsMap V) :
  k' <> k -> map_get k' (map_set k v m) = map_get k' m.
Proof.
  intros Hne. induction m as [|[k1 v1] m IH]; cbn.
  - destruct (String.eqb_spec k' k); [contradiction | reflexivity].
  - destruct (String.eqb_spec k k1) as [->|Hk]; cbn.
    + destruct (String.eqb_spec k' k1); [contradiction | reflexivity].
    + destruct (String.eqb_spec k' k1); [reflexivity | exact IH].
Qed.

Lemma map_get_In {V} (k : string) (v : V) (m : JsMap V) :
  map_get k m = Some v -> In (k, v) m.
Proof.
  induction m as [|[k1 v1] m IH]; cbn; [discriminate|].
  destruct (String.eqb_spec k k1) as [->|_].
  - intros E. inversion E. now left.
  - intros E. right. now apply IH.
Qed.

Lemma map_get_None {V} (k : string) (m : JsMap V) :
  map_get k m = None <-> ~ In k (keys m).
Proof.
  induction m as [|[k1 v1] m IH]; cbn; [tauto|].
  destruct (String.eqb_spec k k1) as [->|Hne].
  - split; [discriminate | tauto].
  - rewrite IH. split; [intros H [E|Hin]; [now subst | tauto] | tauto].
Qed.

Lemma keys_map_set {V} (k : string) (v : V) (m : JsMap V) :
  keys (map_set k v m) = if map_has k m then keys m else keys m ++ [k].
Proof.
  unfold map_has, keys. induction m as [|[k1 v1] m IH]; cbn; [reflexivity|].
  destruct (String.eqb_spec k k1) as [->|Hne]; cbn; [reflexivity|].
  rewrite IH. now destruct (map_get k m).
Qed.

Lemma well_formed_map_set {V} (k : string) (v : V) (m : JsMap V) :
  well_formed m -> well_formed (map_set k v m).
Proof.
  unfold well_formed. intros H. rewrite keys_map_set. unfold map_has.
  destruct (map_get k m) eqn:E; [exact H|].
  apply map_get_None in E.
  apply NoDup_app; [exact H | repeat constructor; intros [] |].
  intros x Hx [<-|[]]. contradiction.
Qed.

(** ** [pushLog] *)

Lemma pushLog_eq (g s : string) (log : Log) (b : Buffers) :
  pushLog g s log b = map_set (key_of g s) (buffer_of b g s ++ [log]) b
  \/ (map_get (key_of g s) b = None /\
      pushLog g s log b
      = map_set (key_of g s) [log] (map_set (key_of g s) [] b)).
Proof.
  unfold pushLog, buffer_of, map_has.
  destruct (map_get (key_of g s) b) eqn:E.
  - left. now rewrite E.
  - right. split; [reflexivity|]. now rewrite map_get_set_same.
Qed.

(** [pushLog] appends the event to the buffer of its destination, which it
    creates when there is none, leaves every other buffer as it was, and
    keeps the keys of the map distinct. *)
Theorem pushLog_appends (g s : string) (log : Log) (b : Buffers) :
  buffer_of (pushLog g s log b) g s = buffer_of b g s ++ [log] /\
  (forall k, k <> key_of g s -> map_get k (pushLog g s log b) = map_get k b) /\
  (well_formed b -> well_formed (pushLog g s log b)).
Proof.
  destruct (pushLog_eq g s log b) as [E|[En E]]; rewrite E.
  - split; [|split].
    + unfold buffer_of at 1. now rewrite map_get_set_same.
    + intros k Hk. now apply map_get_set_other.
    + apply well_formed_map_set.
  - split; [|split].
    + unfold buffer_of. now rewrite map_get_set_same, En.
    + intros k Hk. now rewrite !map_get_set_other.
    + intros H. now apply well_formed_map_set, well_formed_map_set.
Qed.

Lemma pushLog_appends_witness :
  let b := [(key_of "g" "s", [mkLog 1 [97]])] in
  well_formed b /\
  well_formed (pushLog "g" "t" (mkLog 2 [98]) b) /\
  buffer_of (pushLog "g" "s" (mkLog 2 [98]) b) "g" "s" = [mkLog 1 [97]; mkLog 2 [98]].
Proof.
  cbv zeta.
  assert (Hwf : well_formed [(key_of "g" "s", [mkLog 1 [97]])]).
  { unfold well_formed. cbn. repeat constructor. intros []. }
  split; [exact Hwf|]. split.
  - exact (proj2 (proj2 (pushLog_appends "g" "t" (mkLog 2 [98]) _)) Hwf).
  - exact (proj1 (pushLog_appends "g" "s" (mkLog 2 [98]) _)).
Defined.

(** ** Destinations and keys *)

Lemma append_assoc (a b c : string) :
  String.append (String.append a b) c = String.append a (String.append b c).
Proof. induction a as [|x a IH]; cbn; [reflexivity | now rewrite IH]. Qed.

Lemma split_from_prefix (g rest : string) :
  separator_free g ->
  split_from SEP 0 (String.append g (String.append SEP rest)) = (g, split SEP rest).
Proof.
  unfold separator_free. intros Hg. induction g as [|c g IH].
  - unfold split, SEP. cbn.
    replace (String.prefix "" rest) with true by (now destruct rest).
    now destruct (split_from "{::}" 0 rest).
  - cbn [includes] in Hg. apply orb_false_elim in Hg as [Hp Hi].
    cbn [String.append split_from].
    rewrite (prefix_SEP_straddle c g rest Hp), (IH Hi). reflexivity.
Qed.

(** Two destinations whose names are free of the separator have the same
    key only when they are the same destination: they never share a
    buffer. *)
Theorem key_of_injective (g s g' s' : string) :
  separator_free g -> separator_free s ->
  separator_free g' -> separator_free s' ->
  key_of g s = key_of g' s' -> g = g' /\ s = s'.
Proof.
  intros Hg Hs Hg' Hs' E.
  pose proof (split_key_key_of g s Hg Hs) as E1.
  pose proof (split_key_key_of g' s' Hg' Hs') as E2.
  rewrite E, E2 in E1. now inversion E1.
Qed.

Lemma key_of_injective_witness :
  separator_free "g" /\ separator_free "s{:}" /\
  (key_of "g" "s{:}" = key_of "g" "s{:}" -> "g"%string = "g"%string /\ "s{:}"%string = "s{:}"%string).
Proof.
  assert (Hg : separator_free "g") by reflexivity.
  assert (Hs : separator_free "s{:}") by reflexivity.
  split; [exact Hg|]. split; [exact Hs|].
  exact (key_of_injective "g" "s{:}" "g" "s{:}" Hg Hs Hg Hs).
Defined.

(** A stream name that holds the separator: the destination shares its key,
    and so its buffer, with the destination whose group name ends where the
    stream name began, and what the drain reads back from the key is the
    stream name cut at the separator. *)
Theorem key_of_collides (g s1 s2 : string) :
  separator_free g -> separator_free s1 ->
  let stream := String.append s1 (String.append SEP s2) in
  let group := String.append g (String.append SEP s1) in
  key_of g stream = key_of group s2 /\
  (forall log b, pushLog g stream log b = pushLog group s2 log b) /\
  split_key (key_of g stream) = (g, s1).
Proof.
  intros Hg Hs1. cbv zeta.
  assert (E : key_of g (String.append s1 (String.append SEP s2))
              = key_of (String.append g (String.append SEP s1)) s2).
  { unfold key_of. now rewrite !append_assoc. }
  split; [exact E|]. split.
  - intros log b. unfold pushLog. now rewrite E.
  - unfold split_key, split, key_of. rewrite (split_from_prefix g _ Hg).
    unfold split. rewrite (split_from_prefix s1 s2 Hs1). reflexivity.
Qed.

Lemma key_of_collides_witness :
  separator_free "a" /\ separator_free "b" /\
  key_of "a" "b{::}c" = key_of "a{::}b" "c" /\
  split_key (key_of "a" "b{::}c") = ("a"%string, "b"%string).
Proof.
  assert (Ha : separator_free "a") by reflexivity.
  assert (Hb : separator_free "b") by reflexivity.
  split; [exact Ha|]. split; [exact Hb|].
  destruct (key_of_collides "a" "b" "c" Ha Hb) as (E & _ & S).
  split; [exact E | exact S].
Defined.

(** ** Pushing, then draining *)

Lemma getOrderedLogs_fst_fold (l : Buffers) (all : list Entry) (cur : Buffers) :
  fst (fold_left
         (fun (acc : list Entry * Buffers) (kv : string * list Log) =>
            let (all, cur) := acc in
            let (key, value) := kv in
            let (streamGroup, streamName) := split_key key in
            (all ++ [(streamGroup, streamName, sort_by_timestamp value)],
             map_set key [] cur))
         l (all, cur))
  = all ++ List.map drained l.
Proof.
  revert all cur. induction l as [|[k v] l IH]; intros all cur.
  - cbn. now rewrite app_nil_r.
  - cbn [fold_left]. destruct (split_key k) as [g s] eqn:Ek. rewrite IH.
    cbn [List.map]. unfold drained at 2. cbn [fst snd]. rewrite Ek. cbn [fst snd].
    now rewrite <- app_assoc.
Qed.

(** The entries of a drain, whether or not the keys are distinct. *)
Lemma getOrderedLogs_entries (b : Buffers) :
  fst (getOrderedLogs b) = List.map drained b.
Proof. unfold getOrderedLogs. exact (getOrderedLogs_fst_fold b [] b). Qed.

Lemma pushLog_present (g s : string) (log : Log) (b : Buffers) :
  map_get (key_of g s) (pushLog g s log b) = Some (buffer_of b g s ++ [log]).
Proof.
  destruct (pushLog_eq g s log b) as [E|[En E]]; rewrite E.
  - apply map_get_set_same.
  - rewrite map_get_set_same. unfold buffer_of. now rewrite En.
Qed.

Lemma pushLog_many (g s : string) (logs : list Log) (b : Buffers) :
  logs <> [] ->
  map_get (key_of g s) (fold_left (fun b log => pushLog g s log b) logs b)
  = Some (buffer_of b g s ++ logs).
Proof.
  revert b. induction logs as [|l logs IH]; intros b Hne; [contradiction|].
  cbn [fold_left]. destruct logs as [|l' logs].
  - cbn [fold_left]. apply pushLog_present.
  - rewrite IH by discriminate. unfold buffer_of at 1.
    rewrite pushLog_present. now rewrite <- app_assoc.
Qed.

Lemma drain_entry_of_buffer (g s : string) (logs : list Log) (b : Buffers) :
  separator_free g -> separator_free s ->
  map_get (key_of g s) b = Some logs ->
  In (g, s, sort_by_timestamp logs) (fst (getOrderedLogs b)).
Proof.
  intros Hg Hs Hget. rewrite getOrderedLogs_entries.
  apply in_map_iff. exists (key_of g s, logs). split.
  - unfold drained. cbn [fst snd]. now rewrite (split_key_key_of g s Hg Hs).
  - now apply map_get_In.
Qed.

(** Events pushed one after the other to a destination with names free of
    the separator all come back in the next drain, after the events the
    buffer already held, the whole in timestamp order. *)
Theorem drain_after_pushes (g s : string) (logs : list Log) (b : Buffers) :
  separator_free g -> separator_free s -> logs <> [] ->
  In (g, s, sort_by_timestamp (buffer_of b g s ++ logs))
     (fst (getOrderedLogs (fold_left (fun b log => pushLog g s log b) logs b))).
Proof.
  intros Hg Hs Hne. rewrite getOrderedLogs_entries.
  apply in_map_iff. exists (key_of g s, buffer_of b g s ++ logs). split.
  - unfold drained. cbn [fst snd]. now rewrite (split_key_key_of g s Hg Hs).
  - apply map_get_In. now apply pushLog_many.
Qed.

Lemma drain_after_pushes_witness :
  separator_free "g" /\ separator_free "s1" /\
  [mkLog 300 [97]; mkLog 100 [98]; mkLog 200 [99]] <> [] /\
  In ("g"%string, "s1"%string, [mkLog 100 [98]; mkLog 200 [99]; mkLog 300 [97]])
     (fst (getOrderedLogs
             (fold_left (fun b log => pushLog "g" "s1" log b)
                        [mkLog 300 [97]; mkLog 100 [98]; mkLog 200 [99]] []))).
Proof.
  assert (Hg : separator_free "g") by reflexivity.
  assert (Hs : separator_free "s1") by reflexivity.
  assert (Hne : [mkLog 300 [97]; mkLog 100 [98]; mkLog 200 [99]] <> []) by discriminate.
  split; [exact Hg|]. split; [exact Hs|]. split; [exact Hne|].
  exact (drain_after_pushes "g" "s1" _ [] Hg Hs Hne).
Defined.

(** ** A buffer already in order *)

Lemma sort_by_timestamp_of_ascending (l : list Log) :
  ascending l -> sort_by_timestamp l = l.
Proof.
  intros H. apply stable_ascending_unique;
    [apply sort_by_timestamp_ascending | exact H |].
  intros t. symmetry. apply sort_by_timestamp_ties.
Qed.

(** Events that were logged in timestamp order are handed to the sink in
    the order they were logged: the drain returns such a buffer as it is. *)
Theorem drain_keeps_ascending_buffer (key : string) (logs : list Log) (b : Buffers) :
  ascending logs -> In (key, logs) b ->
  In (fst (split_key key), snd (split_key key), logs) (fst (getOrderedLogs b)).
Proof.
  intros Hasc Hin. rewrite getOrderedLogs_entries.
  apply in_map_iff. exists (key, logs). split; [|exact Hin].
  unfold drained. cbn [fst snd]. now rewrite (sort_by_timestamp_of_ascending logs Hasc).
Qed.

Lemma drain_keeps_ascending_buffer_witness :
  let logs := [mkLog 1 [97]; mkLog 1 [98]; mkLog 5 [99]] in
  ascending logs /\
  In ("g"%string, "s"%string, logs) (fst (getOrderedLogs [(key_of "g" "s", logs)])).
Proof.
  cbv zeta.
  assert (Hasc : ascending [mkLog 1 [97]; mkLog 1 [98]; mkLog 5 [99]]).
  { unfold ascending. repeat constructor; cbn; lia. }
  split; [exact Hasc|].
  exact (drain_keeps_ascending_buffer (key_of "g" "s") _ [(key_of "g" "s", _)]
           Hasc (or_introl eq_refl)).
Defined.

(** ** Constructing a [Logger] *)

(** [new Logger(group, stream)] sets the buffer of its destination to an
    empty array whatever it holds: events logged for the destination before
    (through [addLog] or an earlier [Logger]) and not yet drained, which
    the next drain would have returned, are gone, and the next drain
    returns the destination with no events.  The other buffers are as they
    were. *)
Theorem new_Logger_drops_buffered_events (g s : string) (logs : list Log) (w : Engine) :
  separator_free g -> separator_free s -> logs <> [] ->
  let b := fold_left (fun b log => pushLog g s log b) logs (bufferedLogs w) in
  let w' := snd (Part002.new_Logger g s (with_bufferedLogs b w)) in
  In (g, s, sort_by_timestamp (buffer_of (bufferedLogs w) g s ++ logs))
     (fst (getOrderedLogs b)) /\
  map_get (key_of g s) (bufferedLogs w') = Some [] /\
  In (g, s, []) (fst (getOrderedLogs (bufferedLogs w'))) /\
  (forall k, k <> key_of g s -> map_get k (bufferedLogs w') = map_get k b) /\
  keys (bufferedLogs w') = keys b.
Proof.
  intros Hg Hs Hne. cbv zeta. unfold Part002.new_Logger.
  cbn [snd bufferedLogs with_bufferedLogs].
  pose proof (pushLog_many g s logs (bufferedLogs w) Hne) as Hget.
  split; [now apply drain_entry_of_buffer|].
  split; [apply map_get_set_same|]. split; [|split].
  - change (@nil Log) with (sort_by_timestamp []).
    apply drain_entry_of_buffer; [exact Hg | exact Hs | apply map_get_set_same].
  - intros k Hk. now apply map_get_set_other.
  - rewrite keys_map_set. unfold map_has. now rewrite Hget.
Qed.

Lemma new_Logger_drops_buffered_events_witness :
  let logs := [mkLog 1 [97]; mkLog 2 [98]] in
  let b := fold_left (fun b log => pushLog "g" "s" log b) logs [] in
  separator_free "g" /\ separator_free "s" /\ logs <> [] /\
  b = [(key_of "g" "s", logs)] /\
  bufferedLogs (snd (Part002.new_Logger "g" "s" (with_bufferedLogs b empty_Engine)))
  = [(key_of "g" "s", [])] /\
  In ("g"%string, "s"%string, [])
     (fst (getOrderedLogs
             (bufferedLogs
                (snd (Part002.new_Logger "g" "s" (with_bufferedLogs b empty_Engine)))))).
Proof.
  cbv zeta.
  assert (Hg : separator_free "g") by reflexivity.
  assert (Hs : separator_free "s") by reflexivity.
  assert (Hne : [mkLog 1 [97]; mkLog 2 [98]] <> []) by discriminate.
  split; [exact Hg|]. split; [exact Hs|]. split; [exact Hne|].
  split; [reflexivity|]. split; [reflexivity|].
  exact (proj1 (proj2 (proj2 (new_Logger_drops_buffered_events "g" "s" _ empty_Engine
                                Hg Hs Hne)))).
Defined.

(** ** The timer callback *)

Lemma existsb_non_empty_false (b : Buffers) :
  existsb (fun kv => negb (Nat.eqb (List.length (snd kv)) 0)) b = false ->
  forall k v, In (k, v) b -> v = [].
Proof.
  intros H k v Hin.
  destruct v as [|x v]; [reflexivity|].
  exfalso. apply Bool.not_true_iff_false in H. apply H.
  apply existsb_exists. exists (k, x :: v). split; [exact Hin | reflexivity].
Qed.

(** After the timer callback has run every buffer is empty: either all
    were empty, and then nothing at all has changed, or the whole map was
    drained into one background flush that carries every event. *)
Theorem intervalCallback_leaves_buffers_empty (w : Engine) :
  well_formed (bufferedLogs w) ->
  let w' := intervalCallback w in
  (forall k v, In (k, v) (bufferedLogs w') -> v = []) /\
  keys (bufferedLogs w') = keys (bufferedLogs w) /\
  ((forall k v, In (k, v) (bufferedLogs w) -> v = []) -> w' = w) /\
  (w' = w \/ flushes w' = flushes w ++ [List.map drained (bufferedLogs w)]).
Proof.
  intros Hwf. cbv zeta. unfold intervalCallback.
  destruct (existsb _ (bufferedLogs w)) eqn:E.
  - unfold flush_detached. rewrite (getOrderedLogs_eq _ Hwf).
    cbn [bufferedLogs with_flushes with_bufferedLogs flushes].
    split; [|split; [|split]].
    + intros k v Hin. apply in_map_iff in Hin as [kv [Ekv _]].
      unfold emptied in Ekv. now inversion Ekv.
    + unfold keys. now rewrite map_map.
    + intros Hall. exfalso. apply existsb_exists in E as [[k v] [Hin Hne]].
      rewrite (Hall k v Hin) in Hne. discriminate Hne.
    + now right.
  - split; [exact (existsb_non_empty_false _ E)|]. split; [reflexivity|].
    split; [reflexivity | now left].
Qed.

Lemma intervalCallback_leaves_buffers_empty_witness :
  let w := with_bufferedLogs [(key_of "g" "s", [mkLog 2 [97]; mkLog 1 [98]]);
                              (key_of "g" "t", [])] empty_Engine in
  well_formed (bufferedLogs w) /\
  bufferedLogs (intervalCallback w) = [(key_of "g" "s", []); (key_of "g" "t", [])] /\
  (forall k v, In (k, v) (bufferedLogs (intervalCallback w)) -> v = []).
Proof.
  cbv zeta.
  assert (Hwf : well_formed
                  (bufferedLogs
                     (with_bufferedLogs [(key_of "g" "s", [mkLog 2 [97]; mkLog 1 [98]]);
                                         (key_of "g" "t", [])] empty_Engine))).
  { unfold well_formed. cbn. repeat constructor; cbn; intuition discriminate. }
  split; [exact Hwf|]. split; [reflexivity|].
  exact (proj1 (intervalCallback_leaves_buffers_empty _ Hwf)).
Defined.

(** ** The timer table *)

Lemma assign_all_snoc (vs : list Z) (v : Z) (f : FlushInterval) :
  assign_all (vs ++ [v]) f = set_value v (assign_all vs f).
Proof. unfold assign_all. now rewrite fold_left_app. Qed.

(** However often the flush interval is assigned, from the start of the
    process on, one timer is installed and no more: the one of the last
    assignment, with the delay assigned last.  No timer leaks. *)
Theorem one_timer_at_a_time (vs : list Z) (v : Z) :
  let f := assign_all (vs ++ [v]) initial_FlushInterval in
  timers f = [mkTimer (List.length vs) v] /\
  interval f = Some (List.length vs) /\
  value f = v /\
  next_timer f = S (List.length vs).
Proof.
  cbv zeta. revert v. induction vs as [|u vs IH] using rev_ind; intros v.
  - cbn. auto.
  - rewrite assign_all_snoc. destruct (IH u) as (Ht & Hi & Hv & Hn).
    destruct (set_value_timers v (assign_all (vs ++ [u]) initial_FlushInterval))
      as (Et & Ei & Ev & En).
    rewrite Et, Ei, Ev, En, Hi, Ht, Hn. rewrite length_app. cbn [List.length filter timer_id].
    rewrite Nat.eqb_refl. cbn [negb app].
    replace (List.length vs + 1)%nat with (S (List.length vs)) by lia. auto.
Qed.

(** ** [log] and the batch limits *)

Lemma size_with_overhead_app (l1 l2 : list Log) :
  size_with_overhead (l1 ++ l2) = size_with_overhead l1 + size_with_overhead l2.
Proof.
  unfold size_with_overhead. induction l1 as [|x l1 IH]; cbn [app fold_right]; lia.
Qed.

Lemma buffer_of_emptied (b : Buffers) (g s : string) :
  buffer_of (List.map emptied b) g s = [].
Proof.
  unfold buffer_of. destruct (map_get (key_of g s) (List.map emptied b)) eqn:E;
    [|reflexivity].
  apply map_get_In, in_map_iff in E as [kv [Ekv _]].
  unfold emptied in Ekv. now inversion Ekv.
Qed.

Lemma single_event_within_limits (log : Log) :
  CloudWatchLogger.logEventExceedsSize log = false -> within_batch_limits [log].
Proof.
  unfold CloudWatchLogger.logEventExceedsSize, within_batch_limits, size_with_overhead.
  rewrite MAX_EVENT_SIZE_value. cbn [List.length fold_right].
  unfold CLOUDWTACH_MAX_BUFFER_LENGTH, CLOUDWATCH_MAX_BUFFER_SIZE,
    CLOUDWATCH_FIXED_EVENT_PREFIX.
  intros H. split; lia.
Qed.

Lemma pushLog_other (g s : string) (log : Log) (b : Buffers) (k : string) :
  k <> key_of g s -> map_get k (pushLog g s log b) = map_get k b.
Proof.
  intros Hk. destruct (pushLog_eq g s log b) as [E|[_ E]]; rewrite E.
  - now apply map_get_set_other.
  - now rewrite !map_get_set_other.
Qed.

(** The limit check of the class, on an event within the single-event
    size, says what the limits say of the destination's buffer. *)
Lemma CloudWatchLogger_reachedBufferLimits_iff (b : Buffers) (g s : string) (log : Log) :
  CloudWatchLogger.logEventExceedsSize log = false ->
  (CloudWatchLogger.reachedBufferLimits b g s log = true
   <-> limit_reached (buffer_of b g s) log).
Proof.
  intros Hfit. unfold buffer_of.
  destruct (map_get (key_of g s) b) as [logs|] eqn:E.
  - rewrite CloudWatchLogger_reachedBufferLimits_eq.
    now apply Part002_reachedBufferLimits_iff.
  - unfold CloudWatchLogger.reachedBufferLimits. rewrite E.
    unfold CloudWatchLogger.logEventExceedsSize in Hfit.
    rewrite MAX_EVENT_SIZE_value in Hfit.
    unfold limit_reached, size_with_overhead. cbn [List.length fold_right].
    split; [discriminate | lia].
Qed.

(** An event within the single-event size is always accepted by [log],
    which sends and prints nothing.  When appending the event keeps the
    destination's buffer below both limits, the event is appended and
    nothing else changes.  When appending would reach a limit (10000 events,
    or 2^20 bytes with the overhead), and only then, the whole map is
    drained into one background flush that carries every buffered event,
    and the destination's buffer holds the event alone.  Either way the
    buffer is afterwards a batch the sink takes. *)
Theorem log_keeps_batch_limits (action : CloudWatchLogger.OverSizedMessageAction)
    (g s : string) (log : Log) (w : Engine) :
  well_formed (bufferedLogs w) ->
  CloudWatchLogger.logEventExceedsSize log = false ->
  let r := CloudWatchLogger.log action g s log w in
  let before := buffer_of (bufferedLogs w) g s in
  let after := buffer_of (bufferedLogs (snd r)) g s in
  fst r = None /\
  sent (snd r) = sent w /\ console_out (snd r) = console_out w /\
  (~ limit_reached before log ->
   after = before ++ [log] /\
   flushes (snd r) = flushes w /\
   forall k, k <> key_of g s ->
             map_get k (bufferedLogs (snd r)) = map_get k (bufferedLogs w)) /\
  (limit_reached before log ->
   after = [log] /\
   flushes (snd r) = flushes w ++ [List.map drained (bufferedLogs w)] /\
   forall k, k <> key_of g s ->
             map_get k (bufferedLogs (snd r))
             = map_get k (List.map emptied (bufferedLogs w))) /\
  within_batch_limits after.
Proof.
  intros Hwf Hfit. cbv zeta.
  pose proof (CloudWatchLogger_reachedBufferLimits_iff (bufferedLogs w) g s log Hfit) as Hiff.
  unfold CloudWatchLogger.log. rewrite Hfit.
  destruct (CloudWatchLogger.reachedBufferLimits (bufferedLogs w) g s log) eqn:R.
  - assert (Hl : limit_reached (buffer_of (bufferedLogs w) g s) log)
      by (now apply Hiff).
    unfold flush_detached. rewrite (getOrderedLogs_eq _ Hwf).
    cbn [fst snd bufferedLogs sent console_out flushes with_flushes with_bufferedLogs].
    assert (A : buffer_of (pushLog g s log (List.map emptied (bufferedLogs w))) g s = [log]).
    { unfold buffer_of at 1. now rewrite pushLog_present, buffer_of_emptied. }
    rewrite A.
    split; [reflexivity|]. split; [reflexivity|]. split; [reflexivity|].
    split; [intros Hn; contradiction|].
    split; [|now apply single_event_within_limits].
    intros _. split; [reflexivity|]. split; [reflexivity|].
    intros k Hk. now apply pushLog_other.
  - assert (Hn : ~ limit_reached (buffer_of (bufferedLogs w) g s) log).
    { intros Hl. apply Hiff in Hl. discriminate Hl. }
    cbn [fst snd bufferedLogs sent console_out flushes with_bufferedLogs].
    assert (A : buffer_of (pushLog g s log (bufferedLogs w)) g s
                = buffer_of (bufferedLogs w) g s ++ [log]).
    { unfold buffer_of at 1. now rewrite pushLog_present. }
    rewrite A.
    split; [reflexivity|]. split; [reflexivity|]. split; [reflexivity|].
    split; [|split; [intros Hl; contradiction|]].
    + intros _. split; [reflexivity|]. split; [reflexivity|].
      intros k Hk. now apply pushLog_other.
    + unfold limit_reached in Hn. unfold within_batch_limits.
      rewrite length_app, size_with_overhead_app. cbn [List.length].
      unfold size_with_overhead at 2. cbn [fold_right].
      unfold CLOUDWTACH_MAX_BUFFER_LENGTH, CLOUDWATCH_MAX_BUFFER_SIZE,
        CLOUDWATCH_FIXED_EVENT_PREFIX in *.
      split; lia.
Qed.

Lemma log_keeps_batch_limits_witness :
  let w := with_bufferedLogs
             [(key_of "g" "s", repeat (mkLog 0 [97]) (Z.to_nat 9999));
              (key_of "g" "t", [mkLog 1 [98]])] empty_Engine in
  let log := mkLog 2 [99; 100] in
  let r := CloudWatchLogger.log CloudWatchLogger.ActError "g" "s" log w in
  well_formed (bufferedLogs w) /\
  CloudWatchLogger.logEventExceedsSize log = false /\
  limit_reached (buffer_of (bufferedLogs w) "g" "s") log /\
  buffer_of (bufferedLogs (snd r)) "g" "s" = [log] /\
  within_batch_limits (buffer_of (bufferedLogs (snd r)) "g" "s").
Proof.
  cbv zeta.
  assert (Hwf : well_formed
                  (bufferedLogs
                     (with_bufferedLogs
                        [(key_of "g" "s", repeat (mkLog 0 [97]) (Z.to_nat 9999));
                         (key_of "g" "t", [mkLog 1 [98]])] empty_Engine))).
  { unfold well_formed. cbn [bufferedLogs with_bufferedLogs keys List.map fst].
    repeat constructor; cbn; intuition discriminate. }
  assert (Hfit : CloudWatchLogger.logEventExceedsSize (mkLog 2 [99; 100]) = false)
    by reflexivity.
  assert (Hl : limit_reached
                 (buffer_of
                    (bufferedLogs
                       (with_bufferedLogs
                          [(key_of "g" "s", repeat (mkLog 0 [97]) (Z.to_nat 9999));
                           (key_of "g" "t", [mkLog 1 [98]])] empty_Engine)) "g" "s")
                 (mkLog 2 [99; 100])).
  { left. cbn [bufferedLogs with_bufferedLogs]. unfold buffer_of.
    cbn [map_get key_of]. rewrite String.eqb_refl, repeat_length. lia. }
  split; [exact Hwf|]. split; [exact Hfit|]. split; [exact Hl|].
  destruct (log_keeps_batch_limits CloudWatchLogger.ActError "g" "s"
              (mkLog 2 [99; 100]) _ Hwf Hfit) as (_ & _ & _ & _ & Hfull & Hok).
  split; [exact (proj1 (Hfull Hl)) | exact Hok].
Defined.

(** Under the clip policy an oversized message of ASCII text is buffered
    as its first 262118 characters, which are 262118 bytes and no longer
    oversized; [log] returns no error. *)
Theorem log_clips_ascii_to_the_limit (g s : string) (log : Log) (w : Engine) :
  ascii_text (message log) ->
  CloudWatchLogger.logEventExceedsSize log = true ->
  let r := CloudWatchLogger.log CloudWatchLogger.ActClip g s log w in
  let clipped := mkLog (timestamp log)
                       (firstn (Z.to_nat CLOUDWATCH_MAX_EVENT_SIZE) (message log)) in
  fst r = None /\
  (exists before, buffer_of (bufferedLogs (snd r)) g s = before ++ [clipped]) /\
  Buffer.byteLength (message clipped) = CLOUDWATCH_MAX_EVENT_SIZE /\
  CloudWatchLogger.logEventExceedsSize clipped = false.
Proof.
  intros Hascii Hbig. cbv zeta. rewrite (log_oversized _ g s log w Hbig).
  cbn [fst snd bufferedLogs with_bufferedLogs message].
  rewrite (clip_message_ascii _ Hascii).
  assert (Hlen : Buffer.byteLength
                   (firstn (Z.to_nat CLOUDWATCH_MAX_EVENT_SIZE) (message log))
                 = CLOUDWATCH_MAX_EVENT_SIZE).
  { rewrite <- (clip_message_ascii _ Hascii).
    apply clip_message_ascii_length; [exact Hascii|].
    unfold CloudWatchLogger.logEventExceedsSize in Hbig. lia. }
  split; [reflexivity|]. split; [|split].
  - eexists. unfold buffer_of at 1. rewrite pushLog_present. reflexivity.
  - exact Hlen.
  - unfold CloudWatchLogger.logEventExceedsSize. cbn [message]. rewrite Hlen. lia.
Qed.

Lemma log_clips_ascii_to_the_limit_witness :
  let log := mkLog 3 (repeat 97 (Z.to_nat 300000)) in
  ascii_text (message log) /\
  CloudWatchLogger.logEventExceedsSize log = true /\
  fst (CloudWatchLogger.log CloudWatchLogger.ActClip "g" "s" log empty_Engine) = None.
Proof.
  cbv zeta.
  assert (Ha : ascii_text (message (mkLog 3 (repeat 97 (Z.to_nat 300000)))))
    by (apply ascii_repeat; lia).
  assert (Hb : CloudWatchLogger.logEventExceedsSize
                 (mkLog 3 (repeat 97 (Z.to_nat 300000))) = true).
  { unfold CloudWatchLogger.logEventExceedsSize. cbn [message].
    rewrite byteLength_repeat by lia. rewrite Z2Nat.id by lia. reflexivity. }
  split; [exact Ha|]. split; [exact Hb|].
  exact (proj1 (log_clips_ascii_to_the_limit "g" "s" _ empty_Engine Ha Hb)).
Defined.

(** ** Flushing with nothing buffered *)

Lemma emptied_all_empty (b : Buffers) : all_empty b -> List.map emptied b = b.
Proof.
  induction b as [|[k v] b IH]; intros H; [reflexivity|].
  cbn [List.map]. unfold emptied at 1. cbn [fst].
  rewrite (H k v (or_introl eq_refl)), IH; [reflexivity|].
  intros k' v' Hin. exact (H k' v' (or_intror Hin)).
Qed.

Lemma with_bufferedLogs_same (w : Engine) : with_bufferedLogs (bufferedLogs w) w = w.
Proof. now destruct w. Qed.

Lemma CloudWatchLogger_flush_empty_entries (remote : Remote) (fuel : nat)
    (b : Buffers) (w : Engine) :
  all_empty b ->
  CloudWatchLogger._flush remote fuel (List.map drained b) w = (Returned tt, w).
Proof.
  induction b as [|[k v] b IH]; intros H; [reflexivity|].
  cbn [List.map CloudWatchLogger._flush]. unfold drained at 1. cbn [fst snd].
  rewrite (H k v (or_introl eq_refl)). cbn. apply IH.
  intros k' v' Hin. exact (H k' v' (or_intror Hin)).
Qed.

Lemma Part002_flush_empty_entries (remote : Remote) (client : option ClientConfig)
    (Date_now : Engine -> Z) (JSON_stringify : string -> Thrown -> option Entry -> JsString)
    (fuel : nat) (b : Buffers) (w : Engine) :
  all_empty b ->
  Part002._flush remote client Date_now JSON_stringify fuel (List.map drained b) w
  = (Returned tt, w).
Proof.
  intros H. destruct fuel as [|fuel]; cbn [Part002._flush];
    (induction b as [|[k v] b IH]; [reflexivity|];
     cbn [List.map]; unfold drained at 1; cbn [fst snd];
     rewrite (H k v (or_introl eq_refl)); cbn; apply IH;
     intros k' v' Hin; exact (H k' v' (or_intror Hin))).
Qed.

(** A flush with nothing buffered is a no-op: when every buffer is empty,
    [flush] sends nothing, prints nothing, changes nothing and returns,
    whatever the sink and without an initialised client; so it is for the
    class and for part_002. *)
Theorem flush_of_empty_buffers_is_noop (remote : Remote) (fuel : nat) (w : Engine)
    (Date_now : Engine -> Z) (JSON_stringify : string -> Thrown -> option Entry -> JsString) :
  well_formed (bufferedLogs w) -> all_empty (bufferedLogs w) ->
  CloudWatchLogger.flush remote fuel w = (Returned tt, w) /\
  Part002.flush remote None Date_now JSON_stringify fuel w = (Returned tt, w).
Proof.
  intros Hwf He.
  unfold CloudWatchLogger.flush, Part002.flush, Part002.flush_with.
  rewrite (getOrderedLogs_eq _ Hwf), (emptied_all_empty _ He), with_bufferedLogs_same.
  split; [now apply CloudWatchLogger_flush_empty_entries
         | now apply Part002_flush_empty_entries].
Qed.

Lemma flush_of_empty_buffers_is_noop_witness :
  let w := with_bufferedLogs [(key_of "g" "s", []); (key_of "g" "t", [])] empty_Engine in
  well_formed (bufferedLogs w) /\ all_empty (bufferedLogs w) /\
  CloudWatchLogger.flush access_denied 0 w = (Returned tt, w).
Proof.
  cbv zeta.
  assert (Hwf : well_formed
                  (bufferedLogs (with_bufferedLogs
                                   [(key_of "g" "s", []); (key_of "g" "t", [])]
                                   empty_Engine))).
  { unfold well_formed. cbn. repeat constructor; cbn; intuition discriminate. }
  assert (He : all_empty
                 (bufferedLogs (with_bufferedLogs
                                  [(key_of "g" "s", []); (key_of "g" "t", [])]
                                  empty_Engine))).
  { intros k v [E|[E|[]]]; now inversion E. }
  split; [exact Hwf|]. split; [exact He|].
  exact (proj1 (flush_of_empty_buffers_is_noop access_denied 0 _
                  (fun _ => 0) (fun _ _ _ => []) Hwf He)).
Defined.

(** ** [_flush] never fails *)

Lemma Keeps_ret {A} (a : A) : Keeps (ret a).
Proof. intros w. cbn. auto. Qed.

Lemma Keeps_bind {A B} (m : M A) (k : A -> M B) :
  Keeps m -> (forall a, Keeps (k a)) -> Keeps (bind m k).
Proof.
  intros Hm Hk w. destruct (Hm w) as (B1 & F1 & I1). unfold bind.
  destruct (m w) as [[a|e|] w1]; cbn [snd] in *; auto.
  destruct (Hk a w1) as (B2 & F2 & I2). rewrite B2, F2, I2. auto.
Qed.

Lemma Keeps_try_catch {A} (m : M A) (h : Thrown -> M A) :
  Keeps m -> (forall e, Keeps (h e)) -> Keeps (try_catch m h).
Proof.
  intros Hm Hh w. destruct (Hm w) as (B1 & F1 & I1). unfold try_catch.
  destruct (m w) as [[a|e|] w1]; cbn [snd] in *; auto.
  destruct (Hh e w1) as (B2 & F2 & I2). rewrite B2, F2, I2. auto.
Qed.

Lemma Sends_Keeps {A} (P : Command -> Prop) (m : M A) : Sends P m -> Keeps m.
Proof. intros H w. destruct (H w) as (d & (B1 & _ & F1 & I1 & _) & _). auto. Qed.

Lemma Keeps_console_error (e : Thrown) : Keeps (console_error e).
Proof. intros w. cbn. auto. Qed.

Lemma Keeps_logError (remote : Remote) (report : string) (e : Thrown) :
  Keeps (CloudWatchLogger.logError remote report e).
Proof.
  intros w. unfold CloudWatchLogger.logError, send_detached, modify. cbn [snd].
  destruct (remote (sent w) (PutSelfDiagnostic report e)); cbn; auto.
Qed.

Lemma Keeps_out_of_fuel {A} : Keeps (fun w => (@OutOfFuel A, w)).
Proof. intros w. cbn. auto. Qed.

Lemma Keeps_retry_loop (remote : Remote) (fuel : nat) (half : Z) (error : Thrown)
    (g s : string) (logs : list Log) :
  Keeps (CloudWatchLogger.retry_loop remote fuel half error g s logs).
Proof.
  revert logs. induction fuel as [|fuel IH]; intros logs.
  - destruct logs; [apply Keeps_ret | apply Keeps_out_of_fuel].
  - destruct logs as [|l logs]; [apply Keeps_ret|].
    cbn [CloudWatchLogger.retry_loop]. rewrite splice0_integer.
    apply Keeps_bind; [|intros _; apply IH].
    eapply Sends_Keeps. apply putEventLogs_Sends.
Qed.

Lemma Keeps_flush_entry (remote : Remote) (fuel : nat) (entry : Entry) :
  Keeps (CloudWatchLogger.flush_entry remote fuel entry).
Proof.
  destruct entry as [[g s] logs]. unfold CloudWatchLogger.flush_entry.
  apply Keeps_try_catch.
  - apply Keeps_try_catch.
    + eapply Sends_Keeps. apply putEventLogs_Sends.
    + intros e. apply Keeps_bind; [apply Keeps_console_error|]. intros _.
      apply Keeps_bind; [apply Keeps_logError|]. intros _.
      destruct logs; [apply Keeps_ret | apply Keeps_retry_loop].
  - intros e. apply Keeps_bind; [apply Keeps_console_error|]. intros _.
    apply Keeps_logError.
Qed.

Lemma flush_entry_returns (remote : Remote) (fuel : nat) (entry : Entry) (w : Engine) :
  (2 <= fuel)%nat ->
  fst (CloudWatchLogger.flush_entry remote fuel entry w) = Returned tt.
Proof.
  intros Hfuel. pose proof (flush_entry_terminates remote fuel entry w Hfuel) as N.
  destruct entry as [[g s] logs]. unfold CloudWatchLogger.flush_entry in *.
  unfold try_catch at 1 in N. unfold try_catch at 1.
  match goal with
  | |- fst (match ?body with _ => _ end) = _ => destruct body as [[[]|e|] w1]
  end; cbn [fst] in *; [reflexivity | reflexivity | contradiction].
Qed.

(** ** A flush that succeeds *)

Lemma map_has_set {V} (k : string) (v : V) (m : JsMap V) :
  map_has k (map_set k v m) = true.
Proof. unfold map_has. now rewrite map_get_set_same. Qed.

Lemma registry_includes_push (g s : string) (m : JsMap (list string)) :
  map_has g m = true -> registry_includes g s (registry_push g s m) = true.
Proof.
  unfold map_has, registry_includes, registry_push.
  destruct (map_get g m) as [streams|] eqn:E; [intros _|discriminate].
  rewrite map_get_set_same, existsb_app. cbn. rewrite String.eqb_refl.
  now rewrite orb_true_r.
Qed.

Lemma batches_app (c1 c2 : list Command) : batches (c1 ++ c2) = batches c1 ++ batches c2.
Proof. apply filter_app. Qed.

Lemma batches_none (d : list Command) :
  Forall (fun c => is_batch c = false) d -> batches d = [].
Proof.
  induction 1 as [|c d Hc _ IH]; [reflexivity|]. cbn. now rewrite Hc.
Qed.

Section Creations.
Variable remote : Remote.
Hypothesis Hcreate : accepts_creations remote.

Lemma createLogGroup_accepted (g : string) (w : Engine) :
  exists d,
    fst (CloudWatchLogger.createLogGroup remote g w) = Returned tt /\
    sent_more w (snd (CloudWatchLogger.createLogGroup remote g w)) d /\
    Forall (fun c => is_batch c = false) d /\
    map_has g (logGroups (snd (CloudWatchLogger.createLogGroup remote g w))) = true.
Proof.
  unfold CloudWatchLogger.createLogGroup. destruct (map_has g (logGroups w)) eqn:E.
  - exists []. cbn. split; [reflexivity|]. split; [apply sent_more_refl|]. auto.
  - exists [CreateLogGroupCommand g].
    unfold try_catch, bind, send, modify. rewrite Hcreate by reflexivity. cbn.
    split; [reflexivity|]. split; [apply sent_more_logGroups, sent_more_send|].
    split; [repeat constructor | apply map_has_set].
Qed.

Lemma createLogStream_accepted (g s : string) (w : Engine) :
  exists d,
    fst (CloudWatchLogger.createLogStream remote g s w) = Returned tt /\
    sent_more w (snd (CloudWatchLogger.createLogStream remote g s w)) d /\
    Forall (fun c => is_batch c = false) d /\
    registry_includes g s (logGroups (snd (CloudWatchLogger.createLogStream remote g s w)))
    = true.
Proof.
  unfold CloudWatchLogger.createLogStream.
  destruct (createLogGroup_accepted g w) as (d1 & R1 & S1 & F1 & H1).
  unfold try_catch, bind.
  destruct (CloudWatchLogger.createLogGroup remote g w) as [r1 w1].
  cbn [fst snd] in *. subst r1.
  destruct (registry_includes g s (logGroups w1)) eqn:E.
  - exists d1. cbn. auto.
  - exists (d1 ++ [CreateLogStreamCommand g s]).
    unfold send, modify. rewrite Hcreate by reflexivity. cbn.
    split; [reflexivity|].
    split; [eapply sent_more_trans; [exact S1|];
            apply sent_more_logGroups, sent_more_send|].
    split; [apply Forall_app; split; [exact F1 | repeat constructor]|].
    now apply registry_includes_push.
Qed.

(** A delivery once the destination is provisioned: what is sent and how
    it ends, by the answers of the sink to the batch. *)
Lemma putEventLogs_delivery (g s : string) (logs : list Log) (w : Engine) :
  logs <> [] ->
  exists d w1,
    sent_more w w1 d /\ Forall (fun c => is_batch c = false) d /\
    let put := PutLogEventsCommand g s logs in
    let once := with_sent (sent w1 ++ [put]) w1 in
    let twice := with_sent (sent once ++ [put]) once in
    CloudWatchLogger.putEventLogs remote g s logs w =
    match remote (sent w1) put with
    | Rejected e => (Threw (new_Error "Put Log Events Failed" (Some e)), once)
    | Resolved code =>
        if code =? 200 then (Returned tt, once)
        else match remote (sent once) put with
             | Resolved _ => (Returned tt, twice)
             | Rejected e => (Threw (new_Error "Put Log Events Failed" (Some e)), twice)
             end
    end.
Proof.
  intros Hne. destruct logs as [|l logs]; [contradiction|].
  unfold CloudWatchLogger.putEventLogs.
  destruct (createLogStream_accepted g s w) as (d & R & S & F & _).
  unfold try_catch, bind.
  destruct (CloudWatchLogger.createLogStream remote g s w) as [r1 w1].
  cbn [fst snd] in *. subst r1.
  exists d, w1. split; [exact S|]. split; [exact F|]. cbv zeta. unfold send.
  destruct (remote (sent w1) (PutLogEventsCommand g s (l :: logs))) as [code|e];
    [|reflexivity].
  destruct (code =? 200); cbn [negb]; [reflexivity|].
  cbn [sent with_sent].
  destruct (remote (sent w1 ++ [PutLogEventsCommand g s (l :: logs)])
              (PutLogEventsCommand g s (l :: logs))); reflexivity.
Qed.
End Creations.

Section Accepting.
Variable remote : Remote.
Hypothesis Haccepts : accepts_everything remote.

Lemma accepts_everything_creations : accepts_creations remote.
Proof. intros history c _. apply Haccepts. Qed.

Lemma putEventLogs_accepted (g s : string) (logs : list Log) (w : Engine) :
  logs <> [] ->
  exists d,
    fst (CloudWatchLogger.putEventLogs remote g s logs w) = Returned tt /\
    sent_more w (snd (CloudWatchLogger.putEventLogs remote g s logs w))
              (d ++ [PutLogEventsCommand g s logs]) /\
    Forall (fun c => is_batch c = false) d.
Proof.
  intros Hne. destruct logs as [|l logs]; [contradiction|].
  destruct (putEventLogs_delivery remote accepts_everything_creations g s
              (l :: logs) w ltac:(discriminate)) as (d & w1 & S & F & E).
  cbv zeta in E. rewrite Haccepts in E. cbn [Z.eqb Pos.eqb] in E.
  exists d. rewrite E. cbn [fst snd].
  split; [reflexivity|]. split; [|exact F].
  eapply sent_more_trans; [exact S | apply sent_more_send].
Qed.

Lemma flush_entry_accepted (fuel : nat) (entry : Entry) (w : Engine) :
  let r := CloudWatchLogger.flush_entry remote fuel entry w in
  fst r = Returned tt /\
  batches (sent (snd r)) = batches (sent w) ++ List.map batch_of_entry (with_events [entry]) /\
  console_out (snd r) = console_out w /\
  bufferedLogs (snd r) = bufferedLogs w.
Proof.
  cbv zeta. destruct entry as [[g s] logs]. unfold CloudWatchLogger.flush_entry.
  destruct logs as [|l logs].
  - cbn. now rewrite app_nil_r.
  - destruct (putEventLogs_accepted g s (l :: logs) w ltac:(discriminate))
      as (d & R & (B & C & _ & _ & T) & F).
    unfold try_catch.
    destruct (CloudWatchLogger.putEventLogs remote g s (l :: logs) w) as [r1 w1].
    cbn [fst snd] in *. subst r1. cbn [fst snd].
    split; [reflexivity|]. split; [|auto].
    rewrite T, !batches_app, (batches_none d F). reflexivity.
Qed.

Lemma CloudWatchLogger_flush_accepted (fuel : nat) (entries : list Entry) (w : Engine) :
  let r := CloudWatchLogger._flush remote fuel entries w in
  fst r = Returned tt /\
  batches (sent (snd r)) = batches (sent w) ++ List.map batch_of_entry (with_events entries) /\
  console_out (snd r) = console_out w /\
  bufferedLogs (snd r) = bufferedLogs w.
Proof.
  cbv zeta. revert w. induction entries as [|entry rest IH]; intros w.
  - cbn. now rewrite app_nil_r.
  - cbn [CloudWatchLogger._flush]. unfold bind.
    destruct (flush_entry_accepted fuel entry w) as (R1 & T1 & C1 & B1).
    destruct (CloudWatchLogger.flush_entry remote fuel entry w) as [r1 w1].
    cbn [fst snd] in *. subst r1.
    destruct (IH w1) as (R2 & T2 & C2 & B2).
    rewrite R2, T2, C2, B2, T1, C1, B1. split; [reflexivity|]. split; [|auto].
    rewrite <- app_assoc, <- map_app. f_equal. f_equal.
    change (entry :: rest) with ([entry] ++ rest). unfold with_events.
    now rewrite filter_app.
Qed.
End Accepting.

(** When the sink accepts everything, one [flush] sends each buffer that
    holds events exactly once, as one batch, buffers in map order and the
    events of a batch in timestamp order, ties in insertion order; no
    batch is sent for an empty buffer, nothing is printed, and every buffer
    is left empty.  No event is lost and none is sent twice. *)
Theorem flush_delivers_each_buffer_once (remote : Remote) (fuel : nat) (w : Engine) :
  accepts_everything remote -> well_formed (bufferedLogs w) ->
  let r := CloudWatchLogger.flush remote fuel w in
  fst r = Returned tt /\
  batches (sent (snd r))
  = batches (sent w)
    ++ List.map batch_of_entry (with_events (List.map drained (bufferedLogs w))) /\
  all_empty (bufferedLogs (snd r)) /\
  console_out (snd r) = console_out w.
Proof.
  intros Ha Hwf. cbv zeta. unfold CloudWatchLogger.flush.
  rewrite (getOrderedLogs_eq _ Hwf).
  destruct (CloudWatchLogger_flush_accepted remote Ha fuel (List.map drained (bufferedLogs w))
              (with_bufferedLogs (List.map emptied (bufferedLogs w)) w))
    as (R & T & C & B).
  rewrite R, T, C, B. cbn [sent console_out bufferedLogs with_bufferedLogs].
  split; [reflexivity|]. split; [reflexivity|]. split; [|reflexivity].
  intros k v Hin. apply in_map_iff in Hin as [kv [E _]].
  unfold emptied in E. now inversion E.
Qed.

Lemma accepting_accepts : accepts_everything accepting.
Proof. intros history c. reflexivity. Qed.

Lemma flush_delivers_each_buffer_once_witness :
  let w := with_bufferedLogs
             [(key_of "g" "s", [mkLog 300 [97]; mkLog 100 [98]]);
              (key_of "g" "idle", []);
              (key_of "h" "t", [mkLog 5 [99]])] empty_Engine in
  accepts_everything accepting /\ well_formed (bufferedLogs w) /\
  batches (sent (snd (CloudWatchLogger.flush accepting 0 w)))
  = [PutLogEventsCommand "g" "s" [mkLog 100 [98]; mkLog 300 [97]];
     PutLogEventsCommand "h" "t" [mkLog 5 [99]]].
Proof.
  cbv zeta.
  assert (Hwf : well_formed
                  (bufferedLogs
                     (with_bufferedLogs
                        [(key_of "g" "s", [mkLog 300 [97]; mkLog 100 [98]]);
                         (key_of "g" "idle", []);
                         (key_of "h" "t", [mkLog 5 [99]])] empty_Engine))).
  { unfold well_formed. cbn. repeat constructor; cbn; intuition discriminate. }
  split; [exact accepting_accepts|]. split; [exact Hwf|].
  rewrite (proj1 (proj2 (flush_delivers_each_buffer_once accepting 0 _
                           accepting_accepts Hwf))).
  reflexivity.
Defined.

(** ** [_flush] deals with every entry *)

(** *** What [_flush] prints *)

Lemma Prints_ret {A} (a : A) : Prints_errors_only (ret a).
Proof. intros w. exists []. cbn. now rewrite app_nil_r. Qed.

Lemma Prints_out_of_fuel {A} : Prints_errors_only (fun w => (@OutOfFuel A, w)).
Proof. intros w. exists []. cbn. now rewrite app_nil_r. Qed.

Lemma Prints_bind {A B} (m : M A) (k : A -> M B) :
  Prints_errors_only m -> (forall a, Prints_errors_only (k a)) ->
  Prints_errors_only (bind m k).
Proof.
  intros Hm Hk w. destruct (Hm w) as (e1 & E1). unfold bind.
  destruct (m w) as [[a|e|] w1]; cbn [snd] in *; try (now exists e1).
  destruct (Hk a w1) as (e2 & E2). exists (e1 ++ e2).
  now rewrite E2, E1, map_app, app_assoc.
Qed.

Lemma Prints_try_catch {A} (m : M A) (h : Thrown -> M A) :
  Prints_errors_only m -> (forall e, Prints_errors_only (h e)) ->
  Prints_errors_only (try_catch m h).
Proof.
  intros Hm Hh w. destruct (Hm w) as (e1 & E1). unfold try_catch.
  destruct (m w) as [[a|e|] w1]; cbn [snd] in *; try (now exists e1).
  destruct (Hh e w1) as (e2 & E2). exists (e1 ++ e2).
  now rewrite E2, E1, map_app, app_assoc.
Qed.

Lemma Sends_Prints {A} (P : Command -> Prop) (m : M A) :
  Sends P m -> Prints_errors_only m.
Proof.
  intros H w. destruct (H w) as (d & (_ & C & _) & _). exists [].
  cbn. now rewrite app_nil_r.
Qed.

Lemma Prints_console_error (e : Thrown) : Prints_errors_only (console_error e).
Proof. intros w. now exists [e]. Qed.

Section AcceptedReports.
Variable remote : Remote.
Hypothesis Hreports : accepts_reports remote.

Lemma Prints_logError (report : string) (e : Thrown) :
  Prints_errors_only (CloudWatchLogger.logError remote report e).
Proof.
  intros w. exists []. unfold CloudWatchLogger.logError, send_detached, modify.
  destruct (Hreports (sent w) report e) as [code ->]. cbn. now rewrite app_nil_r.
Qed.

Lemma Prints_retry_loop (fuel : nat) (half : Z) (error : Thrown)
    (g s : string) (logs : list Log) :
  Prints_errors_only (CloudWatchLogger.retry_loop remote fuel half error g s logs).
Proof.
  revert logs. induction fuel as [|fuel IH]; intros logs.
  - destruct logs; [apply Prints_ret | apply Prints_out_of_fuel].
  - destruct logs as [|l logs]; [apply Prints_ret|].
    cbn [CloudWatchLogger.retry_loop]. rewrite splice0_integer.
    apply Prints_bind; [|intros _; apply IH].
    eapply Sends_Prints. apply putEventLogs_Sends.
Qed.

Lemma Prints_flush_entry (fuel : nat) (entry : Entry) :
  Prints_errors_only (CloudWatchLogger.flush_entry remote fuel entry).
Proof.
  destruct entry as [[g s] logs]. unfold CloudWatchLogger.flush_entry.
  apply Prints_try_catch.
  - apply Prints_try_catch.
    + eapply Sends_Prints. apply putEventLogs_Sends.
    + intros e. apply Prints_bind; [apply Prints_console_error|]. intros _.
      apply Prints_bind; [apply Prints_logError|]. intros _.
      destruct logs; [apply Prints_ret | apply Prints_retry_loop].
  - intros e. apply Prints_bind; [apply Prints_console_error|]. intros _.
    apply Prints_logError.
Qed.
End AcceptedReports.

(** *** What [_flush] sends *)

Lemma putEventLogs_attempts (remote : Remote) (g s : string) (logs : list Log)
    (w : Engine) :
  logs <> [] ->
  exists c d,
    sent (snd (CloudWatchLogger.putEventLogs remote g s logs w)) = sent w ++ c :: d /\
    delivery_command g s logs c.
Proof.
  intros Hne. destruct logs as [|l logs]; [contradiction|].
  unfold CloudWatchLogger.putEventLogs, CloudWatchLogger.createLogStream,
    CloudWatchLogger.createLogGroup, try_catch, bind, send, modify, throw, ret.
  repeat match goal with
         | |- context [if ?b then _ else _] => destruct b
         | |- context [match remote ?h ?c with _ => _ end] => destruct (remote h c)
         end;
    cbn [fst snd sent with_sent with_logGroups logGroups];
    repeat rewrite <- app_assoc; cbn [app];
    (eexists _, _; split; [reflexivity | unfold delivery_command; auto]).
Qed.

Lemma putEventLogs_Emits (remote : Remote) (g s : string) (logs : list Log) :
  Emits (fun _ => True) (CloudWatchLogger.putEventLogs remote g s logs).
Proof.
  apply Sends_Emits. apply (Sends_weaken (delivery_command g s logs)); [trivial|].
  apply putEventLogs_Sends.
Qed.

Lemma logError_Emits (remote : Remote) (report : string) (e : Thrown) :
  Emits (fun _ => True) (CloudWatchLogger.logError remote report e).
Proof.
  intros w. exists [PutSelfDiagnostic report e].
  unfold CloudWatchLogger.logError, send_detached, modify. cbn [snd].
  split; [|repeat constructor].
  now destruct (remote (sent w) (PutSelfDiagnostic report e)).
Qed.

Lemma retry_loop_Emits (remote : Remote) (fuel : nat) (half : Z) (error : Thrown)
    (g s : string) (logs : list Log) :
  Emits (fun _ => True) (CloudWatchLogger.retry_loop remote fuel half error g s logs).
Proof.
  revert logs. induction fuel as [|fuel IH]; intros logs.
  - destruct logs; apply Emits_quiet.
  - destruct logs as [|l logs]; [apply Emits_quiet|].
    cbn [CloudWatchLogger.retry_loop]. rewrite splice0_integer.
    apply Emits_bind; [apply putEventLogs_Emits | intros _; apply IH].
Qed.

(** What a handler sends comes after what the body sent. *)
Lemma try_catch_after {A} (m : M A) (h : Thrown -> M A) (w : Engine) :
  (forall e, Emits (fun _ => True) (h e)) ->
  exists d, sent (snd (try_catch m h w)) = sent (snd (m w)) ++ d.
Proof.
  intros Hh. unfold try_catch.
  destruct (m w) as [[a|e|] w1]; cbn [snd];
    try (exists []; now rewrite app_nil_r).
  destruct (Hh e w1) as (d & E & _). now exists d.
Qed.

Lemma flush_entry_attempts (remote : Remote) (fuel : nat) (g s : string)
    (logs : list Log) (w : Engine) :
  logs <> [] ->
  exists d,
    sent (snd (CloudWatchLogger.flush_entry remote fuel (g, s, logs) w)) = sent w ++ d /\
    attempted d (g, s, logs) /\
    (accepts_creations remote -> In (PutLogEventsCommand g s logs) d).
Proof.
  intros Hne. unfold CloudWatchLogger.flush_entry.
  match goal with
  | |- context [try_catch (try_catch ?m ?h1) ?h2 w] =>
      destruct (try_catch_after (try_catch m h1) h2 w) as (d2 & E2);
        [|destruct (try_catch_after m h1 w) as (d1 & E1)]
  end.
  - intros e. apply Emits_bind; [apply console_error_Emits|]. intros _.
    apply logError_Emits.
  - intros e. apply Emits_bind; [apply console_error_Emits|]. intros _.
    apply Emits_bind; [apply logError_Emits|]. intros _.
    destruct logs; [apply Emits_quiet | apply retry_loop_Emits].
  - destruct (putEventLogs_attempts remote g s logs w Hne) as (c & d0 & E0 & Hc).
    rewrite E2, E1, E0. exists ((c :: d0) ++ d1 ++ d2).
    split; [now rewrite <- !app_assoc|]. split.
    + exists c. split; [now left | exact Hc].
    + intros Hcreate.
      destruct (putEventLogs_delivery remote Hcreate g s logs w Hne)
        as (d & w1 & (_ & _ & _ & _ & T) & _ & E).
      cbv zeta in E.
      assert (S : exists d', sent (snd (CloudWatchLogger.putEventLogs remote g s logs w))
                             = sent w1 ++ PutLogEventsCommand g s logs :: d').
      { rewrite E.
        destruct (remote (sent w1) (PutLogEventsCommand g s logs)) as [code|e];
          [destruct (code =? 200);
           [|destruct (remote _ (PutLogEventsCommand g s logs))]|];
          cbn [snd sent with_sent]; rewrite <- ?app_assoc; cbn [app]; eauto. }
      destruct S as (d' & S). rewrite T, <- app_assoc in S. rewrite E0 in S.
      apply app_inv_head in S. rewrite S.
      apply in_or_app. left. apply in_or_app. right. now left.
Qed.


Lemma rejecting_batches_reports : accepts_reports rejecting_batches.
Proof. intros history report about. now exists 200. Qed.

Lemma rejecting_batches_creations : accepts_creations rejecting_batches.
Proof. intros history c H. destruct c; try reflexivity. discriminate H. Qed.


(** ** Provisioning in part_002 *)

Lemma map_has_registry_push (g g' s : string) (m : JsMap (list string)) :
  map_has g' (registry_push g s m) = map_has g' m.
Proof.
  unfold registry_push. destruct (map_get g m) as [streams|] eqn:E; [|reflexivity].
  unfold map_has. destruct (String.eqb_spec g' g) as [->|Hne].
  - now rewrite map_get_set_same, E.
  - now rewrite map_get_set_other.
Qed.

Lemma wrapper_is_not_already_exists (msg : string) (cause : option Thrown) :
  isResourceAlreadyExistsException (new_Error msg cause) = false.
Proof. reflexivity. Qed.

Lemma Part002_createLogGroup_registers (remote : Remote) (config : ClientConfig)
    (g : string) (w : Engine) :
  fst (Part002.createLogGroup remote (Some config) g w) = Returned tt ->
  map_has g (logGroups (snd (Part002.createLogGroup remote (Some config) g w))) = true.
Proof.
  unfold Part002.createLogGroup. destruct (map_has g (logGroups w)) eqn:E.
  - intros _. exact E.
  - unfold try_catch, bind, send, modify, throw.
    destruct (remote (sent w) (CreateLogGroupCommand g)) as [code|e]; cbn.
    + intros _. apply map_has_set.
    + destruct (isResourceAlreadyExistsException e); cbn; [|discriminate].
      intros _. apply map_has_set.
Qed.

Lemma Part002_createLogGroup_throws_wrapper (remote : Remote) (config : ClientConfig)
    (g : string) (w : Engine) (e : Thrown) :
  fst (Part002.createLogGroup remote (Some config) g w) = Threw e ->
  isResourceAlreadyExistsException e = false.
Proof.
  unfold Part002.createLogGroup. destruct (map_has g (logGroups w)); [discriminate|].
  unfold try_catch, bind, send, modify, throw.
  destruct (remote (sent w) (CreateLogGroupCommand g)) as [code|e0]; cbn; [discriminate|].
  destruct (isResourceAlreadyExistsException e0); cbn; [discriminate|].
  intros E. inversion E. reflexivity.
Qed.

Lemma Part002_createLogStream_registers (remote : Remote) (config : ClientConfig)
    (g s : string) (w : Engine) :
  fst (Part002.createLogStream remote (Some config) g s w) = Returned tt ->
  let w1 := snd (Part002.createLogStream remote (Some config) g s w) in
  map_has g (logGroups w1) = true /\ registry_includes g s (logGroups w1) = true.
Proof.
  cbv zeta. unfold Part002.createLogStream.
  pose proof (Part002_createLogGroup_registers remote config g w) as Hreg.
  pose proof (Part002_createLogGroup_throws_wrapper remote config g w) as Hthrow.
  pose proof (Part002_createLogGroup_Sends remote (Some config) g s [] w)
    as (d0 & _ & _ & N).
  unfold try_catch, bind.
  destruct (Part002.createLogGroup remote (Some config) g w) as [[[]|e|] w1];
    cbn [fst snd] in *.
  - specialize (Hreg eq_refl).
    destruct (registry_includes g s (logGroups w1)) eqn:E; cbn.
    + intros _. auto.
    + unfold send, modify, throw.
      destruct (remote (sent w1) (CreateLogStreamCommand g s)) as [code|e]; cbn.
      * intros _. rewrite map_has_registry_push. split; [exact Hreg|].
        now apply registry_includes_push.
      * destruct (isResourceAlreadyExistsException e); cbn; [|discriminate].
        intros _. rewrite map_has_registry_push. split; [exact Hreg|].
        now apply registry_includes_push.
  - rewrite (Hthrow e eq_refl). cbn. discriminate.
  - contradiction.
Qed.

(** Creating a stream is idempotent: once [createLogStream] has returned
    normally for a destination, be it after a creation or after the sink
    said the group or the stream already exists, calling it again for the
    same destination sends nothing and changes nothing. *)
Theorem createLogStream_twice_sends_nothing (remote : Remote) (config : ClientConfig)
    (g s : string) (w : Engine) :
  fst (Part002.createLogStream remote (Some config) g s w) = Returned tt ->
  let w1 := snd (Part002.createLogStream remote (Some config) g s w) in
  Part002.createLogStream remote (Some config) g s w1 = (Returned tt, w1).
Proof.
  intros H. cbv zeta.
  destruct (Part002_createLogStream_registers remote config g s w H) as [Hg Hs].
  set (w1 := snd (Part002.createLogStream remote (Some config) g s w)) in *.
  unfold Part002.createLogStream, Part002.createLogGroup, try_catch, bind.
  rewrite Hg. cbn. now rewrite Hs.
Qed.

Lemma createLogStream_twice_sends_nothing_witness :
  let config := mkClientConfig "me-south-1" None in
  let r := Part002.createLogStream already_provisioned (Some config) "g" "s" empty_Engine in
  fst r = Returned tt /\
  sent (snd r) = [CreateLogGroupCommand "g"; CreateLogStreamCommand "g" "s"] /\
  logGroups (snd r) = [("g"%string, ["s"%string])] /\
  Part002.createLogStream already_provisioned (Some config) "g" "s" (snd r)
  = (Returned tt, snd r).
Proof.
  cbv zeta.
  assert (H : fst (Part002.createLogStream already_provisioned
                     (Some (mkClientConfig "me-south-1" None)) "g" "s" empty_Engine)
              = Returned tt) by reflexivity.
  split; [exact H|]. split; [reflexivity|]. split; [reflexivity|].
  exact (createLogStream_twice_sends_nothing already_provisioned _ "g" "s" empty_Engine H).
Defined.

(** When the group is not known and the sink refuses to create it for a
    reason other than "already exists", a delivery sends the one
    create-group command and nothing else, neither the stream creation nor
    the batch, and throws the refusal wrapped three times: "Put Log Events
    Failed", caused by "Create Log Stream Failed", caused by "Create Log
    Group Failed", caused by the refusal.  The registry is unchanged. *)
Theorem putEventLogs_group_refused (remote : Remote) (config : ClientConfig)
    (g s : string) (logs : list Log) (w : Engine) (refusal : Thrown) :
  logs <> [] ->
  map_has g (logGroups w) = false ->
  remote (sent w) (CreateLogGroupCommand g) = Rejected refusal ->
  isResourceAlreadyExistsException refusal = false ->
  Part002.putEventLogs remote (Some config) g s logs w
  = (Threw (new_Error "Put Log Events Failed"
              (Some (new_Error "Create Log Stream Failed"
                       (Some (new_Error "Create Log Group Failed" (Some refusal)))))),
     with_sent (sent w ++ [CreateLogGroupCommand g]) w).
Proof.
  intros Hne Hg Hr Hnot. destruct logs as [|l logs]; [contradiction|].
  unfold Part002.putEventLogs, Part002.createLogStream, Part002.createLogGroup,
    try_catch, bind, send, throw.
  rewrite Hg, Hr, Hnot. reflexivity.
Qed.

Lemma putEventLogs_group_refused_witness :
  let refusal := mkThrown OtherServiceException "AccessDeniedException"
                          "not authorized" None in
  [mkLog 1 [97]] <> [] /\
  map_has "g" (logGroups empty_Engine) = false /\
  access_denied (sent empty_Engine) (CreateLogGroupCommand "g") = Rejected refusal /\
  isResourceAlreadyExistsException refusal = false /\
  sent (snd (Part002.putEventLogs access_denied (Some (mkClientConfig "me-south-1" None))
               "g" "s" [mkLog 1 [97]] empty_Engine))
  = [CreateLogGroupCommand "g"].
Proof.
  cbv zeta.
  assert (H1 : [mkLog 1 [97]] <> []) by discriminate.
  split; [exact H1|]. split; [reflexivity|]. split; [reflexivity|]. split; [reflexivity|].
  rewrite (putEventLogs_group_refused access_denied (mkClientConfig "me-south-1" None)
             "g" "s" [mkLog 1 [97]] empty_Engine _ H1 eq_refl eq_refl eq_refl).
  reflexivity.
Defined.

(** ** The error reports of part_002 *)

Section Part002Reports.
Variable remote : Remote.
Variable config : ClientConfig.
Variable Date_now : Engine -> Z.
Variable JSON_stringify : string -> Thrown -> option Entry -> JsString.

Lemma Part002_flush_cons (fuel : nat) (g s : string) (logs : list Log)
    (rest : list Entry) :
  Part002._flush remote (Some config) Date_now JSON_stringify fuel ((g, s, logs) :: rest)
  = (try_catch
       (try_catch
          (Part002.putEventLogs remote (Some config) g s logs)
          (fun error =>
             console_error error ;;;
             Part002.addErrorLog Date_now
               (match fuel with
                | O => fun w => (OutOfFuel, w)
                | S fuel' =>
                    Part002.flush_with
                      (Part002._flush remote (Some config) Date_now JSON_stringify fuel')
                end)
               "cloudwatch_logger" "errors"
               (JSON_stringify "flushing error (will retry)" error (Some (g, s, logs))) ;;;
             Part002.retry_split remote (Some config) fuel g s logs))
       (fun error =>
          console_error error ;;;
          Part002.addErrorLog Date_now
            (match fuel with
             | O => fun w => (OutOfFuel, w)
             | S fuel' =>
                 Part002.flush_with
                   (Part002._flush remote (Some config) Date_now JSON_stringify fuel')
             end)
            "cloudwatch_logger" "errors"
            (JSON_stringify "flushing error" error None)) ;;;
     Part002._flush remote (Some config) Date_now JSON_stringify fuel rest).
Proof. destruct fuel; reflexivity. Qed.

Lemma Part002_flush_nil (fuel : nat) (w : Engine) :
  Part002._flush remote (Some config) Date_now JSON_stringify fuel [] w = (Returned tt, w).
Proof. destruct fuel; reflexivity. Qed.

Lemma some_events_after_push (g s : string) (log : Log) (b : Buffers) :
  some_events (fst (getOrderedLogs (pushLog g s log b))).
Proof.
  rewrite getOrderedLogs_entries.
  pose proof (map_get_In _ _ _ (pushLog_present g s log b)) as Hin.
  exists (fst (split_key (key_of g s))), (snd (split_key (key_of g s))),
         (sort_by_timestamp (buffer_of b g s ++ [log])).
  split.
  - apply in_map_iff. exists (key_of g s, buffer_of b g s ++ [log]). now split.
  - intros E. apply (proj1 (sort_by_timestamp_nil_iff _)) in E.
    apply app_eq_nil in E as [_ E]. discriminate E.
Qed.

Hypothesis Hfail : every_delivery_fails remote.

Lemma Part002_flush_reports_forever_aux (fuel : nat) :
  forall entries w,
    some_events entries ->
    fst (Part002._flush remote (Some config) Date_now JSON_stringify fuel entries w)
    = OutOfFuel.
Proof.
  induction fuel as [|fuel IHfuel].
  - induction entries as [|[[g s] logs] rest IH]; intros w (g0 & s0 & l0 & Hin & Hne).
    + destruct Hin.
    + rewrite Part002_flush_cons. destruct logs as [|l logs].
      * unfold try_catch, bind. cbn [Part002.putEventLogs ret].
        apply IH. destruct Hin as [E|Hin]; [inversion E; subst; contradiction|].
        now exists g0, s0, l0.
      * destruct (Part002_putEventLogs_fails remote config g s (l :: logs) w Hfail
                    ltac:(discriminate)) as (cause & d & E & _ & _).
        unfold try_catch at 1 2. unfold bind at 1.
        destruct (Part002.putEventLogs remote (Some config) g s (l :: logs) w)
          as [r1 w1]. cbn [fst] in E. subst r1. reflexivity.
  - induction entries as [|[[g s] logs] rest IH]; intros w (g0 & s0 & l0 & Hin & Hne).
    + destruct Hin.
    + rewrite Part002_flush_cons. destruct logs as [|l logs].
      * unfold try_catch, bind. cbn [Part002.putEventLogs ret].
        apply IH. destruct Hin as [E|Hin]; [inversion E; subst; contradiction|].
        now exists g0, s0, l0.
      * destruct (Part002_putEventLogs_fails remote config g s (l :: logs) w Hfail
                    ltac:(discriminate)) as (cause & d & E & _ & _).
        unfold try_catch at 1 2. unfold bind at 1.
        destruct (Part002.putEventLogs remote (Some config) g s (l :: logs) w)
          as [r1 w1]. cbn [fst] in E. subst r1.
        unfold bind at 1. unfold console_error at 1. unfold modify at 1.
        unfold bind at 1. unfold Part002.addErrorLog at 1. unfold Part002.flush_with at 1.
        cbn [bufferedLogs with_bufferedLogs with_console].
        match goal with
        | |- context [getOrderedLogs (pushLog ?a ?b ?c ?d)] =>
            pose proof (some_events_after_push a b c d) as Hsome;
            destruct (getOrderedLogs (pushLog a b c d)) as [again b'] eqn:Eg
        end.
        cbn [fst] in Hsome.
        match goal with
        | |- context [Part002._flush remote (Some config) Date_now JSON_stringify fuel again ?w2] =>
            pose proof (IHfuel again w2 Hsome) as Hout;
            destruct (Part002._flush remote (Some config) Date_now JSON_stringify fuel
                        again w2) as [r2 w3]
        end.
        cbn [fst] in Hout. subst r2. reflexivity.
Qed.
End Part002Reports.

(** When every delivery attempt fails, an awaited [flush] of part_002 that
    finds an event to deliver never ends: the failure is reported by
    pushing an event of its own and flushing again, that delivery fails as
    well and is reported the same way, and so on without end.  However
    deep the reports are allowed to nest, the call is still reporting. *)
Theorem Part002_flush_reports_forever (remote : Remote) (config : ClientConfig)
    (Date_now : Engine -> Z) (JSON_stringify : string -> Thrown -> option Entry -> JsString)
    (fuel : nat) (entries : list Entry) (w : Engine) :
  every_delivery_fails remote -> some_events entries ->
  fst (Part002._flush remote (Some config) Date_now JSON_stringify fuel entries w)
  = OutOfFuel.
Proof.
  intros Hfail Hsome.
  now apply Part002_flush_reports_forever_aux.
Qed.

Lemma Part002_flush_reports_forever_witness :
  every_delivery_fails rejecting_batches /\
  some_events [("g"%string, "s"%string, four_events)] /\
  fst (Part002._flush rejecting_batches (Some (mkClientConfig "me-south-1" None))
         (fun _ => 0) (fun _ _ _ => [123; 125]) 50
         [("g"%string, "s"%string, four_events)] empty_Engine) = OutOfFuel.
Proof.
  assert (Hs : some_events [("g"%string, "s"%string, four_events)]).
  { exists "g"%string, "s"%string, four_events. split; [now left | discriminate]. }
  split; [exact rejecting_batches_fails|]. split; [exact Hs|].
  exact (Part002_flush_reports_forever rejecting_batches _ _ _ 50 _ empty_Engine
           rejecting_batches_fails Hs).
Defined.

(** ** A batch answered with a status other than 200 *)

Lemma batch_status_creates (code : Z) : accepts_creations (batch_status code).
Proof. intros history c H. unfold batch_status. now rewrite H. Qed.



(** ** A retry that succeeds *)

Section FailsOnce.
Variable remote : Remote.
Variable e : Thrown.
Hypothesis Honce : fails_first_batch_only e remote.

Lemma putEventLogs_first_batch (g s : string) (logs : list Log) (w : Engine) :
  logs <> [] -> batches (sent w) = [] ->
  exists d w1,
    sent_more w w1 d /\ Forall (fun c => is_batch c = false) d /\
    CloudWatchLogger.putEventLogs remote g s logs w
    = (Threw (new_Error "Put Log Events Failed" (Some e)),
       with_sent (sent w1 ++ [PutLogEventsCommand g s logs]) w1).
Proof.
  intros Hne Hcold. destruct Honce as (Hc & Hfirst & _).
  destruct (putEventLogs_delivery remote Hc g s logs w Hne) as (d & w1 & S & F & E).
  exists d, w1. split; [exact S|]. split; [exact F|].
  cbv zeta in E. rewrite E.
  destruct S as (_ & _ & _ & _ & T).
  rewrite Hfirst; [reflexivity | reflexivity |].
  now rewrite T, batches_app, Hcold, (batches_none d F).
Qed.

Lemma putEventLogs_later_batch (g s : string) (logs : list Log) (w : Engine) :
  logs <> [] -> batches (sent w) <> [] ->
  exists d,
    fst (CloudWatchLogger.putEventLogs remote g s logs w) = Returned tt /\
    sent_more w (snd (CloudWatchLogger.putEventLogs remote g s logs w))
              (d ++ [PutLogEventsCommand g s logs]) /\
    Forall (fun c => is_batch c = false) d.
Proof.
  intros Hne Hwarm. destruct Honce as (Hc & _ & Hlater).
  destruct (putEventLogs_delivery remote Hc g s logs w Hne) as (d & w1 & S & F & E).
  exists d. cbv zeta in E. rewrite E.
  assert (Hw1 : batches (sent w1) <> []).
  { destruct S as (_ & _ & _ & _ & T). rewrite T, batches_app.
    intros H. apply app_eq_nil in H as [H _]. contradiction. }
  rewrite (Hlater _ _ Hw1). cbn [Z.eqb Pos.eqb fst snd].
  split; [reflexivity|]. split; [|exact F].
  eapply sent_more_trans; [exact S | apply sent_more_send].
Qed.
End FailsOnce.

Lemma batches_diag (cs : list Command) (report : string) (about : Thrown) :
  batches (cs ++ [PutSelfDiagnostic report about]) = batches cs.
Proof. rewrite batches_app. cbn. apply app_nil_r. Qed.

Lemma half_covers_rest (n : nat) :
  (n - Z.to_nat ((Z.of_nat n + 1) / 2) <= Z.to_nat ((Z.of_nat n + 1) / 2))%nat.
Proof.
  pose proof (Z.div_mod (Z.of_nat n + 1) 2 ltac:(lia)).
  pose proof (Z.mod_pos_bound (Z.of_nat n + 1) 2 ltac:(lia)). lia.
Qed.

Lemma retry_loop_two_parts (remote : Remote) (e failure : Thrown) (fuel : nat)
    (half : Z) (g s : string) (logs : list Log) (w : Engine) :
  fails_first_batch_only e remote ->
  instanceof failure InvalidParameterException = false ->
  logs <> [] -> (1 <= Z.to_nat half)%nat ->
  (List.length logs - Z.to_nat half <= Z.to_nat half)%nat ->
  (2 <= fuel)%nat -> batches (sent w) <> [] ->
  exists w',
    CloudWatchLogger.retry_loop remote fuel half failure g s logs w = (Returned tt, w') /\
    batches (sent w')
    = batches (sent w)
      ++ List.map (PutLogEventsCommand g s)
           (non_empty_parts [firstn (Z.to_nat half) logs; skipn (Z.to_nat half) logs]) /\
    console_out w' = console_out w.
Proof.
  intros Honce Hcls Hne Hh Hrest Hfuel Hwarm.
  set (h := Z.to_nat half) in *.
  destruct fuel as [|[|fuel]]; [lia | lia |].
  destruct logs as [|l0 logs0]; [contradiction|].
  cbn [CloudWatchLogger.retry_loop]. rewrite splice0_integer, Hcls. fold h.
  assert (Hf : firstn h (l0 :: logs0) <> [])
    by (apply firstn_nonempty; [exact Hh | discriminate]).
  destruct (putEventLogs_later_batch remote e Honce g s _ w Hf Hwarm)
    as (d2 & R2 & (_ & C2 & _ & _ & T2) & F2).
  unfold bind at 1.
  destruct (CloudWatchLogger.putEventLogs remote g s (firstn h (l0 :: logs0)) w)
    as [r2 w3].
  cbn [fst snd] in R2, T2, C2. subst r2.
  assert (B3 : batches (sent w3)
               = batches (sent w) ++ [PutLogEventsCommand g s (firstn h (l0 :: logs0))]).
  { rewrite T2, !batches_app, (batches_none d2 F2). reflexivity. }
  assert (Nf : negb (Nat.eqb (List.length (firstn h (l0 :: logs0))) 0) = true).
  { destruct (firstn h (l0 :: logs0)); [contradiction | reflexivity]. }
  unfold non_empty_parts. cbn [filter]. rewrite Nf.
  destruct (skipn h (l0 :: logs0)) as [|l1 rest] eqn:Es.
  - exists w3. cbn [CloudWatchLogger.retry_loop ret List.length Nat.eqb negb List.map].
    rewrite B3, C2. auto.
  - assert (W3 : batches (sent w3) <> []).
    { rewrite B3. intros H. apply app_eq_nil in H as [_ H]. discriminate H. }
    cbn [CloudWatchLogger.retry_loop]. rewrite splice0_integer, ?Hcls. fold h.
    assert (Hlen : (List.length (l1 :: rest) <= h)%nat).
    { rewrite <- Es, length_skipn. exact Hrest. }
    rewrite (firstn_all2 _ Hlen), (skipn_all2 _ Hlen).
    destruct (putEventLogs_later_batch remote e Honce g s (l1 :: rest) w3
                ltac:(discriminate) W3) as (d3 & R3 & (_ & C3 & _ & _ & T3) & F3).
    unfold bind at 1.
    destruct (CloudWatchLogger.putEventLogs remote g s (l1 :: rest) w3) as [r3 w4].
    cbn [fst snd] in R3, T3, C3. subst r3.
    assert (E4 : CloudWatchLogger.retry_loop remote fuel half failure g s [] w4
                 = (Returned tt, w4)) by (destruct fuel; reflexivity).
    exists w4. rewrite E4. cbn [List.length Nat.eqb negb List.map].
    rewrite T3, !batches_app, B3, (batches_none d3 F3), C3, C2.
    split; [reflexivity|]. split; [|reflexivity].
    now rewrite <- app_assoc.
Qed.

(** When the sink rejects only the first batch it is sent, [_flush] gets
    every event of the entry through in the retry: after the whole batch
    has failed and the failure has been reported once, the first ceil(n/2)
    events are sent as one batch and the remaining events, if any, as a
    second one.  The two parts make up the batch, so every event is
    delivered exactly once, in order; the call returns normally. *)
Theorem retry_delivers_every_event_once (remote : Remote) (e : Thrown) (fuel : nat)
    (g s : string) (logs : list Log) (w : Engine) :
  fails_first_batch_only e remote -> logs <> [] -> (2 <= fuel)%nat ->
  batches (sent w) = [] ->
  let h := Z.to_nat ((Z.of_nat (List.length logs) + 1) / 2) in
  let r := CloudWatchLogger.flush_entry remote fuel (g, s, logs) w in
  fst r = Returned tt /\
  batches (sent (snd r))
  = PutLogEventsCommand g s logs
    :: List.map (PutLogEventsCommand g s)
         (non_empty_parts [firstn h logs; skipn h logs]) /\
  firstn h logs ++ skipn h logs = logs /\
  console_out (snd r)
  = console_out w ++ [ConsoleError (new_Error "Put Log Events Failed" (Some e))].
Proof.
  intros Honce Hne Hfuel Hcold. cbv zeta.
  set (h := Z.to_nat ((Z.of_nat (List.length logs) + 1) / 2)).
  assert (Hh : (1 <= h)%nat).
  { subst h. destruct logs as [|l logs]; [contradiction|]. cbn [List.length].
    assert (1 <= (Z.of_nat (S (List.length logs)) + 1) / 2)
      by (apply Z.div_le_lower_bound; lia).
    lia. }
  destruct (putEventLogs_first_batch remote e Honce g s logs w Hne Hcold)
    as (d1 & w1 & (_ & C1 & _ & _ & T1) & F1 & E1).
  set (failure := new_Error "Put Log Events Failed" (Some e)) in *.
  set (w1' := with_sent (sent w1 ++ [PutLogEventsCommand g s logs]) w1) in *.
  set (w2 := with_sent (sent (with_console (console_out w1' ++ [ConsoleError failure]) w1')
                          ++ [PutSelfDiagnostic "flushing error (will retry)" failure])
               (with_console (console_out w1' ++ [ConsoleError failure]) w1')).
  assert (B2 : batches (sent w2) = [PutLogEventsCommand g s logs]).
  { subst w2 w1'. cbn [sent with_sent with_console].
    rewrite batches_diag, batches_app, T1, batches_app, Hcold, (batches_none d1 F1).
    reflexivity. }
  assert (W2 : batches (sent w2) <> []) by (rewrite B2; discriminate).
  assert (Hrep : remote (sent (with_console (console_out w1' ++ [ConsoleError failure]) w1'))
                   (PutSelfDiagnostic "flushing error (will retry)" failure)
                 = Resolved 200).
  { destruct Honce as (_ & _ & Hlater). apply Hlater.
    subst w1'. cbn [sent with_sent with_console]. rewrite batches_app.
    intros H. apply app_eq_nil in H as [_ H]. discriminate H. }
  destruct (retry_loop_two_parts remote e failure fuel
              ((Z.of_nat (List.length logs) + 1) / 2) g s logs w2 Honce eq_refl Hne Hh
              (half_covers_rest (List.length logs)) Hfuel W2) as (w' & R & B & C).
  fold h in B.
  assert (E : CloudWatchLogger.flush_entry remote fuel (g, s, logs) w
              = CloudWatchLogger.retry_loop remote fuel
                  ((Z.of_nat (List.length logs) + 1) / 2) failure g s logs w2).
  { unfold CloudWatchLogger.flush_entry.
    unfold try_catch at 1. unfold try_catch at 1. rewrite E1.
    unfold bind at 1. unfold console_error at 1. unfold modify at 1.
    unfold bind at 1. unfold CloudWatchLogger.logError at 1.
    unfold send_detached, modify at 1. cbv zeta. rewrite Hrep. fold w2.
    destruct logs as [|l0 logs0]; [contradiction|].
    unfold try_catch. rewrite Qceiling_half, R. reflexivity. }
  rewrite E, R. cbn [fst snd]. rewrite B, C, B2. subst w2 w1'. cbn [console_out with_sent with_console].
  rewrite C1. split; [reflexivity|]. split; [reflexivity|].
  split; [apply firstn_skipn | reflexivity].
Qed.

Lemma fails_once_fails_first_batch_only (e : Thrown) :
  fails_first_batch_only e (fails_once e).
Proof.
  unfold fails_first_batch_only, fails_once. split; [|split].
  - intros history c H. now rewrite H.
  - intros history c H Hcold. rewrite H.
    assert (E : existsb is_batch history = false).
    { apply Bool.not_true_iff_false. intros Hex.
      apply existsb_exists in Hex as [x [Hin Hx]].
      assert (In x (batches history)) by (apply filter_In; now split).
      rewrite Hcold in H0. destruct H0. }
    now rewrite E.
  - intros history c Hwarm. destruct (is_batch c); [|reflexivity].
    assert (E : existsb is_batch history = true).
    { destruct (batches history) as [|x bs] eqn:Eb; [contradiction|].
      assert (Hin : In x (batches history)) by (rewrite Eb; now left).
      apply filter_In in Hin as [Hin Hx].
      apply existsb_exists. now exists x. }
    now rewrite E.
Qed.

Lemma retry_delivers_every_event_once_witness :
  let throttled := mkThrown OtherServiceException "ThrottlingException" "slow down" None in
  let logs := [mkLog 1 [97]; mkLog 2 [98]; mkLog 3 [99]] in
  fails_first_batch_only throttled (fails_once throttled) /\
  logs <> [] /\ (2 <= 2)%nat /\ batches (sent empty_Engine) = [] /\
  batches (sent (snd (CloudWatchLogger.flush_entry (fails_once throttled) 2
                        ("g"%string, "s"%string, logs) empty_Engine)))
  = [PutLogEventsCommand "g" "s" logs;
     PutLogEventsCommand "g" "s" [mkLog 1 [97]; mkLog 2 [98]];
     PutLogEventsCommand "g" "s" [mkLog 3 [99]]].
Proof.
  cbv zeta.
  assert (H1 : [mkLog 1 [97]; mkLog 2 [98]; mkLog 3 [99]] <> []) by discriminate.
  assert (H2 : (2 <= 2)%nat) by lia.
  split; [apply fails_once_fails_first_batch_only|]. split; [exact H1|].
  split; [exact H2|]. split; [reflexivity|].
  rewrite (proj1 (proj2 (retry_delivers_every_event_once _ _ 2 "g" "s" _ empty_Engine
                           (fails_once_fails_first_batch_only _) H1 H2 eq_refl))).
  reflexivity.
Defined.

(** ** Streams that exist already, in part_003 *)

Lemma with_sent_app (w : Engine) (c1 c2 : list Command) :
  with_sent (sent (with_sent (sent w ++ c1) w) ++ c2) (with_sent (sent w ++ c1) w)
  = with_sent (sent w ++ c1 ++ c2) w.
Proof. unfold with_sent. cbn. now rewrite <- app_assoc. Qed.

Lemma with_sent_nil (w : Engine) : with_sent (sent w ++ []) w = w.
Proof. destruct w. unfold with_sent. cbn. now rewrite app_nil_r. Qed.

Section AlreadyExists.
Variable remote : Remote.
Variable config : ClientConfig.
Hypothesis Hexists : answers_already_exists remote.

Lemma Part003_putEventLogs_existing (g s : string) (logs : list Log) (w : Engine) :
  logs <> [] -> registry_includes g s (logGroups w) = false ->
  Part003.putEventLogs remote (Some config) g s logs w
  = (Returned tt, with_sent (sent w ++ creations_and_batch (g, s, logs)) w).
Proof.
  intros Hne Hreg. destruct logs as [|l logs]; [contradiction|].
  unfold Part003.putEventLogs, try_catch at 1, bind at 1. rewrite Hreg.
  unfold Part003.createLogStream, try_catch at 1, bind at 1.
  unfold Part003.createLogGroup, try_catch at 1, bind at 1, send at 1.
  pose proof (Hexists (sent w) (CreateLogGroupCommand g)) as (e1 & E1 & R1).
  rewrite E1, R1. cbn [ret].
  unfold bind at 1, send at 1. cbn [sent with_sent].
  pose proof (Hexists (sent w ++ [CreateLogGroupCommand g]) (CreateLogStreamCommand g s))
    as (e2 & E2 & R2).
  rewrite E2, R2. cbn [ret].
  unfold bind at 1, send at 1. cbn [sent with_sent].
  pose proof (Hexists ((sent w ++ [CreateLogGroupCommand g]) ++ [CreateLogStreamCommand g s])
                (PutLogEventsCommand g s (l :: logs))) as E3.
  cbn [is_batch] in E3. rewrite E3. cbn [ret creations_and_batch].
  unfold with_sent. cbn. now rewrite <- !app_assoc.
Qed.

Lemma Part003_deliver_in_turn_existing (entries : list Entry) (w : Engine) :
  (forall g s logs, In (g, s, logs) entries ->
                    logs <> [] /\ registry_includes g s (logGroups w) = false) ->
  Part003.deliver_in_turn remote (Some config) entries w
  = (Returned tt, with_sent (sent w ++ flat_map creations_and_batch entries) w).
Proof.
  revert w. induction entries as [|[[g s] logs] rest IH]; intros w H.
  - cbn. now rewrite with_sent_nil.
  - destruct (H g s logs (or_introl eq_refl)) as [Hne Hreg].
    cbn [Part003.deliver_in_turn]. unfold bind.
    rewrite (Part003_putEventLogs_existing g s logs w Hne Hreg).
    rewrite IH.
    + cbn [flat_map]. now rewrite with_sent_app.
    + intros g' s' logs' Hin. exact (H g' s' logs' (or_intror Hin)).
Qed.
End AlreadyExists.

(** In part_003 a stream that exists already is never remembered: the
    registry is written only after a creation that succeeded.  When the
    sink answers the creations with an already-exists error, every delivery
    to such a destination sends the create-group and the create-stream
    command again before the batch, three commands per batch however many
    batches went before, and the registry stays as it was. *)
Theorem Part003_existing_stream_is_created_again (remote : Remote) (config : ClientConfig)
    (Date_now : Engine -> Z) (JSON_stringify : string -> Thrown -> JsString)
    (fuel : nat) (entries : list Entry) (w : Engine) :
  answers_already_exists remote ->
  (forall g s logs, In (g, s, logs) entries ->
                    logs <> [] /\ registry_includes g s (logGroups w) = false) ->
  Part003._flush remote (Some config) Date_now JSON_stringify fuel entries w
  = (Returned tt, with_sent (sent w ++ flat_map creations_and_batch entries) w).
Proof.
  intros Hexists H.
  assert (E : Part003._flush remote (Some config) Date_now JSON_stringify fuel entries w
              = try_catch (Part003.deliver_in_turn remote (Some config) entries)
                  (fun error =>
                     console_error error ;;;
                     Part003.addErrorLog Date_now
                       (match fuel with
                        | O => fun w => (OutOfFuel, w)
                        | S fuel' =>
                            Part003.flush_with
                              (Part003._flush remote (Some config) Date_now
                                 JSON_stringify fuel')
                        end)
                       "cloudwatch_logger" "errors"
                       (JSON_stringify "flushing error"%string error)) w)
    by (destruct fuel; reflexivity).
  rewrite E. unfold try_catch.
  now rewrite (Part003_deliver_in_turn_existing remote config Hexists entries w H).
Qed.

Lemma already_provisioned_answers : answers_already_exists already_provisioned.
Proof.
  intros history c. destruct c; cbn; try reflexivity;
    (eexists; split; [reflexivity | reflexivity]).
Qed.

Lemma Part003_existing_stream_is_created_again_witness :
  let entries := [("g"%string, "s"%string, [mkLog 1 [97]]);
                  ("g"%string, "s"%string, [mkLog 2 [98]])] in
  answers_already_exists already_provisioned /\
  (forall g s logs, In (g, s, logs) entries ->
                    logs <> [] /\ registry_includes g s (logGroups empty_Engine) = false) /\
  sent (snd (Part003._flush already_provisioned (Some (mkClientConfig "me-south-1" None))
               (fun _ => 0) (fun _ _ => []) 0 entries empty_Engine))
  = [CreateLogGroupCommand "g"; CreateLogStreamCommand "g" "s";
     PutLogEventsCommand "g" "s" [mkLog 1 [97]];
     CreateLogGroupCommand "g"; CreateLogStreamCommand "g" "s";
     PutLogEventsCommand "g" "s" [mkLog 2 [98]]].
Proof.
  cbv zeta.
  assert (H : forall g s logs,
             In (g, s, logs) [("g"%string, "s"%string, [mkLog 1 [97]]);
                              ("g"%string, "s"%string, [mkLog 2 [98]])] ->
             logs <> [] /\ registry_includes g s (logGroups empty_Engine) = false).
  { intros g s logs [E|[E|[]]]; inversion E; (split; [discriminate | reflexivity]). }
  split; [exact already_provisioned_answers|]. split; [exact H|].
  rewrite (Part003_existing_stream_is_created_again already_provisioned
             (mkClientConfig "me-south-1" None) (fun _ => 0) (fun _ _ => []) 0 _
             empty_Engine already_provisioned_answers H).
  reflexivity.
Defined.

(** ** A failed delivery in part_003 *)

Lemma all_empty_map_set_nil (k : string) (b : Buffers) :
  all_empty b -> all_empty (map_set k [] b).
Proof.
  intros H. induction b as [|[k1 v1] b IH]; cbn.
  - intros k' v' [E|[]]. now inversion E.
  - destruct (String.eqb k k1).
    + intros k' v' [E|Hin]; [now inversion E | exact (H k' v' (or_intror Hin))].
    + intros k' v' [E|Hin]; [exact (H k' v' (or_introl E))|].
      apply (IH (fun k v Hkv => H k v (or_intror Hkv)) k' v' Hin).
Qed.

Lemma with_events_drained_empty (b : Buffers) :
  all_empty b -> with_events (List.map drained b) = [].
Proof.
  induction b as [|[k v] b IH]; intros H; [reflexivity|].
  cbn [List.map with_events filter]. unfold drained at 1. cbn [fst snd].
  rewrite (H k v (or_introl eq_refl)). cbn.
  apply IH. intros k' v' Hin. exact (H k' v' (or_intror Hin)).
Qed.

Lemma with_events_map_set (k : string) (log : Log) (b : Buffers) :
  all_empty b ->
  with_events (List.map drained (map_set k [log] b)) = [drained (k, [log])].
Proof.
  induction b as [|[k1 v1] b IH]; intros H; [reflexivity|].
  pose proof (H k1 v1 (or_introl eq_refl)) as ->.
  assert (Hb : all_empty b) by (intros k' v' Hin; exact (H k' v' (or_intror Hin))).
  cbn [map_set]. destruct (String.eqb_spec k k1) as [->|Hne].
  - cbn [List.map]. unfold with_events. cbn [filter].
    unfold drained at 1. cbn [fst snd sort_by_timestamp]. cbn.
    fold (with_events (List.map drained b)).
    now rewrite (with_events_drained_empty b Hb).
  - cbn [List.map]. unfold with_events. cbn [filter].
    unfold drained at 1. cbn [fst snd]. cbn.
    exact (IH Hb).
Qed.

Lemma with_events_pushLog (g s : string) (log : Log) (b : Buffers) :
  separator_free g -> separator_free s -> all_empty b ->
  with_events (List.map drained (pushLog g s log b)) = [(g, s, [log])].
Proof.
  intros Hg Hs He.
  assert (D : drained (key_of g s, [log]) = (g, s, [log])).
  { unfold drained. cbn [fst snd]. now rewrite (split_key_key_of g s Hg Hs). }
  rewrite <- D.
  destruct (pushLog_eq g s log b) as [E|[En E]]; rewrite E.
  - unfold buffer_of. destruct (map_get (key_of g s) b) as [v|] eqn:Ev.
    + rewrite (He _ _ (map_get_In _ _ _ Ev)). now apply with_events_map_set.
    + now apply with_events_map_set.
  - apply with_events_map_set. now apply all_empty_map_set_nil.
Qed.

Lemma well_formed_pushLog (g s : string) (log : Log) (b : Buffers) :
  well_formed b -> well_formed (pushLog g s log b).
Proof.
  intros H. destruct (pushLog_eq g s log b) as [E|[En E]]; rewrite E.
  - now apply well_formed_map_set.
  - now apply well_formed_map_set, well_formed_map_set.
Qed.

Lemma all_empty_emptied (b : Buffers) : all_empty (List.map emptied b).
Proof.
  intros k v Hin. apply in_map_iff in Hin as [kv [E _]].
  unfold emptied in E. now inversion E.
Qed.

Section Part003Creations.
Variable remote : Remote.
Variable config : ClientConfig.
Hypothesis Hcreate : accepts_creations remote.

Lemma Part003_createLogStream_accepted (g s : string) (w : Engine) :
  exists d,
    fst (Part003.createLogStream remote (Some config) g s w) = Returned tt /\
    sent_more w (snd (Part003.createLogStream remote (Some config) g s w)) d /\
    Forall (fun c => is_batch c = false) d.
Proof.
  exists [CreateLogGroupCommand g; CreateLogStreamCommand g s].
  unfold Part003.createLogStream, Part003.createLogGroup, try_catch, bind, send, modify.
  rewrite (Hcreate (sent w) (CreateLogGroupCommand g) eq_refl). cbn [ret sent with_sent].
  rewrite (Hcreate _ (CreateLogStreamCommand g s) eq_refl). cbn [fst snd].
  split; [reflexivity|]. split; [|repeat constructor].
  unfold sent_more. cbn. now rewrite <- app_assoc.
Qed.

(** A delivery of part_003: the creations go through, the answer to the
    batch decides. *)
Lemma Part003_putEventLogs_delivery (g s : string) (logs : list Log) (w : Engine) :
  logs <> [] ->
  exists d w1,
    sent_more w w1 d /\ Forall (fun c => is_batch c = false) d /\
    Part003.putEventLogs remote (Some config) g s logs w
    = match remote (sent w1) (PutLogEventsCommand g s logs) with
      | Rejected e =>
          (Threw (new_Error "Put Log Events Failed" (Some e)),
           with_sent (sent w1 ++ [PutLogEventsCommand g s logs]) w1)
      | Resolved _ =>
          (Returned tt, with_sent (sent w1 ++ [PutLogEventsCommand g s logs]) w1)
      end.
Proof.
  intros Hne. destruct logs as [|l logs]; [contradiction|].
  unfold Part003.putEventLogs.
  destruct (registry_includes g s (logGroups w)) eqn:Hreg.
  - exists [], w. split; [apply sent_more_refl|]. split; [constructor|].
    unfold try_catch, bind, send. rewrite Hreg. cbn [ret].
    destruct (remote (sent w) (PutLogEventsCommand g s (l :: logs))); reflexivity.
  - destruct (Part003_createLogStream_accepted g s w) as (d & R & S & F).
    exists d, (snd (Part003.createLogStream remote (Some config) g s w)).
    split; [exact S|]. split; [exact F|].
    unfold try_catch, bind at 1. rewrite Hreg.
    destruct (Part003.createLogStream remote (Some config) g s w) as [r1 w1].
    cbn [fst snd] in *. subst r1. unfold bind, send.
    destruct (remote (sent w1) (PutLogEventsCommand g s (l :: logs))); reflexivity.
Qed.
End Part003Creations.

Section FailedDelivery.
Variable remote : Remote.
Variable config : ClientConfig.
Hypothesis Hcreate : accepts_creations remote.

Lemma Part003_putEventLogs_rejected (g s : string) (e : Thrown) (logs : list Log)
    (w : Engine) :
  (forall history, remote history (PutLogEventsCommand g s logs) = Rejected e) ->
  logs <> [] ->
  exists d w1,
    sent_more w w1 (d ++ [PutLogEventsCommand g s logs]) /\
    Forall (fun c => is_batch c = false) d /\
    Part003.putEventLogs remote (Some config) g s logs w
    = (Threw (new_Error "Put Log Events Failed" (Some e)), w1).
Proof.
  intros Hrej Hne.
  destruct (Part003_putEventLogs_delivery remote config Hcreate g s logs w Hne)
    as (d & w1 & S & F & E).
  exists d, (with_sent (sent w1 ++ [PutLogEventsCommand g s logs]) w1).
  split; [eapply sent_more_trans; [exact S | apply sent_more_send]|].
  split; [exact F|].
  rewrite E, Hrej. reflexivity.
Qed.

Lemma Part003_putEventLogs_taken (g s : string) (logs : list Log) (w : Engine) :
  (forall history, exists code,
      remote history (PutLogEventsCommand g s logs) = Resolved code) ->
  logs <> [] ->
  exists d,
    fst (Part003.putEventLogs remote (Some config) g s logs w) = Returned tt /\
    sent_more w (snd (Part003.putEventLogs remote (Some config) g s logs w))
              (d ++ [PutLogEventsCommand g s logs]) /\
    Forall (fun c => is_batch c = false) d.
Proof.
  intros Hacc Hne.
  destruct (Part003_putEventLogs_delivery remote config Hcreate g s logs w Hne)
    as (d & w1 & S & F & E).
  exists d. rewrite E. destruct (Hacc (sent w1)) as [code ->]. cbn [fst snd].
  split; [reflexivity|]. split; [|exact F].
  eapply sent_more_trans; [exact S | apply sent_more_send].
Qed.

Lemma Part003_deliver_in_turn_taken (entries : list Entry) (w : Engine) :
  (forall g s logs, In (g, s, logs) (with_events entries) ->
     forall history, exists code,
       remote history (PutLogEventsCommand g s logs) = Resolved code) ->
  let r := Part003.deliver_in_turn remote (Some config) entries w in
  fst r = Returned tt /\
  batches (sent (snd r)) = batches (sent w) ++ List.map batch_of_entry (with_events entries) /\
  console_out (snd r) = console_out w /\
  bufferedLogs (snd r) = bufferedLogs w.
Proof.
  cbv zeta. revert w. induction entries as [|[[g s] logs] rest IH]; intros w H.
  - cbn. now rewrite app_nil_r.
  - cbn [Part003.deliver_in_turn]. unfold bind.
    destruct logs as [|l logs].
    + cbn [Part003.putEventLogs ret]. apply IH. exact H.
    + assert (Hacc : forall history, exists code,
                 remote history (PutLogEventsCommand g s (l :: logs)) = Resolved code)
        by (apply (H g s (l :: logs)); now left).
      destruct (Part003_putEventLogs_taken g s (l :: logs) w Hacc ltac:(discriminate))
        as (d & R & (B1 & C1 & _ & _ & T1) & F).
      destruct (Part003.putEventLogs remote (Some config) g s (l :: logs) w)
        as [r1 w1]. cbn [fst snd] in *. subst r1.
      destruct (IH w1) as (R2 & T2 & C2 & B2).
      { intros g' s' logs' Hin. apply (H g' s' logs'). now right. }
      rewrite R2, T2, C2, B2, T1, C1, B1. split; [reflexivity|]. split; [|auto].
      rewrite !batches_app, (batches_none d F). cbn [app].
      unfold with_events at 2. cbn [filter snd List.length Nat.eqb negb List.map].
      unfold batch_of_entry at 2. cbn [fst snd].
      now rewrite <- app_assoc.
Qed.
End FailedDelivery.

(** [_flush] of part_003 has one [try] around its loop, so a delivery that
    fails ends the loop.  For every sink that creates what it is asked
    for, rejects the batch of the first entry and accepts the error report:
    the failure is printed and reported as an event of its own for
    cloudwatch_logger/errors, which the nested flush delivers, and the call
    returns.  The entries after the failed one are never sent, whatever
    they hold; they were drained from the buffers before, so their events
    are in no buffer either. *)
Theorem Part003_flush_abandons_later_entries (remote : Remote) (config : ClientConfig)
    (Date_now : Engine -> Z) (JSON_stringify : string -> Thrown -> JsString)
    (fuel : nat) (g s : string) (e : Thrown) (logs : list Log) (rest : list Entry)
    (w : Engine) :
  accepts_creations remote ->
  (forall history, remote history (PutLogEventsCommand g s logs) = Rejected e) ->
  (forall history report, exists code,
      remote history (PutLogEventsCommand "cloudwatch_logger" "errors" [report])
      = Resolved code) ->
  logs <> [] -> (1 <= fuel)%nat ->
  well_formed (bufferedLogs w) -> all_empty (bufferedLogs w) ->
  let failure := new_Error "Put Log Events Failed" (Some e) in
  let r := Part003._flush remote (Some config) Date_now JSON_stringify fuel
             ((g, s, logs) :: rest) w in
  fst r = Returned tt /\
  (exists now,
     batches (sent (snd r))
     = batches (sent w)
       ++ [PutLogEventsCommand g s logs;
           PutLogEventsCommand "cloudwatch_logger" "errors"
             [mkLog now (JSON_stringify "flushing error"%string failure)]]) /\
  console_out (snd r) = console_out w ++ [ConsoleError failure] /\
  all_empty (bufferedLogs (snd r)).
Proof.
  intros Hcreate Hrej Hreport Hne Hfuel Hwf He. cbv zeta.
  destruct fuel as [|fuel]; [lia|].
  set (failure := new_Error "Put Log Events Failed" (Some e)).
  assert (E : exists w' now,
             Part003._flush remote (Some config) Date_now JSON_stringify (S fuel)
               ((g, s, logs) :: rest) w = (Returned tt, w') /\
             batches (sent w')
             = batches (sent w)
               ++ [PutLogEventsCommand g s logs;
                   PutLogEventsCommand "cloudwatch_logger" "errors"
                     [mkLog now (JSON_stringify "flushing error"%string failure)]] /\
             console_out w' = console_out w ++ [ConsoleError failure] /\
             all_empty (bufferedLogs w')).
  { destruct (Part003_putEventLogs_rejected remote config Hcreate g s e logs w Hrej Hne)
      as (d & w1 & (B1 & C1 & _ & _ & T1) & F & E1).
    cbn [Part003._flush]. unfold try_catch at 1.
    cbn [Part003.deliver_in_turn]. unfold bind at 1. rewrite E1.
    unfold bind at 1. unfold console_error at 1. unfold modify at 1.
    unfold Part003.addErrorLog, Part003.flush_with.
    cbn [bufferedLogs with_bufferedLogs with_console].
    fold failure.
    set (w2 := with_console (console_out w1 ++ [ConsoleError failure]) w1).
    set (report := mkLog (Date_now w2) (JSON_stringify "flushing error"%string failure)).
    set (b3 := pushLog "cloudwatch_logger" "errors" report (bufferedLogs w1)).
    assert (Hwf3 : well_formed b3).
    { subst b3. apply well_formed_pushLog. now rewrite B1. }
    rewrite (getOrderedLogs_eq b3 Hwf3).
    assert (Hev : with_events (List.map drained b3)
                  = [("cloudwatch_logger"%string, "errors"%string, [report])]).
    { subst b3. apply with_events_pushLog; [reflexivity | reflexivity |].
      now rewrite B1. }
    set (w4 := with_bufferedLogs (List.map emptied b3) (with_bufferedLogs b3 w2)).
    destruct (Part003_deliver_in_turn_taken remote config Hcreate (List.map drained b3) w4)
      as (R5 & T5 & C5 & B5).
    { rewrite Hev. intros g' s' logs' [E|[]]. inversion E. subst.
      intros history. apply Hreport. }
    assert (E5 : Part003._flush remote (Some config) Date_now JSON_stringify fuel
                   (List.map drained b3) w4
                 = Part003.deliver_in_turn remote (Some config) (List.map drained b3) w4).
    { destruct fuel; cbn [Part003._flush]; unfold try_catch;
        destruct (Part003.deliver_in_turn remote (Some config)
                    (List.map drained b3) w4) as [[[]|e5|] w5];
        cbn [fst] in R5; try discriminate R5; reflexivity. }
    rewrite E5.
    destruct (Part003.deliver_in_turn remote (Some config)
                (List.map drained b3) w4) as [r5 w5].
    cbn [fst snd] in R5, T5, C5, B5. subst r5.
    exists w5, (timestamp report). split; [reflexivity|].
    rewrite T5, C5, B5, Hev.
    subst w4 w2. cbn [sent console_out bufferedLogs with_bufferedLogs with_console].
    rewrite T1, C1, !batches_app, (batches_none d F).
    split; [|split; [reflexivity | apply all_empty_emptied]].
    cbn [app List.map batches filter is_batch batch_of_entry fst snd].
    now rewrite <- app_assoc. }
  destruct E as (w' & now & E & T & C & B). rewrite E. cbn [fst snd].
  split; [reflexivity|]. split; [now exists now|]. split; [exact C | exact B].
Qed.

Lemma refusing_creations (g s : string) (e : Thrown) : accepts_creations (refusing g s e).
Proof. intros history c H. destruct c; try reflexivity. discriminate H. Qed.

Lemma Part003_flush_abandons_later_entries_witness :
  let denied := mkThrown OtherServiceException "AccessDeniedException"
                         "not authorized" None in
  let remote := refusing "g" "s" denied in
  let r := Part003._flush remote (Some (mkClientConfig "me-south-1" None))
             (fun _ => 7) (fun _ _ => [123; 125]) 1
             [("g"%string, "s"%string, [mkLog 1 [97]]);
              ("g"%string, "t"%string, [mkLog 2 [98]])] empty_Engine in
  accepts_creations remote /\
  (forall history, remote history (PutLogEventsCommand "g" "s" [mkLog 1 [97]])
                   = Rejected denied) /\
  (forall history report, exists code,
      remote history (PutLogEventsCommand "cloudwatch_logger" "errors" [report])
      = Resolved code) /\
  [mkLog 1 [97]] <> [] /\ (1 <= 1)%nat /\
  well_formed (bufferedLogs empty_Engine) /\ all_empty (bufferedLogs empty_Engine) /\
  fst r = Returned tt /\
  batches (sent (snd r))
  = [PutLogEventsCommand "g" "s" [mkLog 1 [97]];
     PutLogEventsCommand "cloudwatch_logger" "errors" [mkLog 7 [123; 125]]].
Proof.
  cbv zeta.
  set (denied := mkThrown OtherServiceException "AccessDeniedException"
                          "not authorized" None).
  assert (H0 : accepts_creations (refusing "g" "s" denied)) by apply refusing_creations.
  assert (Hr : forall history,
             refusing "g" "s" denied history (PutLogEventsCommand "g" "s" [mkLog 1 [97]])
             = Rejected denied) by reflexivity.
  assert (Ha : forall history report, exists code,
             refusing "g" "s" denied history
               (PutLogEventsCommand "cloudwatch_logger" "errors" [report])
             = Resolved code) by (intros history report; now exists 200).
  assert (H1 : [mkLog 1 [97]] <> []) by discriminate.
  assert (H2 : (1 <= 1)%nat) by lia.
  assert (H4 : well_formed (bufferedLogs empty_Engine)) by constructor.
  assert (H5 : all_empty (bufferedLogs empty_Engine)) by (intros k v []).
  split; [exact H0|]. split; [exact Hr|]. split; [exact Ha|].
  split; [exact H1|]. split; [exact H2|]. split; [exact H4|]. split; [exact H5|].
  split; [|reflexivity].
  exact (proj1 (Part003_flush_abandons_later_entries (refusing "g" "s" denied)
                  (mkClientConfig "me-south-1" None)
                  (fun _ => 7) (fun _ _ => [123; 125]) 1 "g" "s" denied [mkLog 1 [97]]
                  [("g"%string, "t"%string, [mkLog 2 [98]])] empty_Engine
                  H0 Hr Ha H1 H2 H4 H5)).
Defined.

(** ** Events added in one tick, part_002 *)

Lemma addLog_all_queues (clip : bool) (g s : string) (logs : list Log) (w : Engine) :
  (forall log, In log logs ->
     Part002.logEventExceedsSize log = false /\
     Part002.reachedBufferLimits (bufferedLogs w) g s log = false) ->
  addLog_all clip g s logs w
  = with_immediates (immediates w ++ List.map (fun log => (g, s, log)) logs) w.
Proof.
  unfold addLog_all. revert w. induction logs as [|l logs IH]; intros w H.
  - cbn. rewrite app_nil_r. now destruct w.
  - destruct (H l (or_introl eq_refl)) as [Hfit Hroom].
    cbn [fold_left]. unfold Part002.addLog at 2. rewrite Hfit, Hroom. cbn [snd].
    rewrite IH.
    + unfold Part002.setImmediate_pushLog, with_immediates. cbn.
      now rewrite <- app_assoc.
    + intros log Hin. exact (H log (or_intror Hin)).
Qed.

Lemma run_immediates_pushes (g s : string) (logs : list Log) (w : Engine) :
  Part002.run_immediates
    (with_immediates (List.map (fun log => (g, s, log)) logs) w)
  = with_immediates []
      (with_bufferedLogs (fold_left (fun b log => pushLog g s log b) logs (bufferedLogs w)) w).
Proof.
  unfold Part002.run_immediates. cbn [immediates with_immediates].
  assert (E : forall w0,
             fold_left (fun w (i : string * string * Log) =>
                          let '(g, s, l) := i in
                          with_bufferedLogs (pushLog g s l (bufferedLogs w)) w)
                       (List.map (fun log => (g, s, log)) logs) w0
             = with_bufferedLogs
                 (fold_left (fun b log => pushLog g s log b) logs (bufferedLogs w0)) w0).
  { induction logs as [|l logs IH]; intros w0.
    - cbn. now destruct w0.
    - cbn [List.map fold_left]. rewrite IH. reflexivity. }
  rewrite E. reflexivity.
Qed.

(** [addLog] of part_002 queues the push with [setImmediate] and checks
    the limits against the buffer as it is: events added one after the other
    before the queue runs are all checked against the same buffer, the
    events queued before them not counted.  When each of them alone fits,
    none triggers a flush and all of them end up in the buffer, which can
    then hold 10000 events or more, or 2^20 bytes or more. *)
Theorem addLog_checks_ignore_queued_pushes (clip : bool) (g s : string)
    (logs : list Log) (w : Engine) :
  immediates w = [] ->
  (forall log, In log logs ->
     Part002.logEventExceedsSize log = false /\
     Part002.reachedBufferLimits (bufferedLogs w) g s log = false) ->
  let w' := Part002.run_immediates (addLog_all clip g s logs w) in
  buffer_of (bufferedLogs w') g s = buffer_of (bufferedLogs w) g s ++ logs /\
  flushes w' = flushes w /\
  (CLOUDWTACH_MAX_BUFFER_LENGTH
   <= Z.of_nat (List.length (buffer_of (bufferedLogs w) g s) + List.length logs) ->
   ~ within_batch_limits (buffer_of (bufferedLogs w') g s)).
Proof.
  intros Hq H. cbv zeta.
  rewrite (addLog_all_queues clip g s logs w H), Hq. cbn [app].
  rewrite run_immediates_pushes.
  cbn [bufferedLogs flushes with_immediates with_bufferedLogs].
  assert (B : buffer_of (fold_left (fun b log => pushLog g s log b) logs (bufferedLogs w)) g s
              = buffer_of (bufferedLogs w) g s ++ logs).
  { destruct logs as [|l logs].
    - cbn. now rewrite app_nil_r.
    - unfold buffer_of at 1. rewrite pushLog_many by discriminate. reflexivity. }
  rewrite B. split; [reflexivity|]. split; [reflexivity|].
  intros Hlen [Hcount _]. rewrite length_app in Hcount. lia.
Qed.

Lemma addLog_checks_ignore_queued_pushes_witness :
  let w := with_bufferedLogs
             [(key_of "g" "s", repeat (mkLog 0 [97]) (Z.to_nat 9998))] empty_Engine in
  let logs := [mkLog 1 [98]; mkLog 2 [99]; mkLog 3 [100]] in
  immediates w = [] /\
  (forall log, In log logs ->
     Part002.logEventExceedsSize log = false /\
     Part002.reachedBufferLimits (bufferedLogs w) "g" "s" log = false) /\
  Z.of_nat (List.length
              (buffer_of (bufferedLogs
                            (Part002.run_immediates (addLog_all true "g" "s" logs w)))
                 "g" "s")) = 10001.
Proof.
  cbv zeta.
  assert (H : forall log, In log [mkLog 1 [98]; mkLog 2 [99]; mkLog 3 [100]] ->
               Part002.logEventExceedsSize log = false /\
               Part002.reachedBufferLimits
                 (bufferedLogs
                    (with_bufferedLogs
                       [(key_of "g" "s", repeat (mkLog 0 [97]) (Z.to_nat 9998))]
                       empty_Engine)) "g" "s" log = false).
  { intros log [<-|[<-|[<-|[]]]]; (split; vm_compute; reflexivity). }
  assert (Hq : immediates
                 (with_bufferedLogs
                    [(key_of "g" "s", repeat (mkLog 0 [97]) (Z.to_nat 9998))]
                    empty_Engine) = []) by reflexivity.
  split; [exact Hq|]. split; [exact H|].
  rewrite (proj1 (addLog_checks_ignore_queued_pushes true "g" "s" _ _ Hq H)).
  vm_compute. reflexivity.
Defined.

(** ** A message logged through a [Logger], part_002 *)

Lemma Part002_createLogStream_is_the_class (remote : Remote) (config : ClientConfig)
    (g s : string) :
  Part002.createLogStream remote (Some config) g s
  = CloudWatchLogger.createLogStream remote g s.
Proof. reflexivity. Qed.

Section Part002Accepting.
Variable remote : Remote.
Variable config : ClientConfig.
Variable Date_now : Engine -> Z.
Variable JSON_stringify : string -> Thrown -> option Entry -> JsString.
Hypothesis Haccepts : accepts_everything remote.

Lemma Part002_putEventLogs_accepted (g s : string) (logs : list Log) (w : Engine) :
  logs <> [] ->
  exists d,
    fst (Part002.putEventLogs remote (Some config) g s logs w) = Returned tt /\
    sent_more w (snd (Part002.putEventLogs remote (Some config) g s logs w))
              (d ++ [PutLogEventsCommand g s logs]) /\
    Forall (fun c => is_batch c = false) d.
Proof.
  intros Hne. destruct logs as [|l logs]; [contradiction|].
  unfold Part002.putEventLogs. rewrite Part002_createLogStream_is_the_class.
  destruct (createLogStream_accepted remote (accepts_everything_creations remote Haccepts)
              g s w) as (d & R & S & F & _).
  exists d. unfold try_catch, bind.
  destruct (CloudWatchLogger.createLogStream remote g s w) as [r1 w1].
  cbn [fst snd] in *. subst r1. unfold send. rewrite Haccepts. cbn [fst snd ret].
  split; [reflexivity|]. split; [|exact F].
  eapply sent_more_trans; [exact S | apply sent_more_send].
Qed.

Lemma Part002_flush_accepted (fuel : nat) (entries : list Entry) (w : Engine) :
  exists w',
    Part002._flush remote (Some config) Date_now JSON_stringify fuel entries w
    = (Returned tt, w') /\
    batches (sent w') = batches (sent w) ++ List.map batch_of_entry (with_events entries) /\
    console_out w' = console_out w /\
    bufferedLogs w' = bufferedLogs w /\
    flushes w' = flushes w.
Proof.
  revert w. induction entries as [|[[g s] logs] rest IH]; intros w.
  - exists w. rewrite Part002_flush_nil. cbn. now rewrite app_nil_r.
  - rewrite Part002_flush_cons. destruct logs as [|l logs].
    + unfold try_catch, bind. cbn [Part002.putEventLogs ret]. apply IH.
    + destruct (Part002_putEventLogs_accepted g s (l :: logs) w ltac:(discriminate))
        as (d & R & (B1 & C1 & F1 & _ & T1) & F).
      unfold try_catch at 1 2. unfold bind at 1.
      destruct (Part002.putEventLogs remote (Some config) g s (l :: logs) w) as [r1 w1].
      cbn [fst snd] in *. subst r1.
      destruct (IH w1) as (w' & E2 & T2 & C2 & B2 & F2).
      exists w'. split; [exact E2|].
      rewrite T2, C2, B2, F2, T1, C1, B1, F1. split; [|auto].
      rewrite !batches_app, (batches_none d F). cbn [app].
      unfold with_events at 2. cbn [filter snd List.length Nat.eqb negb List.map].
      unfold batch_of_entry at 2. cbn [fst snd].
      now rewrite <- app_assoc.
Qed.
End Part002Accepting.

Lemma reachedBufferLimits_empty_buffer (b : Buffers) (g s : string) (log : Log) :
  map_get (key_of g s) b = Some [] ->
  Part002.logEventExceedsSize log = false ->
  Part002.reachedBufferLimits b g s log = false.
Proof.
  intros E Hfit. unfold Part002.reachedBufferLimits. rewrite E.
  unfold Part002.logEventExceedsSize in Hfit. rewrite MAX_EVENT_SIZE_value in Hfit.
  cbn [List.length fold_left].
  unfold CLOUDWTACH_MAX_BUFFER_LENGTH, CLOUDWATCH_MAX_BUFFER_SIZE,
    CLOUDWATCH_FIXED_EVENT_PREFIX.
  destruct (Z.geb_spec (Z.of_nat 0 + 1) 10000); [lia|].
  destruct (Z.geb_spec (0 + (Buffer.byteLength (message log) + 26)) (2 ^ 20));
    [lia | reflexivity].
Qed.



(* ================================================================== *)
(** ** C2: the retry of part_002 for a destination that fails *)

Lemma Part002_retry_loop_half_an_event (remote : Remote) (client : option ClientConfig)
    (fuel : nat) (g s : string) (e : Log) (w : Engine) :
  Part002.retry_loop remote client fuel (1 # 2) g s [e] w = (OutOfFuel, w).
Proof.
  induction fuel as [|fuel IH]; [reflexivity|].
  cbn [Part002.retry_loop]. unfold splice0, ToIntegerOrInfinity. cbn [Qnum Qden].
  change (Z.to_nat (Z.quot 1 2)) with 0%nat. cbn [firstn skipn].
  unfold bind. cbn [Part002.putEventLogs ret]. exact IH.
Qed.

Section Part002FailedDelivery.
Variable remote : Remote.
Variable config : ClientConfig.
Variable Date_now : Engine -> Z.
Variable JSON_stringify : string -> Thrown -> option Entry -> JsString.
Hypothesis Hcreate : accepts_creations remote.

(** A delivery of part_002: the creations go through, the answer to the
    batch decides. *)
Lemma Part002_putEventLogs_delivery (g s : string) (logs : list Log) (w : Engine) :
  logs <> [] ->
  exists d w1,
    sent_more w w1 d /\ Forall (fun c => is_batch c = false) d /\
    Part002.putEventLogs remote (Some config) g s logs w
    = match remote (sent w1) (PutLogEventsCommand g s logs) with
      | Rejected e =>
          (Threw (new_Error "Put Log Events Failed" (Some e)),
           with_sent (sent w1 ++ [PutLogEventsCommand g s logs]) w1)
      | Resolved _ =>
          (Returned tt, with_sent (sent w1 ++ [PutLogEventsCommand g s logs]) w1)
      end.
Proof.
  intros Hne. destruct logs as [|l logs]; [contradiction|].
  unfold Part002.putEventLogs. rewrite Part002_createLogStream_is_the_class.
  destruct (createLogStream_accepted remote Hcreate g s w) as (d & R & S & F & _).
  exists d, (snd (CloudWatchLogger.createLogStream remote g s w)).
  split; [exact S|]. split; [exact F|].
  unfold try_catch, bind.
  destruct (CloudWatchLogger.createLogStream remote g s w) as [r1 w1].
  cbn [fst snd] in *. subst r1. unfold send.
  destruct (remote (sent w1) (PutLogEventsCommand g s (l :: logs))); reflexivity.
Qed.

Lemma Part002_flush_taken (fuel : nat) (entries : list Entry) (w : Engine) :
  (forall g s logs, In (g, s, logs) (with_events entries) ->
     forall history, exists code,
       remote history (PutLogEventsCommand g s logs) = Resolved code) ->
  exists w',
    Part002._flush remote (Some config) Date_now JSON_stringify fuel entries w
    = (Returned tt, w') /\
    batches (sent w') = batches (sent w) ++ List.map batch_of_entry (with_events entries) /\
    console_out w' = console_out w /\
    bufferedLogs w' = bufferedLogs w.
Proof.
  revert w. induction entries as [|[[g s] logs] rest IH]; intros w H.
  - exists w. rewrite Part002_flush_nil. cbn. now rewrite app_nil_r.
  - rewrite Part002_flush_cons. destruct logs as [|l logs].
    + unfold try_catch, bind. cbn [Part002.putEventLogs ret]. apply IH. exact H.
    + destruct (Part002_putEventLogs_delivery g s (l :: logs) w ltac:(discriminate))
        as (d & w1 & (B1 & C1 & _ & _ & T1) & F & E).
      destruct (H g s (l :: logs) (or_introl eq_refl) (sent w1)) as [code Hcode].
      rewrite Hcode in E.
      unfold try_catch at 1 2. unfold bind at 1. rewrite E.
      destruct (IH (with_sent (sent w1 ++ [PutLogEventsCommand g s (l :: logs)]) w1))
        as (w' & E2 & T2 & C2 & B2).
      { intros g' s' logs' Hin. apply (H g' s' logs'). now right. }
      exists w'. split; [exact E2|].
      rewrite T2, C2, B2. cbn [sent console_out bufferedLogs with_sent].
      rewrite T1, C1, B1. split; [|auto].
      rewrite !batches_app, (batches_none d F). cbn [app].
      unfold with_events at 2. cbn [filter snd List.length Nat.eqb negb List.map].
      unfold batch_of_entry at 2. cbn [fst snd].
      now rewrite <- !app_assoc.
Qed.

(** One event whose delivery fails while the report of the failure is
    delivered: the retry loop is entered with half an event to take. *)
Lemma Part002_flush_single_event (fuel : nat) (g s : string) (e : Thrown) (event : Log)
    (w : Engine) :
  (forall history, remote history (PutLogEventsCommand g s [event]) = Rejected e) ->
  (forall history report, exists code,
      remote history (PutLogEventsCommand "cloudwatch_logger" "errors" [report])
      = Resolved code) ->
  well_formed (bufferedLogs w) -> all_empty (bufferedLogs w) ->
  let failure := new_Error "Put Log Events Failed" (Some e) in
  fst (Part002._flush remote (Some config) Date_now JSON_stringify fuel
         [(g, s, [event])] w) = OutOfFuel /\
  exists now w',
    Part002._flush remote (Some config) Date_now JSON_stringify (S fuel)
      [(g, s, [event])] w = (OutOfFuel, w') /\
    batches (sent w')
    = batches (sent w)
      ++ [PutLogEventsCommand g s [event];
          PutLogEventsCommand "cloudwatch_logger" "errors"
            [mkLog now (JSON_stringify "flushing error (will retry)"%string failure
                          (Some (g, s, [event])))]] /\
    console_out w' = console_out w ++ [ConsoleError failure].
Proof.
  intros Hrej Hreport Hwf He. cbv zeta.
  set (failure := new_Error "Put Log Events Failed" (Some e)).
  destruct (Part002_putEventLogs_delivery g s [event] w ltac:(discriminate))
    as (d & w1 & (B1 & C1 & _ & _ & T1) & F & E1).
  rewrite Hrej in E1. fold failure in E1.
  set (w1' := with_sent (sent w1 ++ [PutLogEventsCommand g s [event]]) w1) in *.
  set (w2 := with_console (console_out w1' ++ [ConsoleError failure]) w1').
  set (report := mkLog (Date_now w2)
                   (JSON_stringify "flushing error (will retry)"%string failure
                      (Some (g, s, [event])))).
  set (b3 := pushLog "cloudwatch_logger" "errors" report (bufferedLogs w2)).
  assert (Hb2 : bufferedLogs w2 = bufferedLogs w) by (subst w2 w1'; cbn; exact B1).
  assert (Hwf3 : well_formed b3).
  { subst b3. apply well_formed_pushLog. now rewrite Hb2. }
  assert (Hev : with_events (List.map drained b3)
                = [("cloudwatch_logger"%string, "errors"%string, [report])]).
  { subst b3. apply with_events_pushLog; [reflexivity | reflexivity |].
    now rewrite Hb2. }
  assert (Hspin : forall fuel0,
             exists now w',
               Part002._flush remote (Some config) Date_now JSON_stringify (S fuel0)
                 [(g, s, [event])] w = (OutOfFuel, w') /\
               batches (sent w')
               = batches (sent w)
                 ++ [PutLogEventsCommand g s [event];
                     PutLogEventsCommand "cloudwatch_logger" "errors"
                       [mkLog now (JSON_stringify "flushing error (will retry)"%string
                                     failure (Some (g, s, [event])))]] /\
               console_out w' = console_out w ++ [ConsoleError failure]).
  { intros fuel0.
    destruct (Part002_flush_taken fuel0 (List.map drained b3)
                (with_bufferedLogs (List.map emptied b3) (with_bufferedLogs b3 w2)))
      as (w' & E' & T' & C' & _).
    { rewrite Hev. intros g' s' logs' [E|[]]. inversion E. subst.
      intros history. apply Hreport. }
    exists (timestamp report), w'. split.
    - rewrite Part002_flush_cons.
      unfold try_catch at 1 2. unfold bind at 1. rewrite E1.
      unfold bind at 1. unfold console_error at 1. unfold modify at 1.
      unfold bind at 1. unfold Part002.addErrorLog at 1. unfold Part002.flush_with at 1.
      cbn [bufferedLogs with_bufferedLogs with_console].
      fold w2. fold report.
      change (pushLog "cloudwatch_logger" "errors" report (bufferedLogs w1')) with b3.
      rewrite (getOrderedLogs_eq b3 Hwf3), E'.
      unfold Part002.retry_split. cbn [List.length Z.of_nat Pos.of_succ_nat].
      rewrite Part002_retry_loop_half_an_event. reflexivity.
    - rewrite T', C', Hev. subst w2 w1'.
      cbn [sent console_out with_bufferedLogs with_console with_sent].
      rewrite T1, C1, !batches_app, (batches_none d F). split; [|reflexivity].
      rewrite app_nil_r, <- app_assoc. reflexivity. }
  split; [|apply Hspin].
  destruct fuel as [|fuel].
  - rewrite Part002_flush_cons.
    unfold try_catch at 1 2. unfold bind at 1. rewrite E1.
    unfold bind at 1. unfold console_error at 1. unfold modify at 1.
    unfold bind at 1. unfold Part002.addErrorLog at 1. reflexivity.
  - destruct (Hspin fuel) as (now & w' & E & _). now rewrite E.
Qed.
End Part002FailedDelivery.

(** C2 (code at the failing input): the retry loop of part_002 takes
    [logs.length / 2] as it is.  For one event and a sink that rejects every
    batch for the event's destination (and accepts everything else, the
    error reports included), the delivery fails, the failure is reported,
    and the loop is entered with 0.5 events to take: [splice] removes
    nothing, the delivery of nothing succeeds, the event stays, and the loop
    never ends.  The call never returns, whatever the number of turns
    allowed; the event is attempted once and never again, and no terminal
    failure is reported for it.  For four events the loop ends, but not at
    single events: the first two are attempted once more, that failure
    leaves the loop, and the last two are never attempted again. *)
Theorem Part002_flush_spins_on_a_single_event :
  let refusal := mkThrown OtherServiceException "ServiceUnavailableException"
                          "unavailable" None in
  let failure := new_Error "Put Log Events Failed" (Some refusal) in
  let remote := refusing "g" "s" refusal in
  let client := Some (mkClientConfig "me-south-1" None) in
  let event := mkLog 1 [97] in
  (forall Date_now JSON_stringify fuel,
      fst (Part002._flush remote client Date_now JSON_stringify fuel
             [("g"%string, "s"%string, [event])] empty_Engine) = OutOfFuel) /\
  (forall Date_now JSON_stringify fuel,
      exists now w',
        Part002._flush remote client Date_now JSON_stringify (S fuel)
          [("g"%string, "s"%string, [event])] empty_Engine = (OutOfFuel, w') /\
        batches (sent w')
        = [PutLogEventsCommand "g" "s" [event];
           PutLogEventsCommand "cloudwatch_logger" "errors"
             [mkLog now (JSON_stringify "flushing error (will retry)"%string failure
                           (Some ("g"%string, "s"%string, [event])))]] /\
        console_out w' = [ConsoleError failure]) /\
  (let r := Part002._flush remote client (fun _ => 0) (fun _ _ _ => [123; 125]) 4
              [("g"%string, "s"%string, four_events)] empty_Engine in
   fst r = Returned tt /\
   batches (sent (snd r))
   = [PutLogEventsCommand "g" "s" four_events;
      PutLogEventsCommand "cloudwatch_logger" "errors" [mkLog 0 [123; 125]];
      PutLogEventsCommand "g" "s" [mkLog 1 [97]; mkLog 2 [98]];
      PutLogEventsCommand "cloudwatch_logger" "errors" [mkLog 0 [123; 125]]] /\
   bufferedLogs (snd r) = [(key_of "cloudwatch_logger" "errors", [])]).
Proof.
  cbv zeta.
  set (refusal := mkThrown OtherServiceException "ServiceUnavailableException"
                           "unavailable" None).
  assert (Hrej : forall history,
             refusing "g" "s" refusal history
               (PutLogEventsCommand "g" "s" [mkLog 1 [97]]) = Rejected refusal)
    by reflexivity.
  assert (Hrep : forall history report, exists code,
             refusing "g" "s" refusal history
               (PutLogEventsCommand "cloudwatch_logger" "errors" [report])
             = Resolved code) by (intros history report; now exists 200).
  assert (Hwf : well_formed (bufferedLogs empty_Engine)) by constructor.
  assert (He : all_empty (bufferedLogs empty_Engine)) by (intros k v []).
  split; [|split].
  - intros Date_now JSON_stringify fuel.
    exact (proj1 (Part002_flush_single_event _ (mkClientConfig "me-south-1" None)
                    Date_now JSON_stringify (refusing_creations "g" "s" refusal)
                    fuel "g" "s" refusal (mkLog 1 [97]) empty_Engine Hrej Hrep Hwf He)).
  - intros Date_now JSON_stringify fuel.
    exact (proj2 (Part002_flush_single_event _ (mkClientConfig "me-south-1" None)
                    Date_now JSON_stringify (refusing_creations "g" "s" refusal)
                    fuel "g" "s" refusal (mkLog 1 [97]) empty_Engine Hrej Hrep Hwf He)).
  - vm_compute. repeat split; reflexivity.
Qed.

(* ================================================================== *)
(** ** A report that the sink rejects *)

Lemma Prints_more_quiet {A} (r : Outcome A) : Prints_more (fun w => (r, w)).
Proof. intros w. exists []. cbn. now rewrite app_nil_r. Qed.

Lemma Prints_more_bind {A B} (m : M A) (k : A -> M B) :
  Prints_more m -> (forall a, Prints_more (k a)) -> Prints_more (bind m k).
Proof.
  intros Hm Hk w. destruct (Hm w) as (o1 & E1). unfold bind.
  destruct (m w) as [[a|e|] w1]; cbn [snd] in *; try (now exists o1).
  destruct (Hk a w1) as (o2 & E2). exists (o1 ++ o2). now rewrite E2, E1, app_assoc.
Qed.

Lemma Prints_more_try_catch {A} (m : M A) (h : Thrown -> M A) :
  Prints_more m -> (forall e, Prints_more (h e)) -> Prints_more (try_catch m h).
Proof.
  intros Hm Hh w. destruct (Hm w) as (o1 & E1). unfold try_catch.
  destruct (m w) as [[a|e|] w1]; cbn [snd] in *; try (now exists o1).
  destruct (Hh e w1) as (o2 & E2). exists (o1 ++ o2). now rewrite E2, E1, app_assoc.
Qed.

Lemma Sends_Prints_more {A} (P : Command -> Prop) (m : M A) :
  Sends P m -> Prints_more m.
Proof.
  intros H w. destruct (H w) as (d & (_ & C & _) & _). exists [].
  now rewrite app_nil_r.
Qed.

Lemma Prints_more_console_error (e : Thrown) : Prints_more (console_error e).
Proof. intros w. now exists [ConsoleError e]. Qed.

Lemma Prints_more_logError (remote : Remote) (report : string) (e : Thrown) :
  Prints_more (CloudWatchLogger.logError remote report e).
Proof.
  intros w. unfold CloudWatchLogger.logError, send_detached, modify. cbn [snd].
  destruct (remote (sent w) (PutSelfDiagnostic report e)) as [code|e0].
  - exists []. cbn. now rewrite app_nil_r.
  - now exists [UnhandledRejection e0].
Qed.

Lemma Prints_more_retry_loop (remote : Remote) (fuel : nat) (half : Z) (error : Thrown)
    (g s : string) (logs : list Log) :
  Prints_more (CloudWatchLogger.retry_loop remote fuel half error g s logs).
Proof.
  revert logs. induction fuel as [|fuel IH]; intros logs.
  - destruct logs; apply Prints_more_quiet.
  - destruct logs as [|l logs]; [apply Prints_more_quiet|].
    cbn [CloudWatchLogger.retry_loop]. rewrite splice0_integer.
    apply Prints_more_bind; [|intros _; apply IH].
    eapply Sends_Prints_more. apply putEventLogs_Sends.
Qed.

(** What a handler prints comes after what the body printed. *)
Lemma try_catch_prints_after {A} (m : M A) (h : Thrown -> M A) (w : Engine) :
  (forall e, Prints_more (h e)) ->
  exists o, console_out (snd (try_catch m h w)) = console_out (snd (m w)) ++ o.
Proof.
  intros Hh. unfold try_catch.
  destruct (m w) as [[a|e|] w1]; cbn [snd];
    try (exists []; now rewrite app_nil_r).
  destruct (Hh e w1) as (o & E). now exists o.
Qed.

(** The error report of the class is sent without [await] and without
    [catch].  When every delivery fails and the sink rejects the report as
    well (no credentials, no permission, no network), the first delivery
    that [_flush] sees fail is printed and then leaves a promise rejection
    that nobody handles, on which Node ends the process: a sink that is
    down takes the program down with it. *)
Theorem rejected_report_is_unhandled (remote : Remote) (fuel : nat) (g s : string)
    (logs : list Log) (w : Engine) :
  every_delivery_fails remote -> rejects_reports remote -> logs <> [] ->
  exists cause rejection after,
    console_out (snd (CloudWatchLogger.flush_entry remote fuel (g, s, logs) w))
    = console_out w
      ++ ConsoleError (new_Error "Put Log Events Failed" (Some cause))
         :: UnhandledRejection rejection :: after.
Proof.
  intros Hfail Hrej Hne.
  destruct (putEventLogs_fails remote Hfail g s logs w Hne)
    as (cause & d & E1 & (_ & C1 & _) & _).
  exists cause.
  unfold CloudWatchLogger.flush_entry.
  match goal with
  | |- context [try_catch (try_catch ?m ?h1) ?h2 w] =>
      destruct (try_catch_prints_after (try_catch m h1) h2 w) as (o2 & E2)
  end.
  { intros e. apply Prints_more_bind; [apply Prints_more_console_error|]. intros _.
    apply Prints_more_logError. }
  rewrite E2. clear E2.
  unfold try_catch.
  destruct (CloudWatchLogger.putEventLogs remote g s logs w) as [r1 w1].
  cbn [fst snd] in E1, C1. subst r1.
  unfold bind at 1. unfold console_error at 1. unfold modify at 1.
  unfold bind at 1. unfold CloudWatchLogger.logError at 1.
  unfold send_detached at 1. unfold modify at 1. cbv zeta.
  match goal with
  | |- context [remote ?h (PutSelfDiagnostic ?r ?a)] =>
      destruct (Hrej h r a) as [rejection Hr]; rewrite Hr
  end.
  exists rejection.
  match goal with
  | |- context [snd (?rest ?w3)] =>
      assert (P : Prints_more rest);
        [|destruct (P w3) as (o1 & E3); rewrite E3]
  end.
  { destruct logs; [apply Prints_more_quiet | apply Prints_more_retry_loop]. }
  exists (o1 ++ o2). cbn [console_out with_sent with_console].
  rewrite C1, <- !app_assoc. reflexivity.
Qed.

Lemma access_denied_fails : every_delivery_fails access_denied.
Proof. intros history g s logEvents. eexists. reflexivity. Qed.

Lemma access_denied_rejects_reports : rejects_reports access_denied.
Proof. intros history report about. eexists. reflexivity. Qed.

Lemma rejected_report_is_unhandled_witness :
  let denied := mkThrown OtherServiceException "AccessDeniedException"
                         "not authorized" None in
  every_delivery_fails access_denied /\ rejects_reports access_denied /\
  four_events <> [] /\
  exists after,
    console_out (snd (CloudWatchLogger.flush_entry access_denied 2
                        ("g"%string, "s"%string, four_events) empty_Engine))
    = ConsoleError
        (new_Error "Put Log Events Failed"
           (Some (new_Error "Create Log Stream Failed"
                    (Some (new_Error "Create Log Group Failed" (Some denied))))))
        :: UnhandledRejection denied :: after.
Proof.
  cbv zeta.
  assert (Hne : four_events <> []) by discriminate.
  split; [exact access_denied_fails|]. split; [exact access_denied_rejects_reports|].
  split; [exact Hne|].
  destruct (rejected_report_is_unhandled access_denied 2 "g" "s" four_events empty_Engine
              access_denied_fails access_denied_rejects_reports Hne)
    as (cause & rejection & after & E).
  exists after.
  assert (C : console_out (snd (CloudWatchLogger.flush_entry access_denied 2
                                  ("g"%string, "s"%string, four_events) empty_Engine))
              = [ConsoleError
                   (new_Error "Put Log Events Failed"
                      (Some (new_Error "Create Log Stream Failed"
                               (Some (new_Error "Create Log Group Failed"
                                        (Some (mkThrown OtherServiceException
                                                 "AccessDeniedException"
                                                 "not authorized" None)))))));
                 UnhandledRejection (mkThrown OtherServiceException
                                       "AccessDeniedException" "not authorized" None);
                 ConsoleError
                   (new_Error "Put Log Events Failed"
                      (Some (new_Error "Create Log Stream Failed"
                               (Some (new_Error "Create Log Group Failed"
                                        (Some (mkThrown OtherServiceException
                                                 "AccessDeniedException"
                                                 "not authorized" None)))))));
                 UnhandledRejection (mkThrown OtherServiceException
                                       "AccessDeniedException" "not authorized" None)])
    by (vm_compute; reflexivity).
  rewrite C in E. cbn [console_out empty_Engine app] in E.
  inversion E. reflexivity.
Defined.
